(** * Simple_Parser: the pattern compiler and the tree-walking matcher

    A shallow embedding of the C++ sources (AST.h, Nodes.h, the parser and the
    search driver of main.cpp) and the properties of the specification that
    are settled on it.

    Conventions of the embedding:
    - [std::string] is a [list ascii]; [size_t] offsets are [nat] (no offset
      is ever incremented past the length of its string);
    - [int] values are [Z]; [std::stoi] is the only place where the range of
      [int] is observable (it throws [std::out_of_range]); [groupCounter]
      and the repetition counter of [StarNode::match] would need 2^31
      closed groups or repetitions to overflow and are left unbounded;
    - a [std::shared_ptr<ASTNode>] that the parser may leave null is an
      [option ASTNode], and calling [match] through it is the result
      [NullDeref];
    - [std::tolower] and [std::isdigit] are those of the "C" locale;
    - recursion through virtual calls and [while(true)] loops is bounded by a
      fuel argument; running out of fuel is a result of its own
      ([OutOfFuel], [NoFuel]), distinct from every result of the program,
      and more fuel never changes a result ([match_node_mono],
      [parser_mono_all]). *)

From Stdlib Require Import ZArith Ascii String Bool Lia.
From stdpp Require Import base list.

Local Open Scope nat_scope.
Set Warnings "-register-all".

(* ===================================================================== *)
(** ** AST.h : capture groups and the match context *)
(* ===================================================================== *)

Record CaptureGroup : Type := mkCaptureGroup {
  startIndex : nat;
  endIndex : nat;
  valid : bool
}.

Record MatchContext : Type := mkMatchContext {
  input : list ascii;
  position : nat;
  captures : list (option CaptureGroup);
  ignoreCase : bool
}.

Definition atEnd (ctx : MatchContext) : bool :=
  length (input ctx) <=? position ctx.

Definition currentChar (ctx : MatchContext) : ascii :=
  if atEnd ctx then zero else default zero (input ctx !! position ctx).

Definition set_position (ctx : MatchContext) (p : nat) : MatchContext :=
  mkMatchContext (input ctx) p (captures ctx) (ignoreCase ctx).

Definition set_captures (ctx : MatchContext)
    (caps : list (option CaptureGroup)) : MatchContext :=
  mkMatchContext (input ctx) (position ctx) caps (ignoreCase ctx).

Definition set_ignoreCase (ctx : MatchContext) (b : bool) : MatchContext :=
  mkMatchContext (input ctx) (position ctx) (captures ctx) b.

(** [std::tolower] in the "C" locale. *)
Definition tolower (c : ascii) : ascii :=
  let n := nat_of_ascii c in
  if (65 <=? n) && (n <=? 90) then ascii_of_nat (n + 32) else c.

(* ===================================================================== *)
(** ** Nodes.h : the node hierarchy *)
(* ===================================================================== *)

(** One constructor per class.  [GroupNode] is the only class that the parser
    constructs from a pointer it has not tested ([parseGroup] passes the
    result of [parseExpr] as it is), hence the [option]. *)
Inductive ASTNode : Type :=
| CharacterNode (ch : ascii)
| DotNode
| SequenceNode (children : list ASTNode)
| OrNode (lhs rhs : ASTNode)
| GroupNode (expr : option ASTNode) (groupIndex : Z)
| StarNode (expr : ASTNode)
| CountNode (expr : ASTNode) (count : Z)
| IgnoreCaseNode (expr : ASTNode)
| OutputGroupNode (groupIndex : Z).

(** What a call of [match] can do: return [true] or [false] with the context
    as the call left it, dereference a null [expr], or not return within the
    given fuel. *)
Inductive MatchResult : Type :=
| Returned (ok : bool) (ctx : MatchContext)
| NullDeref
| OutOfFuel.

(** [ctx.captures.resize(groupIndex + 1, nullopt)] when the slot does not
    exist yet, then the assignment to the slot. *)
Definition store_capture (caps : list (option CaptureGroup))
    (groupIndex : Z) (cg : CaptureGroup) : list (option CaptureGroup) :=
  let i := Z.to_nat groupIndex in
  let caps1 :=
    if (Z.of_nat (length caps) <=? groupIndex)%Z
    then resize (S i) None caps else caps in
  <[i := Some cg]> caps1.

(** The [for (auto& c : children)] loop of [SequenceNode::match]; [m] is the
    virtual call [c->match(ctx)]. *)
Fixpoint seq_loop (m : ASTNode -> MatchContext -> MatchResult)
    (savedPos : nat) (children : list ASTNode) (ctx : MatchContext)
    : MatchResult :=
  match children with
  | [] => Returned true ctx
  | c :: cs =>
      match m c ctx with
      | Returned true ctx1 => seq_loop m savedPos cs ctx1
      | Returned false ctx1 => Returned false (set_position ctx1 savedPos)
      | r => r
      end
  end.

(** The [for (int i = 0; i < count; i++)] loop of [CountNode::match], with
    [n] the number of iterations left. *)
Fixpoint count_loop (m : MatchContext -> MatchResult)
    (savedPos : nat) (n : nat) (ctx : MatchContext) : MatchResult :=
  match n with
  | O => Returned true ctx
  | S k =>
      match m ctx with
      | Returned true ctx1 => count_loop m savedPos k ctx1
      | Returned false ctx1 => Returned false (set_position ctx1 savedPos)
      | r => r
      end
  end.

(** [ASTNode::match] with its overrides, and the [while(true)] loop of
    [StarNode::match] ([star_loop], [count] being the loop's counter). *)
Fixpoint match_node (fuel : nat) (node : ASTNode) (ctx : MatchContext)
    {struct fuel} : MatchResult :=
  match fuel with
  | O => OutOfFuel
  | S f =>
      match node with
      | CharacterNode ch =>
          if atEnd ctx then Returned false ctx
          else
            let inputChar := currentChar ctx in
            if ignoreCase ctx then
              if Ascii.eqb (tolower inputChar) (tolower ch)
              then Returned true (set_position ctx (S (position ctx)))
              else Returned false ctx
            else
              if Ascii.eqb inputChar ch
              then Returned true (set_position ctx (S (position ctx)))
              else Returned false ctx
      | DotNode =>
          if atEnd ctx then Returned false ctx
          else Returned true (set_position ctx (S (position ctx)))
      | SequenceNode children =>
          seq_loop (match_node f) (position ctx) children ctx
      | OrNode lhs rhs =>
          let savedPos := position ctx in
          match match_node f lhs ctx with
          | Returned true ctx1 => Returned true ctx1
          | Returned false ctx1 =>
              match match_node f rhs (set_position ctx1 savedPos) with
              | Returned true ctx2 => Returned true ctx2
              | Returned false ctx2 => Returned false ctx2
              | r => r
              end
          | r => r
          end
      | GroupNode expr groupIndex =>
          let startPos := position ctx in
          match expr with
          | None => NullDeref
          | Some e =>
              match match_node f e ctx with
              | Returned true ctx1 =>
                  let endPos := position ctx1 in
                  if (0 <=? groupIndex)%Z
                  then Returned true
                         (set_captures ctx1
                            (store_capture (captures ctx1) groupIndex
                               (mkCaptureGroup startPos endPos true)))
                  else Returned true ctx1
              | Returned false ctx1 => Returned false ctx1
              | r => r
              end
          end
      | StarNode expr => star_loop f expr ctx 0%Z
      | CountNode expr count =>
          count_loop (match_node f expr) (position ctx) (Z.to_nat count) ctx
      | IgnoreCaseNode expr =>
          let savedFlag := ignoreCase ctx in
          match match_node f expr (set_ignoreCase ctx true) with
          | Returned ok ctx1 => Returned ok (set_ignoreCase ctx1 savedFlag)
          | r => r
          end
      | OutputGroupNode _ => Returned true ctx
      end
  end
with star_loop (fuel : nat) (expr : ASTNode) (ctx : MatchContext)
    (count : Z) {struct fuel} : MatchResult :=
  match fuel with
  | O => OutOfFuel
  | S f =>
      let savedPos := position ctx in
      match match_node f expr ctx with
      | Returned true ctx1 => star_loop f expr ctx1 (count + 1)%Z
      | Returned false ctx1 =>
          Returned (1 <=? count)%Z (set_position ctx1 savedPos)
      | r => r
      end
  end.

(* ===================================================================== *)
(** ** The parser : cursor, helpers and the recursive descent *)
(* ===================================================================== *)

Record Cursor : Type := mkCursor {
  text : list ascii;
  pos : nat
}.

Definition cur_end (cur : Cursor) : bool := length (text cur) <=? pos cur.

Definition current (cur : Cursor) : ascii :=
  if cur_end cur then zero else default zero (text cur !! pos cur).

Definition advance (cur : Cursor) : Cursor :=
  if cur_end cur then cur else mkCursor (text cur) (S (pos cur)).

Definition set_pos (cur : Cursor) (p : nat) : Cursor := mkCursor (text cur) p.

Definition matchChar (cur : Cursor) (c : ascii) : bool * Cursor :=
  if negb (cur_end cur) && Ascii.eqb (current cur) c
  then (true, advance cur) else (false, cur).

(** [std::isdigit] in the "C" locale. *)
Definition isdigit (c : ascii) : bool :=
  let n := nat_of_ascii c in (48 <=? n) && (n <=? 57).

(** The characters of [std::string("+*().{}\\")]. *)
Definition special_chars : list ascii :=
  ["+"; "*"; "("; ")"; "."; "{"; "}"; "\"]%char.

Definition is_special (c : ascii) : bool :=
  existsb (Ascii.eqb c) special_chars.

(** The loop [while (!cur.end() && std::isdigit(cur.current()))] that
    collects digits; [n] bounds the iterations and is taken as the number of
    characters left, which the loop cannot exceed. *)
Fixpoint digits_loop (n : nat) (digits : list ascii) (cur : Cursor)
    : list ascii * Cursor :=
  match n with
  | O => (digits, cur)
  | S k =>
      if negb (cur_end cur) && isdigit (current cur)
      then digits_loop k (digits ++ [current cur]) (advance cur)
      else (digits, cur)
  end.

Definition parse_digits (cur : Cursor) : list ascii * Cursor :=
  digits_loop (length (text cur) - pos cur) [] cur.

Definition INT_MAX : Z := 2147483647.

Definition digit_value (c : ascii) : Z := (Z.of_nat (nat_of_ascii c) - 48)%Z.

Definition decimal (digits : list ascii) : Z :=
  fold_left (fun acc c => (10 * acc + digit_value c)%Z) digits 0%Z.

(** [std::stoi] on a non-empty string of digits: the value, or [None] when
    it throws [std::out_of_range]. *)
Definition stoi (digits : list ascii) : option Z :=
  let v := decimal digits in
  if (v <=? INT_MAX)%Z then Some v else None.

(** The state of a compilation: the cursor and the file-level
    [static int groupCounter]. *)
Record ParserState : Type := mkParserState {
  cur : Cursor;
  groupCounter : Z
}.

Definition with_cur (st : ParserState) (c : Cursor) : ParserState :=
  mkParserState c (groupCounter st).

(** What a parse function can do: return [v] leaving the state [st], let the
    exception of [std::stoi] escape, or not return within the fuel. *)
Inductive Outcome (A : Type) : Type :=
| Done (v : A) (st : ParserState)
| Throw
| NoFuel.
Arguments Done {A} v st.
Arguments Throw {A}.
Arguments NoFuel {A}.

Definition parseCount (base : ASTNode) (st : ParserState)
    : Outcome (option ASTNode) :=
  let c := cur st in
  let '(star, c1) := matchChar c "*" in
  if star then Done (Some (StarNode base)) (with_cur st c1)
  else
    if negb (cur_end c1) && Ascii.eqb (current c1) "{" then
      let c2 := advance c1 in
      let '(digits, c3) := parse_digits c2 in
      let '(closed, c4) := matchChar c3 "}" in
      if negb closed then Done None (with_cur st c4)
      else
        match digits with
        | [] => Done None (with_cur st c4)
        | _ :: _ =>
            match stoi digits with
            | Some n => Done (Some (CountNode base n)) (with_cur st c4)
            | None => Throw
            end
        end
    else Done None (with_cur st c1).

Definition parseIgnoreCase (base : ASTNode) (st : ParserState)
    : Outcome (option ASTNode) :=
  let c := cur st in
  if negb (cur_end c) && Ascii.eqb (current c) "\" then
    let savedPos := pos c in
    let c1 := advance c in
    if negb (cur_end c1)
       && (Ascii.eqb (current c1) "I" || Ascii.eqb (current c1) "i")
    then Done (Some (IgnoreCaseNode base)) (with_cur st (advance c1))
    else Done None (with_cur st (set_pos c1 savedPos))
  else Done None st.

(** The block that [parseFactor] (twice) and [parseGroup] (once) run on a
    fresh [base]:
    [expanded = parseCount(base, cur); if (expanded) base = expanded;
     expanded = parseIgnoreCase(base, cur); if (expanded) base = expanded;
     return base;] *)
Definition parse_suffixes (base : ASTNode) (st : ParserState)
    : Outcome (option ASTNode) :=
  match parseCount base st with
  | Done expanded st1 =>
      let base1 := match expanded with Some e => e | None => base end in
      match parseIgnoreCase base1 st1 with
      | Done expanded2 st2 =>
          let base2 := match expanded2 with Some e => e | None => base1 end in
          Done (Some base2) st2
      | Throw => Throw
      | NoFuel => NoFuel
      end
  | Throw => Throw
  | NoFuel => NoFuel
  end.

Fixpoint parseExpr (fuel : nat) (st : ParserState) {struct fuel}
    : Outcome (option ASTNode) :=
  match fuel with
  | O => NoFuel
  | S f =>
      match parseTerm f st with
      | Done (Some left_) st1 => parseExpr_loop f left_ st1
      | Done None st1 => Done None st1
      | r => r
      end
  end
(** The loop [while (matchChar(cur, '+'))] of [parseExpr]. *)
with parseExpr_loop (fuel : nat) (left_ : ASTNode) (st : ParserState)
    {struct fuel} : Outcome (option ASTNode) :=
  match fuel with
  | O => NoFuel
  | S f =>
      let '(plus, c1) := matchChar (cur st) "+" in
      if plus then
        match parseTerm f (with_cur st c1) with
        | Done (Some right_) st1 => parseExpr_loop f (OrNode left_ right_) st1
        | Done None st1 => Done None st1
        | r => r
        end
      else Done (Some left_) (with_cur st c1)
  end
with parseTerm (fuel : nat) (st : ParserState) {struct fuel}
    : Outcome (option ASTNode) :=
  match fuel with
  | O => NoFuel
  | S f => parseTerm_loop f [] st
  end
(** The loop [while (true)] of [parseTerm]; [children] are the children
    added to [seq] so far. *)
with parseTerm_loop (fuel : nat) (children : list ASTNode)
    (st : ParserState) {struct fuel} : Outcome (option ASTNode) :=
  match fuel with
  | O => NoFuel
  | S f =>
      match parseFactor f st with
      | Done (Some fct) st1 => parseTerm_loop f (children ++ [fct]) st1
      | Done None st1 =>
          match children with
          | [] => Done None st1
          | _ :: _ => Done (Some (SequenceNode children)) st1
          end
      | r => r
      end
  end
with parseFactor (fuel : nat) (st : ParserState) {struct fuel}
    : Outcome (option ASTNode) :=
  match fuel with
  | O => NoFuel
  | S f =>
      let '(paren, c1) := matchChar (cur st) "(" in
      if paren then parseGroup f (with_cur st c1)
      else
        if negb (cur_end c1) && Ascii.eqb (current c1) "." then
          parse_suffixes DotNode (with_cur st (advance c1))
        else
          if negb (cur_end c1) && negb (is_special (current c1)) then
            parse_suffixes (CharacterNode (current c1))
                           (with_cur st (advance c1))
          else Done None (with_cur st c1)
  end
with parseGroup (fuel : nat) (st : ParserState) {struct fuel}
    : Outcome (option ASTNode) :=
  match fuel with
  | O => NoFuel
  | S f =>
      match parseExpr f st with
      | Done e st1 =>
          let '(closed, c1) := matchChar (cur st1) ")" in
          if negb closed then Done None (with_cur st1 c1)
          else
            let groupNode := GroupNode e (groupCounter st1) in
            parse_suffixes groupNode
              (mkParserState c1 (groupCounter st1 + 1)%Z)
      | r => r
      end
  end.

(** The result of [parsePattern]: the returned pointer, the
    [outputGroupIndex] reference as the call leaves it, and the state. *)
Record Compiled : Type := mkCompiled {
  ast : option ASTNode;
  outputGroupIndex : Z
}.

(** The directive block of [parsePattern], run on the cursor that
    [parseExpr] left. *)
Definition parse_output (c : Cursor) (outputGroupIndex : Z)
    : option (Z * Cursor) :=
  if negb (cur_end c) && Ascii.eqb (current c) "\" then
    let savedPos := pos c in
    let c1 := advance c in
    if negb (cur_end c1)
       && (Ascii.eqb (current c1) "O" || Ascii.eqb (current c1) "o") then
      let c2 := advance c1 in
      if negb (cur_end c2) && Ascii.eqb (current c2) "{" then
        let c3 := advance c2 in
        let '(digits, c4) := parse_digits c3 in
        match digits with
        | [] => Some (outputGroupIndex, set_pos c4 savedPos)
        | _ :: _ =>
            let '(closed, c5) := matchChar c4 "}" in
            if closed then
              match stoi digits with
              | Some n => Some (n, c5)
              | None => None
              end
            else Some (outputGroupIndex, set_pos c5 savedPos)
        end
      else Some (outputGroupIndex, set_pos c2 savedPos)
    else Some (outputGroupIndex, set_pos c1 savedPos)
  else Some (outputGroupIndex, c).

(** [parsePattern(pattern, outputGroupIndex)], started with the static
    counter at [gc] and given [fuel] for the descent. *)
Definition parsePattern_fuel (fuel : nat) (pattern : list ascii)
    (outputGroupIndex : Z) (gc : Z) : Outcome Compiled :=
  match parseExpr fuel (mkParserState (mkCursor pattern 0) gc) with
  | Done a st1 =>
      match parse_output (cur st1) outputGroupIndex with
      | Some (out, c) => Done (mkCompiled a out) (with_cur st1 c)
      | None => Throw
      end
  | Throw => Throw
  | NoFuel => NoFuel
  end.

(** Fuel that the descent cannot use up on a pattern of this length (see
    [parsePattern_total]). *)
Definition parse_fuel (pattern : list ascii) : nat := 5 * length pattern + 5.

Definition parsePattern (pattern : list ascii) (outputGroupIndex : Z)
    (gc : Z) : Outcome Compiled :=
  parsePattern_fuel (parse_fuel pattern) pattern outputGroupIndex gc.

(** [main] declares [int outputGroup = 0] and a process starts with
    [groupCounter = 1]. *)
Definition compile_first (pattern : string) : Outcome Compiled :=
  parsePattern (list_ascii_of_string pattern) 0%Z 1%Z.

(** The pointer that a compilation returned, if it returned. *)
Definition ast_of (r : Outcome Compiled) : option ASTNode :=
  match r with
  | Done c _ => ast c
  | _ => None
  end.

(* ===================================================================== *)
(** ** main.cpp : the search driver and the output selection *)
(* ===================================================================== *)

Inductive SearchResult : Type :=
| Found (start : nat) (caps : list (option CaptureGroup))
| NotFound
| SearchNullDeref
| SearchOutOfFuel.

(** [MatchContext ctx { text, start, captures, false };
     ctx.captures.resize(1, std::nullopt);] *)
Definition attempt_ctx (txt : list ascii) (start : nat)
    (caps : list (option CaptureGroup)) : MatchContext :=
  mkMatchContext txt start (resize 1 None caps) false.

(** [captures[i].has_value()] *)
Definition has_value (caps : list (option CaptureGroup)) (i : nat) : bool :=
  match caps !! i with
  | Some (Some _) => true
  | _ => false
  end.

(** What [findMatch] does after a successful [ast->match(ctx)]. *)
Definition finish_match (savedPos : nat) (ctx : MatchContext)
    : list (option CaptureGroup) :=
  if has_value (captures ctx) 0 then captures ctx
  else <[0 := Some (mkCaptureGroup savedPos (position ctx) true)]>
         (captures ctx).

(** The loop [for (size_t start = 0; start <= text.size(); ++start)] with
    [n] start offsets left to try. *)
Fixpoint findMatch_loop (fuel : nat) (a : ASTNode) (txt : list ascii)
    (caps : list (option CaptureGroup)) (start n : nat) : SearchResult :=
  match n with
  | O => NotFound
  | S k =>
      let ctx := attempt_ctx txt start caps in
      let savedPos := position ctx in
      match match_node fuel a ctx with
      | Returned true ctx1 => Found savedPos (finish_match savedPos ctx1)
      | Returned false _ => findMatch_loop fuel a txt caps (S start) k
      | NullDeref => SearchNullDeref
      | OutOfFuel => SearchOutOfFuel
      end
  end.

Definition findMatch (fuel : nat) (a : ASTNode) (txt : list ascii)
    (caps : list (option CaptureGroup)) : SearchResult :=
  findMatch_loop fuel a txt caps 0 (S (length txt)).

(** [input.substr(start, length)] *)
Definition substr (s : list ascii) (start len : nat) : list ascii :=
  take len (drop start s).

(** The tail of [main]: the group that is printed, if any.  [outputGroup]
    is never negative: it is 0 or a value of [std::stoi] on digits. *)
Definition select_output (outputGroup : Z)
    (caps : list (option CaptureGroup)) (inp : list ascii)
    : option (list ascii) :=
  if (Z.of_nat (length caps) <=? outputGroup)%Z then None
  else
    match caps !! Z.to_nat outputGroup with
    | Some (Some cg) =>
        Some (substr inp (startIndex cg) (endIndex cg - startIndex cg))
    | _ => None
    end.

Inductive ExitStatus : Type := EXIT_SUCCESS | EXIT_FAILURE.

(** How a run of the program ends: it exits with a status and possibly a
    printed line, it is aborted (the exception of [std::stoi] is not caught,
    a null pointer is dereferenced), or the matcher does not return within
    the fuel. *)
Inductive ProcessResult : Type :=
| Exit (status : ExitStatus) (printed : option (list ascii))
| Aborted
| Unfinished.

(** [main] from the parsed command line on; [gc] is the value of the static
    counter when [parsePattern] is called (1 in a fresh process). *)
Definition main (fuel : nat) (gc : Z) (pattern inp : list ascii)
    : ProcessResult :=
  match parsePattern pattern 0%Z gc with
  | Done (mkCompiled None _) _ => Exit EXIT_FAILURE None
  | Done (mkCompiled (Some a) outputGroup) _ =>
      match findMatch fuel a inp [] with
      | NotFound => Exit EXIT_FAILURE None
      | Found _ caps => Exit EXIT_SUCCESS (select_output outputGroup caps inp)
      | SearchNullDeref => Aborted
      | SearchOutOfFuel => Unfinished
      end
  | Throw => Aborted
  | NoFuel => Unfinished
  end.

Definition run (fuel : nat) (pattern inp : string) : ProcessResult :=
  main fuel 1%Z (list_ascii_of_string pattern) (list_ascii_of_string inp).

(* ===================================================================== *)
(** ** Notions used in the statements *)
(* ===================================================================== *)

(** A capture table [caps'] keeps [caps]: it is at least as long and every
    slot that held a value still holds one. *)
Definition capture_kept (caps caps' : list (option CaptureGroup)) : Prop :=
  length caps <= length caps' /\
  forall i, has_value caps i = true -> has_value caps' i = true.

(** The frame of a call that started in [ctx], was to restore [sp] on
    failure, and returned [ok] leaving [ctx']. *)
Record FrameAt (sp : nat) (ctx ctx' : MatchContext) (ok : bool) : Prop := {
  frame_input : input ctx' = input ctx;
  frame_flag : ignoreCase ctx' = ignoreCase ctx;
  frame_pos_ok : ok = true -> position ctx <= position ctx';
  frame_pos_fail : ok = false -> position ctx' = sp;
  frame_bound :
    position ctx' <= Nat.max (position ctx) (length (input ctx));
  frame_caps : capture_kept (captures ctx) (captures ctx')
}.

Definition Frame (ctx ctx' : MatchContext) (ok : bool) : Prop :=
  FrameAt (position ctx) ctx ctx' ok.

(** [nullable node = false]: a successful match of [node] consumes at least
    one character. *)
Fixpoint nullable (node : ASTNode) : bool :=
  match node with
  | CharacterNode _ => false
  | DotNode => false
  | SequenceNode children => forallb nullable children
  | OrNode lhs rhs => nullable lhs || nullable rhs
  | GroupNode (Some e) _ => nullable e
  | GroupNode None _ => false
  | StarNode e => nullable e
  | CountNode e n => (n <=? 0)%Z || nullable e
  | IgnoreCaseNode e => nullable e
  | OutputGroupNode _ => true
  end.

(** [guarded node = true]: no group of [node] holds a null pointer and every
    [StarNode] repeats a node that consumes. *)
Fixpoint guarded (node : ASTNode) : bool :=
  match node with
  | CharacterNode _ => true
  | DotNode => true
  | SequenceNode children => forallb guarded children
  | OrNode lhs rhs => guarded lhs && guarded rhs
  | GroupNode (Some e) _ => guarded e
  | GroupNode None _ => false
  | StarNode e => guarded e && negb (nullable e)
  | CountNode e _ => guarded e
  | IgnoreCaseNode e => guarded e
  | OutputGroupNode _ => true
  end.

Fixpoint size (node : ASTNode) : nat :=
  match node with
  | CharacterNode _ => 1
  | DotNode => 1
  | SequenceNode children => S (list_sum (map size children))
  | OrNode lhs rhs => S (size lhs + size rhs)
  | GroupNode (Some e) _ => S (size e)
  | GroupNode None _ => 1
  | StarNode e => S (size e)
  | CountNode e _ => S (size e)
  | IgnoreCaseNode e => S (size e)
  | OutputGroupNode _ => 1
  end.

(** Characters left to read. *)
Definition remaining (ctx : MatchContext) : nat :=
  length (input ctx) - position ctx.

(** Fuel that a guarded node cannot use up from [ctx]. *)
Definition match_fuel (node : ASTNode) (ctx : MatchContext) : nat :=
  size node * (remaining ctx + 2).

(** [node] matched from [ctx] returns [ok] and leaves [ctx']. *)
Definition returns (node : ASTNode) (ctx : MatchContext)
    (ok : bool) (ctx' : MatchContext) : Prop :=
  exists f, match_node f node ctx = Returned ok ctx'.

(** [node] matched from [ctx] never returns, whatever the fuel. *)
Definition diverges (node : ASTNode) (ctx : MatchContext) : Prop :=
  forall f, match_node f node ctx = OutOfFuel.

Definition cur_wf (c : Cursor) : Prop := pos c <= length (text c).

(** [c'] is [c] moved forward. *)
Definition cur_le (c c' : Cursor) : Prop :=
  text c' = text c /\ pos c <= pos c' /\ cur_wf c'.

(** [st'] is [st] with the cursor moved forward and the counter not
    decreased. *)
Definition st_le (st st' : ParserState) : Prop :=
  cur_le (cur st) (cur st') /\ (groupCounter st <= groupCounter st')%Z.

Definition st_lt (st st' : ParserState) : Prop :=
  pos (cur st) < pos (cur st').

Definition chars_left (st : ParserState) : nat :=
  length (text (cur st)) - pos (cur st).

(** The indices of the capturing groups of a tree, in the order in which
    their closing parentheses stand in the pattern: the groups inside a
    group come before the group itself. *)
Fixpoint closing_indices (node : ASTNode) : list Z :=
  match node with
  | CharacterNode _ => []
  | DotNode => []
  | SequenceNode children => flat_map closing_indices children
  | OrNode lhs rhs => closing_indices lhs ++ closing_indices rhs
  | GroupNode e i =>
      match e with Some e' => closing_indices e' | None => [] end ++ [i]
  | StarNode e => closing_indices e
  | CountNode e _ => closing_indices e
  | IgnoreCaseNode e => closing_indices e
  | OutputGroupNode _ => []
  end.

(** [l] is strictly increasing, from [lo] on and below [hi]. *)
Fixpoint ascending (lo : Z) (l : list Z) (hi : Z) : Prop :=
  match l with
  | [] => (lo <= hi)%Z
  | x :: l' => (lo <= x)%Z /\ ascending (x + 1) l' hi
  end.

(** Every group has a higher index than the groups inside it. *)
Fixpoint inner_before_outer (node : ASTNode) : bool :=
  match node with
  | CharacterNode _ => true
  | DotNode => true
  | SequenceNode children => forallb inner_before_outer children
  | OrNode lhs rhs => inner_before_outer lhs && inner_before_outer rhs
  | GroupNode (Some e) i =>
      forallb (fun j => (j <? i)%Z) (closing_indices e)
      && inner_before_outer e
  | GroupNode None _ => true
  | StarNode e => inner_before_outer e
  | CountNode e _ => inner_before_outer e
  | IgnoreCaseNode e => inner_before_outer e
  | OutputGroupNode _ => true
  end.

(** What a parse function returns is numbered from the counter it found to
    the counter it leaves. *)
Definition numbered (g : Z) (v : option ASTNode) (g' : Z) : Prop :=
  match v with
  | Some node =>
      ascending g (closing_indices node) g' /\ inner_before_outer node = true
  | None => (g <= g')%Z
  end.

(** [shift d node]: [node] with [d] added to the index of every group. *)
Fixpoint shift (d : Z) (node : ASTNode) : ASTNode :=
  match node with
  | CharacterNode ch => CharacterNode ch
  | DotNode => DotNode
  | SequenceNode children => SequenceNode (map (shift d) children)
  | OrNode lhs rhs => OrNode (shift d lhs) (shift d rhs)
  | GroupNode e i =>
      GroupNode (match e with Some e' => Some (shift d e') | None => None end)
                (i + d)
  | StarNode e => StarNode (shift d e)
  | CountNode e n => CountNode (shift d e) n
  | IgnoreCaseNode e => IgnoreCaseNode (shift d e)
  | OutputGroupNode i => OutputGroupNode i
  end.

Definition shift_opt (d : Z) (v : option ASTNode) : option ASTNode :=
  match v with Some e => Some (shift d e) | None => None end.

Definition shift_state (d : Z) (st : ParserState) : ParserState :=
  mkParserState (cur st) (groupCounter st + d).

Definition shift_outcome (d : Z) (r : Outcome (option ASTNode))
    : Outcome (option ASTNode) :=
  match r with
  | Done v st => Done (shift_opt d v) (shift_state d st)
  | Throw => Throw
  | NoFuel => NoFuel
  end.

(** Two contexts that differ in their capture tables only. *)
Definition ctx_sim (c1 c2 : MatchContext) : Prop :=
  input c1 = input c2 /\ position c1 = position c2 /\
  ignoreCase c1 = ignoreCase c2.

Definition res_sim (r1 r2 : MatchResult) : Prop :=
  match r1, r2 with
  | Returned b1 c1, Returned b2 c2 => b1 = b2 /\ ctx_sim c1 c2
  | NullDeref, NullDeref => True
  | OutOfFuel, OutOfFuel => True
  | _, _ => False
  end.

(** No group of [node] has index [k]. *)
Definition untouched (k : nat) (node : ASTNode) : bool :=
  forallb (fun j => negb (j =? Z.of_nat k)%Z) (closing_indices node).

Definition shift_compiled (d : Z) (r : Outcome Compiled) : Outcome Compiled :=
  match r with
  | Done (mkCompiled a o) st => Done (mkCompiled (shift_opt d a) o)
                                     (shift_state d st)
  | Throw => Throw
  | NoFuel => NoFuel
  end.

(** What two searches have in common when they agree on everything but the
    capture slots other than slot 0. *)
Definition search_sim (r1 r2 : SearchResult) : Prop :=
  match r1, r2 with
  | Found s1 caps1, Found s2 caps2 => s1 = s2 /\ caps1 !! 0 = caps2 !! 0
  | NotFound, NotFound => True
  | SearchNullDeref, SearchNullDeref => True
  | SearchOutOfFuel, SearchOutOfFuel => True
  | _, _ => False
  end.

Definition rest (c : Cursor) : list ascii := drop (pos c) (text c).

(** The longest prefix of digits and what follows it. *)
Fixpoint span_digits (s : list ascii) : list ascii * list ascii :=
  match s with
  | [] => ([], [])
  | c :: r =>
      if isdigit c
      then let '(ds, r') := span_digits r in (c :: ds, r')
      else ([], s)
  end.

(** Following the specification's grammar,
    [OUTPUT := '\O{' DIGITS '}' | '\o{' DIGITS '}']: the digits of the
    directive that [s] starts with, if [s] starts with a directive. *)
Definition OUTPUT_directive (s : list ascii) : option (list ascii) :=
  match s with
  | c1 :: o :: c3 :: r =>
      if Ascii.eqb c1 "\" && (Ascii.eqb o "O" || Ascii.eqb o "o")
         && Ascii.eqb c3 "{"
      then
        match span_digits r with
        | (d :: ds, c :: _) =>
            if Ascii.eqb c "}" then Some (d :: ds) else None
        | _ => None
        end
      else None
  | _ => None
  end.

(** A literal character of the grammar. *)
Definition plain (c : ascii) : bool := negb (is_special c).


(** What is left cannot start a factor. *)
Definition no_factor (r : list ascii) : bool :=
  match r with
  | [] => true
  | y :: _ => is_special y && negb (Ascii.eqb y "(") && negb (Ascii.eqb y ".")
  end.

(** What [parseTerm] returns when its loop ends after the children [cs]:
    the sequence, or the null pointer when there is no child. *)
Definition sequence_of (cs : list ASTNode) : option ASTNode :=
  match cs with
  | [] => None
  | _ :: _ => Some (SequenceNode cs)
  end.

(** Following the specification's grammar,
    [QUANT := '*' | '{' DIGITS '}'], with a count that an [int] holds, or
    no quantifier at all. *)
Inductive QUANT_opt : list ascii -> Prop :=
| quant_none : QUANT_opt []
| quant_star : QUANT_opt ["*"%char]
| quant_count d ds n :
    forallb isdigit (d :: ds) = true -> stoi (d :: ds) = Some n ->
    QUANT_opt ("{"%char :: (d :: ds) ++ ["}"%char]).

(** Following the specification's grammar, [CASEMOD := '\I' | '\i'], or no
    modifier at all. *)
Inductive CASEMOD_opt : list ascii -> Prop :=
| casemod_none : CASEMOD_opt []
| casemod_I : CASEMOD_opt ["\"; "I"]%char
| casemod_i : CASEMOD_opt ["\"; "i"]%char.

(** The nonterminals of the grammar that [parseExpr] reads. *)
Inductive sort : Type := EXPR | TERM | FACTOR | ATOM.

(** Following the specification's grammar: [derives s w] when the string
    [w] is derived from the nonterminal [s],
    [EXPR := TERM ('+' TERM)*], [TERM := FACTOR+],
    [FACTOR := ATOM QUANT? CASEMOD?],
    [ATOM := '(' EXPR ')' | '.' | LITERAL_CHAR]. *)
Inductive derives : sort -> list ascii -> Prop :=
| d_alt t e :
    derives TERM t -> derives EXPR e -> derives EXPR (t ++ "+"%char :: e)
| d_expr t : derives TERM t -> derives EXPR t
| d_seq f t : derives FACTOR f -> derives TERM t -> derives TERM (f ++ t)
| d_term f : derives FACTOR f -> derives TERM f
| d_factor a q m :
    derives ATOM a -> QUANT_opt q -> CASEMOD_opt m ->
    derives FACTOR (a ++ q ++ m)
| d_group e : derives EXPR e -> derives ATOM ("("%char :: e ++ [")"%char])
| d_dot : derives ATOM ["."%char]
| d_literal c : plain c = true -> derives ATOM [c].

(** What is left does not start with a closing parenthesis. *)
Definition not_close (r : list ascii) : bool :=
  match r with
  | [] => true
  | y :: _ => negb (Ascii.eqb y ")")
  end.

(** What is left does not start with an alternation operator. *)
Definition not_plus (r : list ascii) : bool :=
  match r with
  | [] => true
  | y :: _ => negb (Ascii.eqb y "+")
  end.

(** What is left ends an EXPR for good: nothing, or a character that
    continues neither the last factor, nor the term, nor the alternation. *)
Definition expr_end (r : list ascii) : bool :=
  match r with
  | [] => true
  | y :: _ => Ascii.eqb y ")" || Ascii.eqb y "}"
  end.

(** What a reading that meets a violation gives: no TERM, no EXPR, or the
    EXPR before the violation. *)
Inductive reading : Type := NoTerm | NoExpr | AnExpr.

(** The grammar violations of the pattern language, each with what is left
    of the pattern where the reading stops.
    [stops NoTerm q r]: no TERM can be read at [q], because no factor starts
    there or because [q] opens a group that is not closed where its EXPR
    stops.
    [stops NoExpr w r]: no EXPR can be read at [w], because the first TERM
    is missing or because a well-formed EXPR is followed by an alternation
    operator with no TERM after it.
    [stops AnExpr w r]: [w] starts with a well-formed EXPR that stops at
    [r], either for good or at a group that is not closed. *)
Inductive stops : reading -> list ascii -> list ascii -> Prop :=
| stops_empty q : no_factor q = true -> stops NoTerm q q
| stops_unmatched_none w r :
    stops NoExpr w r -> not_close r = true ->
    stops NoTerm ("("%char :: w) r
| stops_unmatched_some w r :
    stops AnExpr w r -> not_close r = true ->
    stops NoTerm ("("%char :: w) r
| stops_first w r : stops NoTerm w r -> stops NoExpr w r
| stops_dangling e q r :
    derives EXPR e -> stops NoTerm q r ->
    stops NoExpr (e ++ "+"%char :: q) r
| stops_whole e r :
    derives EXPR e -> expr_end r = true -> stops AnExpr (e ++ r) r
| stops_trailing e q r :
    derives EXPR e -> stops NoTerm ("("%char :: q) r -> not_plus r = true ->
    stops AnExpr (e ++ "("%char :: q) r.

(** The attempt of [findMatch] at start offset [s]. *)
Definition attempt (fuel : nat) (a : ASTNode) (txt : list ascii)
    (caps : list (option CaptureGroup)) (s : nat) : MatchResult :=
  match_node fuel a (attempt_ctx txt s caps).

Definition fails_at (fuel : nat) (a : ASTNode) (txt : list ascii)
    (caps : list (option CaptureGroup)) (s : nat) : Prop :=
  exists c, attempt fuel a txt caps s = Returned false c.

(** The tree of (a)b+a and the tree of its right alternative alone. *)
Definition stale_example : ASTNode :=
  OrNode (SequenceNode
            [GroupNode (Some (SequenceNode [CharacterNode "a"])) 1;
             CharacterNode "b"])
         (SequenceNode [CharacterNode "a"]).

(** The tree of (a+ab)c. *)
Definition commit_example : ASTNode :=
  SequenceNode
    [GroupNode
       (Some (OrNode (SequenceNode [CharacterNode "a"])
                     (SequenceNode [CharacterNode "a"; CharacterNode "b"])))
       1;
     CharacterNode "c"].

(** [reps e ctx k ctxk]: [k] consecutive successful matches of [e] lead
    from [ctx] to [ctxk]. *)
Inductive reps (e : ASTNode) : MatchContext -> nat -> MatchContext -> Prop :=
| reps_O ctx : reps e ctx 0 ctx
| reps_S ctx ctx1 k ctxk :
    returns e ctx true ctx1 -> reps e ctx1 k ctxk -> reps e ctx (S k) ctxk.

(** The group of (a{0})* and the tree of the whole pattern. *)
Definition empty_group : ASTNode :=
  GroupNode (Some (SequenceNode [CountNode (CharacterNode "a") 0])) 1.

Definition empty_star : ASTNode := SequenceNode [StarNode empty_group].

(** [cg] is a span of a text of length [len]. *)
Definition span_ok (len : nat) (c : option CaptureGroup) : Prop :=
  match c with
  | None => True
  | Some cg => startIndex cg <= endIndex cg <= len /\ valid cg = true
  end.

(** A context whose position and capture spans lie inside its text, of
    length [len]. *)
Definition ctx_ok (len : nat) (ctx : MatchContext) : Prop :=
  length (input ctx) = len /\ position ctx <= len /\
  Forall (span_ok len) (captures ctx).

(** [st'] has numbered its groups since [st] at the price of two
    characters each, with [slack] characters lent. *)
Definition groups_paid (slack : Z) (st st' : ParserState) : Prop :=
  (2 * (groupCounter st' - groupCounter st)
   <= Z.of_nat (pos (cur st')) - Z.of_nat (pos (cur st)) + slack)%Z.

(** No run of digits in [t] is longer than nine characters. *)
Definition short_runs (t : list ascii) : bool :=
  forallb (fun p => length (fst (span_digits (drop p t))) <=? 9)
          (seq 0 (length t)).


(** The pattern has no opening parenthesis. *)
Definition no_paren (t : list ascii) : bool :=
  forallb (fun c => negb (Ascii.eqb c "(")) t.

(** A state of the descent on a pattern without groups. *)
Definition flat_state (st : ParserState) : Prop :=
  no_paren (text (cur st)) = true /\ cur_wf (cur st).


(** [r] starts with the characters [lits]. *)
Fixpoint starts_with (lits r : list ascii) : bool :=
  match lits, r with
  | [], _ => true
  | x :: lits', c :: r' => Ascii.eqb c x && starts_with lits' r'
  | _ :: _, [] => false
  end.

(** The tree of a pattern made of literal characters. *)
Definition literal_tree (lits : list ascii) : ASTNode :=
  SequenceNode (map CharacterNode lits).

(* ===================================================================== *)
(** ** The matcher: fuel, frame and progress *)
(* ===================================================================== *)

(** *** More fuel never changes a result *)

Section LoopsMono.
  Variables m m' : ASTNode -> MatchContext -> MatchResult.
  Hypothesis m_le : forall c ctx, m c ctx <> OutOfFuel -> m' c ctx = m c ctx.

Lemma seq_loop_mono sp cs ctx :
    seq_loop m sp cs ctx <> OutOfFuel ->
    seq_loop m' sp cs ctx = seq_loop m sp cs ctx.
  Proof.
    revert ctx; induction cs as [|c cs IH]; intros ctx; simpl; [done|].
    destruct (m c ctx) as [[|] ctx1| |] eqn:E; intros H;
      rewrite m_le, E by congruence; auto.
  Qed.
End LoopsMono.

Section CountMono.
  Variables m m' : MatchContext -> MatchResult.
  Hypothesis m_le : forall ctx, m ctx <> OutOfFuel -> m' ctx = m ctx.

Lemma count_loop_mono sp n ctx :
    count_loop m sp n ctx <> OutOfFuel ->
    count_loop m' sp n ctx = count_loop m sp n ctx.
  Proof.
    revert ctx; induction n as [|n IH]; intros ctx; simpl; [done|].
    destruct (m ctx) as [[|] ctx1| |] eqn:E; intros H;
      rewrite m_le, E by congruence; auto.
  Qed.
End CountMono.

Lemma match_mono_both f :
  forall f', f <= f' ->
  (forall node ctx, match_node f node ctx <> OutOfFuel ->
     match_node f' node ctx = match_node f node ctx) /\
  (forall e ctx count, star_loop f e ctx count <> OutOfFuel ->
     star_loop f' e ctx count = star_loop f e ctx count).
Proof.
  induction f as [|f IH]; intros f' Hle.
  { split; intros; simpl in *; congruence. }
  destruct f' as [|f']; [lia|].
  destruct (IH f' ltac:(lia)) as [IHm IHs]. split.
  - intros node ctx. destruct node; simpl; try done.
    + apply seq_loop_mono. auto.
    + destruct (match_node f node1 ctx) as [[|] ctx1| |] eqn:E1; intros H;
        rewrite IHm, E1 by congruence; try done.
      destruct (match_node f node2 _) as [[|] ctx2| |] eqn:E2;
        rewrite IHm, E2 by congruence; done.
    + destruct expr as [e|]; [|done].
      destruct (match_node f e ctx) as [[|] ctx1| |] eqn:E1; intros H;
        rewrite IHm, E1 by congruence; done.
    + apply IHs.
    + apply count_loop_mono. auto.
    + destruct (match_node f node _) as [ok ctx1| |] eqn:E1; intros H;
        rewrite IHm, E1 by congruence; done.
  - intros e ctx count. simpl.
    destruct (match_node f e ctx) as [[|] ctx1| |] eqn:E1; intros H;
      rewrite IHm, E1 by congruence; auto.
Qed.

Lemma match_node_mono f f' node ctx r :
  match_node f node ctx = r -> r <> OutOfFuel -> f <= f' ->
  match_node f' node ctx = r.
Proof.
  intros <- Hr Hle. apply (match_mono_both f f' Hle); done.
Qed.

Lemma star_loop_mono f f' e ctx count r :
  star_loop f e ctx count = r -> r <> OutOfFuel -> f <= f' ->
  star_loop f' e ctx count = r.
Proof.
  intros <- Hr Hle. apply (match_mono_both f f' Hle); done.
Qed.

(** *** What a returning call leaves behind *)

Lemma capture_kept_refl caps : capture_kept caps caps.
Proof. split; auto. Qed.

Lemma capture_kept_trans c1 c2 c3 :
  capture_kept c1 c2 -> capture_kept c2 c3 -> capture_kept c1 c3.
Proof. intros [L1 H1] [L2 H2]. split; [lia|auto]. Qed.

Lemma has_value_lt caps i : has_value caps i = true -> i < length caps.
Proof.
  unfold has_value. destruct (caps !! i) eqn:E; [|done].
  intros _. eapply lookup_lt_Some; eauto.
Qed.

Lemma store_capture_kept caps gi cg :
  (0 <= gi)%Z -> capture_kept caps (store_capture caps gi cg).
Proof.
  intros Hgi. unfold store_capture.
  destruct (Z.leb_spec (Z.of_nat (length caps)) gi) as [Hle|Hlt].
  - split.
    + rewrite length_insert, length_resize. lia.
    + intros j Hj. pose proof (has_value_lt _ _ Hj) as Hlen.
      unfold has_value in *.
      rewrite list_lookup_insert_ne by lia.
      rewrite lookup_resize by lia. done.
  - split.
    + rewrite length_insert. lia.
    + intros j Hj. pose proof (has_value_lt _ _ Hj) as Hlen.
      unfold has_value in *.
      destruct (decide (Z.to_nat gi = j)) as [->|Hne].
      * rewrite list_lookup_insert_eq by lia. done.
      * rewrite list_lookup_insert_ne by done. done.
Qed.

Section LoopsFrame.
  Variable m : ASTNode -> MatchContext -> MatchResult.
  Hypothesis m_frame :
    forall c ctx ok ctx', m c ctx = Returned ok ctx' -> Frame ctx ctx' ok.

Lemma seq_loop_frame sp cs ctx ok ctx' :
    sp <= position ctx ->
    seq_loop m sp cs ctx = Returned ok ctx' -> FrameAt sp ctx ctx' ok.
  Proof.
    revert ctx; induction cs as [|c cs IH]; intros ctx Hsp; simpl.
    - intros [= <- <-]. split; auto using capture_kept_refl; try done. lia.
    - destruct (m c ctx) as [[|] ctx1| |] eqn:E; try done.
      + apply m_frame in E as [Hi Hf Hok _ Hb Hc]. specialize (Hok eq_refl).
        intros H. apply IH in H as [Hi' Hf' Hok' Hfl' Hb' Hc']; [|lia].
        split; try congruence; try done.
        * intros ->. specialize (Hok' eq_refl). lia.
        * rewrite Hi in Hb'. lia.
        * eauto using capture_kept_trans.
      + apply m_frame in E as [Hi Hf _ Hfl Hb Hc].
        intros [= <- <-]. split; simpl; try done. lia.
  Qed.
End LoopsFrame.

Section CountFrame.
  Variable m : MatchContext -> MatchResult.
  Hypothesis m_frame :
    forall ctx ok ctx', m ctx = Returned ok ctx' -> Frame ctx ctx' ok.

Lemma count_loop_frame sp n ctx ok ctx' :
    sp <= position ctx ->
    count_loop m sp n ctx = Returned ok ctx' -> FrameAt sp ctx ctx' ok.
  Proof.
    revert ctx; induction n as [|n IH]; intros ctx Hsp; simpl.
    - intros [= <- <-]. split; auto using capture_kept_refl; try done. lia.
    - destruct (m ctx) as [[|] ctx1| |] eqn:E; try done.
      + apply m_frame in E as [Hi Hf Hok _ Hb Hc]. specialize (Hok eq_refl).
        intros H. apply IH in H as [Hi' Hf' Hok' Hfl' Hb' Hc']; [|lia].
        split; try congruence; try done.
        * intros ->. specialize (Hok' eq_refl). lia.
        * rewrite Hi in Hb'. lia.
        * eauto using capture_kept_trans.
      + apply m_frame in E as [Hi Hf _ Hfl Hb Hc].
        intros [= <- <-]. split; simpl; try done. lia.
  Qed.
End CountFrame.

Lemma match_frame_both f :
  (forall node ctx ok ctx',
     match_node f node ctx = Returned ok ctx' -> Frame ctx ctx' ok) /\
  (forall e ctx count ok ctx',
     (0 <= count)%Z ->
     star_loop f e ctx count = Returned ok ctx' ->
     Frame ctx ctx' ok /\ ((1 <= count)%Z -> ok = true)).
Proof.
  induction f as [|f [IHm IHs]]; [split; intros; simpl in *; congruence|].
  split.
  - intros node ctx ok ctx'. destruct node; simpl.
    + destruct (atEnd ctx) eqn:Hend.
      { intros [= <- <-]. split; auto using capture_kept_refl; try done. lia. }
      assert (position ctx < length (input ctx)) as Hlt.
      { unfold atEnd in Hend. apply Nat.leb_gt in Hend. done. }
      destruct (ignoreCase ctx), (Ascii.eqb _ _); intros [= <- <-];
        split; simpl; auto using capture_kept_refl; try done; lia.
    + destruct (atEnd ctx) eqn:Hend.
      { intros [= <- <-]. split; auto using capture_kept_refl; try done. lia. }
      assert (position ctx < length (input ctx)) as Hlt.
      { unfold atEnd in Hend. apply Nat.leb_gt in Hend. done. }
      intros [= <- <-];
        split; simpl; auto using capture_kept_refl; try done; lia.
    + intros H. eapply seq_loop_frame in H; eauto.
    + destruct (match_node f node1 ctx) as [[|] ctx1| |] eqn:E1; try done.
      { intros [= <- <-]. eauto. }
      apply IHm in E1 as [Hi Hf _ Hfl Hb Hc]. specialize (Hfl eq_refl).
      destruct (match_node f node2 _) as [ok2 ctx2| |] eqn:E2; try done.
      apply IHm in E2 as [Hi' Hf' Hok' Hfl' Hb' Hc']. simpl in *.
      intros H. assert (ok = ok2 /\ ctx' = ctx2) as [-> ->].
      { destruct ok2; inversion H; done. }
      split; try congruence; try done.
      exact (capture_kept_trans _ _ _ Hc Hc').
    + destruct expr as [e|]; [|done].
      destruct (match_node f e ctx) as [[|] ctx1| |] eqn:E1; try done.
      * apply IHm in E1 as [Hi Hf Hok _ Hb Hc].
        destruct (Z.leb_spec 0 groupIndex); intros [= <- <-];
          split; simpl; try done.
        eapply capture_kept_trans; eauto using store_capture_kept.
      * intros [= <- <-]. eauto.
    + intros H. apply IHs in H as [H _]; [done|lia].
    + intros H. eapply count_loop_frame in H; eauto.
    + destruct (match_node f node _) as [ok1 ctx1| |] eqn:E1; try done.
      apply IHm in E1 as [Hi Hf Hok Hfl Hb Hc]. simpl in *.
      intros [= <- <-]. split; simpl; done.
    + intros [= <- <-]. split; auto using capture_kept_refl; try done. lia.
  - intros e ctx count ok ctx' Hcount. simpl.
    destruct (match_node f e ctx) as [[|] ctx1| |] eqn:E1; try done.
    + apply IHm in E1 as [Hi Hf Hok _ Hb Hc]. specialize (Hok eq_refl).
      intros H. apply IHs in H as [[Hi' Hf' Hok' Hfl' Hb' Hc'] Hcnt]; [|lia].
      specialize (Hcnt ltac:(lia)). subst ok. specialize (Hok' eq_refl).
      split; [split|]; try congruence; try done.
      * intros _. lia.
      * rewrite Hi in Hb'. lia.
      * eauto using capture_kept_trans.
    + apply IHm in E1 as [Hi Hf _ Hfl Hb Hc].
      intros [= <- <-]. split; [split|]; simpl; try done;
        try (intros; lia).
Qed.

(** *** Nodes that consume, nodes that return *)

Lemma Frame_remaining ctx ctx' ok :
  Frame ctx ctx' ok -> remaining ctx' <= remaining ctx.
Proof.
  intros [Hi _ Hok Hfl _ _]. unfold remaining. rewrite Hi.
  destruct ok; [specialize (Hok eq_refl)|specialize (Hfl eq_refl)]; lia.
Qed.

Lemma Frame_progress ctx ctx' :
  Frame ctx ctx' true -> position ctx < position ctx' ->
  remaining ctx' < remaining ctx.
Proof.
  intros [Hi _ _ _ Hb _] Hlt. unfold remaining. rewrite Hi. lia.
Qed.

Lemma match_progress_both f :
  (forall node ctx ctx', nullable node = false ->
     match_node f node ctx = Returned true ctx' ->
     position ctx < position ctx') /\
  (forall e ctx count ctx', nullable e = false -> (0 <= count < 1)%Z ->
     star_loop f e ctx count = Returned true ctx' ->
     position ctx < position ctx').
Proof.
  induction f as [|f [IHm IHs]]; [split; intros; simpl in *; congruence|].
  pose proof (match_frame_both f) as [Fm Fs].
  split.
  - intros node ctx ctx'. destruct node; simpl; try done.
    + intros _. destruct (atEnd ctx); [done|].
      destruct (ignoreCase ctx), (Ascii.eqb _ _); intros [= <-]; simpl; lia.
    + intros _. destruct (atEnd ctx); [done|]. intros [= <-]; simpl; lia.
    + generalize (position ctx) at 1 as sp. intros sp.
      revert ctx. induction children as [|c cs IHcs]; intros ctx; [done|].
      simpl. intros Hn.
      destruct (match_node f c ctx) as [[|] ctx1| |] eqn:E1; try done.
      intros H. pose proof (Fm _ _ _ _ E1) as [_ _ Hok _ _ _].
      specialize (Hok eq_refl).
      pose proof (seq_loop_frame _ Fm sp cs ctx1 true ctx') as Hrest.
      destruct (nullable c) eqn:Hc; simpl in Hn.
      * specialize (IHcs ctx1 Hn H). lia.
      * specialize (IHm _ _ _ Hc E1).
        clear IHcs. revert H. generalize sp.
        clear -Fm IHm. revert ctx1 IHm.
        induction cs as [|c2 cs IH2]; intros ctx1 Hlt sp; simpl.
        { intros [= <-]. done. }
        destruct (match_node f c2 ctx1) as [[|] ctx2| |] eqn:E2; try done.
        intros H. pose proof (Fm _ _ _ _ E2) as [_ _ Hok _ _ _].
        specialize (Hok eq_refl). eapply IH2; [|exact H]. lia.
    + intros Hn. apply orb_false_iff in Hn as [Hn1 Hn2].
      destruct (match_node f node1 ctx) as [[|] ctx1| |] eqn:E1; try done.
      { intros [= <-]. eauto. }
      pose proof (Fm _ _ _ _ E1) as [_ _ _ Hfl _ _].
      destruct (match_node f node2 _) as [[|] ctx2| |] eqn:E2; try done.
      intros [= <-]. apply IHm in E2; [|done]. simpl in E2. done.
    + destruct expr as [e|]; [|done]. intros Hn.
      destruct (match_node f e ctx) as [[|] ctx1| |] eqn:E1; try done.
      apply IHm in E1; [|done].
      destruct (0 <=? groupIndex)%Z; intros [= <-]; simpl; done.
    + intros Hn H. eapply IHs; eauto. lia.
    + intros Hn. apply orb_false_iff in Hn as [Hn1 Hn2].
      apply Z.leb_gt in Hn1.
      destruct (Z.to_nat count) as [|n] eqn:En; [lia|]. simpl.
      destruct (match_node f node ctx) as [[|] ctx1| |] eqn:E1; try done.
      apply IHm in E1; [|done]. intros H.
      pose proof (count_loop_frame _ (Fm node) (position ctx) n ctx1 true ctx'
                    ltac:(lia) H) as [_ _ Hok _ _ _].
      specialize (Hok eq_refl). lia.
    + intros Hn.
      destruct (match_node f node _) as [ok1 ctx1| |] eqn:E1; try done.
      intros [= -> <-]. apply IHm in E1; [|done]. simpl in *. done.
  - intros e ctx count ctx' Hn Hcount. simpl.
    destruct (match_node f e ctx) as [[|] ctx1| |] eqn:E1; try done.
    + apply IHm in E1; [|done]. intros H.
      apply Fs in H as [[_ _ Hok _ _ _] _]; [|lia].
      specialize (Hok eq_refl). lia.
    + intros [= H _]. lia.
Qed.

Lemma size_pos node : 1 <= size node.
Proof. destruct node as [| | | |[e|] ?| | | |]; simpl; lia. Qed.

Lemma match_returns_both f :
  (forall node ctx, guarded node = true -> match_fuel node ctx <= f ->
     exists ok ctx', match_node f node ctx = Returned ok ctx') /\
  (forall e ctx count, guarded e = true -> nullable e = false ->
     (0 <= count)%Z ->
     remaining ctx + 1 + match_fuel e ctx <= f ->
     exists ok ctx', star_loop f e ctx count = Returned ok ctx').
Proof.
  unfold match_fuel.
  induction f as [|f [IHm IHs]].
  { split; intros; [pose proof (size_pos node)|]; nia. }
  pose proof (match_frame_both f) as [Fm Fs].
  pose proof (match_progress_both f) as [Pm Ps].
  split.
  - intros node ctx Hg Hf. destruct node; simpl in *.
    + destruct (atEnd ctx); [eauto|].
      destruct (ignoreCase ctx), (Ascii.eqb _ _); eauto.
    + destruct (atEnd ctx); eauto.
    + generalize (position ctx) at 1 as sp. intros sp.
      assert (list_sum (map size children) * (remaining ctx + 2) <= f)
        as Hsum by nia. clear Hf.
      revert ctx Hsum. induction children as [|c cs IHcs]; intros ctx Hsum.
      { simpl. eauto. }
      simpl in *. apply andb_true_iff in Hg as [Hgc Hgcs].
      destruct (IHm c ctx Hgc ltac:(nia)) as (ok1 & ctx1 & E1).
      rewrite E1. destruct ok1; [|eauto].
      apply Fm, Frame_remaining in E1. apply IHcs; [done|nia].
    + apply andb_true_iff in Hg as [Hg1 Hg2].
      destruct (IHm node1 ctx Hg1 ltac:(nia)) as (ok1 & ctx1 & E1).
      rewrite E1. destruct ok1; [eauto|].
      pose proof (Fm _ _ _ _ E1) as [Hi _ _ _ _ _].
      destruct (IHm node2 (set_position ctx1 (position ctx)) Hg2)
        as (ok2 & ctx2 & E2).
      { unfold remaining in *. simpl. rewrite Hi. nia. }
      rewrite E2. destruct ok2; eauto.
    + destruct expr as [e|]; [|done].
      destruct (IHm e ctx Hg ltac:(nia)) as (ok1 & ctx1 & E1).
      rewrite E1. destruct ok1; [|eauto].
      destruct (0 <=? groupIndex)%Z; eauto.
    + apply andb_true_iff in Hg as [Hg1 Hg2].
      apply negb_true_iff in Hg2.
      apply IHs; try done. nia.
    + generalize (position ctx) at 1 as sp. intros sp.
      assert (size node * (remaining ctx + 2) <= f) as Hsz by nia. clear Hf.
      revert ctx Hsz. induction (Z.to_nat count) as [|n IHn]; intros ctx Hsz.
      { simpl. eauto. }
      simpl. destruct (IHm node ctx Hg Hsz) as (ok1 & ctx1 & E1).
      rewrite E1. destruct ok1; [|eauto].
      apply Fm, Frame_remaining in E1. apply IHn. nia.
    + destruct (IHm node (set_ignoreCase ctx true) Hg) as (ok1 & ctx1 & E1).
      { unfold remaining in *. simpl. nia. }
      rewrite E1. eauto.
    + eauto.
  - intros e ctx count Hg Hn Hcount Hf. simpl.
    destruct (IHm e ctx Hg ltac:(nia)) as (ok1 & ctx1 & E1).
    rewrite E1. destruct ok1; [|eauto].
    pose proof (Fm _ _ _ _ E1) as HF.
    pose proof (Frame_progress _ _ HF (Pm _ _ _ Hn E1)) as Hlt.
    apply IHs; try done; [lia|nia].
Qed.

(** *** Results that do not depend on the fuel *)

Lemma returns_det node ctx ok1 ctx1 ok2 ctx2 :
  returns node ctx ok1 ctx1 -> returns node ctx ok2 ctx2 ->
  ok1 = ok2 /\ ctx1 = ctx2.
Proof.
  intros [f1 H1] [f2 H2].
  apply (match_node_mono f1 (f1 + f2)) in H1; [|done|lia].
  apply (match_node_mono f2 (f1 + f2)) in H2; [|done|lia].
  rewrite H1 in H2. by inversion H2.
Qed.

Lemma returns_fuel node ctx ok ctx' f :
  returns node ctx ok ctx' -> match_node f node ctx <> OutOfFuel ->
  match_node f node ctx = Returned ok ctx'.
Proof.
  intros [f1 H1] Hf.
  apply (match_node_mono f1 (f1 + f)) in H1; [|done|lia].
  rewrite <- H1. symmetry.
  apply (match_node_mono f (f1 + f)); [done|done|lia].
Qed.

Lemma guarded_returns node ctx :
  guarded node = true ->
  exists ok ctx', match_node (match_fuel node ctx) node ctx = Returned ok ctx'.
Proof.
  intros Hg. apply (match_returns_both (match_fuel node ctx)); auto.
Qed.

(* ===================================================================== *)
(** ** The parser: fuel *)
(* ===================================================================== *)

Ltac parser_fuel_zero :=
  repeat split; intros; simpl in *; congruence.

Lemma parser_mono_all f :
  forall f', f <= f' ->
  (forall st, parseExpr f st <> NoFuel -> parseExpr f' st = parseExpr f st) /\
  (forall l st, parseExpr_loop f l st <> NoFuel ->
     parseExpr_loop f' l st = parseExpr_loop f l st) /\
  (forall st, parseTerm f st <> NoFuel -> parseTerm f' st = parseTerm f st) /\
  (forall cs st, parseTerm_loop f cs st <> NoFuel ->
     parseTerm_loop f' cs st = parseTerm_loop f cs st) /\
  (forall st, parseFactor f st <> NoFuel ->
     parseFactor f' st = parseFactor f st) /\
  (forall st, parseGroup f st <> NoFuel ->
     parseGroup f' st = parseGroup f st).
Proof.
  induction f as [|f IH]; intros f' Hle; [parser_fuel_zero|].
  destruct f' as [|f']; [lia|].
  destruct (IH f' ltac:(lia)) as (IHE & IHEL & IHT & IHTL & IHF & IHG).
  repeat split.
  - intros st. simpl.
    destruct (parseTerm f st) as [[l|] st1| |] eqn:E; intros H;
      rewrite IHT, E by congruence; auto.
  - intros l st. simpl.
    destruct (matchChar (cur st) "+") as [[|] c1]; [|done].
    destruct (parseTerm f _) as [[r|] st1| |] eqn:E; intros H;
      rewrite IHT, E by congruence; auto.
  - intros st. simpl. apply IHTL.
  - intros cs st. simpl.
    destruct (parseFactor f st) as [[fc|] st1| |] eqn:E; intros H;
      rewrite IHF, E by congruence; auto.
  - intros st. simpl.
    destruct (matchChar (cur st) "(") as [[|] c1]; [apply IHG|done].
  - intros st. simpl.
    destruct (parseExpr f st) as [e st1| |] eqn:E; intros H;
      rewrite IHE, E by congruence; auto.
Qed.

Lemma parseExpr_mono f f' st r :
  parseExpr f st = r -> r <> NoFuel -> f <= f' -> parseExpr f' st = r.
Proof.
  intros <- Hr Hle. apply (parser_mono_all f f' Hle); done.
Qed.

(** *** The cursor only moves forward, inside the pattern *)

Lemma cur_le_refl c : cur_wf c -> cur_le c c.
Proof. unfold cur_le; auto. Qed.

Lemma cur_le_trans c1 c2 c3 : cur_le c1 c2 -> cur_le c2 c3 -> cur_le c1 c3.
Proof.
  unfold cur_le. intros (?&?&?) (?&?&?).
  split; [congruence|]. split; [lia|done].
Qed.

Lemma cur_le_wf c c' : cur_le c c' -> cur_wf c'.
Proof. by intros (?&?&?). Qed.

Lemma advance_le c : cur_wf c -> cur_le c (advance c).
Proof.
  unfold cur_le, cur_wf, advance, cur_end. intros H.
  destruct (Nat.leb_spec (length (text c)) (pos c)); simpl;
    repeat split; try done; lia.
Qed.

Lemma advance_not_end c :
  cur_end c = false -> advance c = mkCursor (text c) (S (pos c)).
Proof. unfold advance. by intros ->. Qed.

Lemma matchChar_le c x ok c' :
  matchChar c x = (ok, c') -> cur_wf c ->
  cur_le c c' /\ (ok = true -> pos c' = S (pos c)) /\ (ok = false -> c' = c).
Proof.
  unfold matchChar. intros H Hwf.
  destruct (cur_end c) eqn:He; simpl in H.
  - inversion H; subst. repeat split; try done; by apply cur_le_refl.
  - destruct (Ascii.eqb _ _); inversion H; subst.
    + split; [by apply advance_le|]. rewrite advance_not_end by done. done.
    + repeat split; try done; by apply cur_le_refl.
Qed.

Lemma set_pos_le c c' :
  cur_wf c -> cur_le c c' -> cur_le c (set_pos c' (pos c)).
Proof.
  unfold cur_le, cur_wf, set_pos. simpl. intros ? (?&?&?).
  split; [done|]. split; [lia|]. congruence.
Qed.

Lemma set_pos_same c c' : text c' = text c -> set_pos c' (pos c) = c.
Proof. destruct c, c'; unfold set_pos; simpl. by intros ->. Qed.

Lemma digits_loop_le n digits c digits' c' :
  digits_loop n digits c = (digits', c') -> cur_wf c -> cur_le c c'.
Proof.
  revert digits c. induction n as [|n IH]; intros digits c; simpl.
  - intros [= <- <-]. apply cur_le_refl.
  - destruct (negb (cur_end c) && isdigit (current c)).
    + intros H Hwf. apply IH in H; [|by apply advance_le].
      eapply cur_le_trans; [by apply advance_le|done].
    + intros [= <- <-]. apply cur_le_refl.
Qed.

Lemma parse_digits_le c digits c' :
  parse_digits c = (digits, c') -> cur_wf c -> cur_le c c'.
Proof. apply digits_loop_le. Qed.

Lemma st_le_refl st : cur_wf (cur st) -> st_le st st.
Proof. split; [by apply cur_le_refl|lia]. Qed.

Lemma st_le_trans s1 s2 s3 : st_le s1 s2 -> st_le s2 s3 -> st_le s1 s3.
Proof. intros [? ?] [? ?]. split; [eauto using cur_le_trans|lia]. Qed.

Lemma with_cur_le st c :
  cur_le (cur st) c ->
  st_le st (with_cur st c) /\ groupCounter (with_cur st c) = groupCounter st.
Proof. intros L. split; [split; simpl; [done|lia]|done]. Qed.

Lemma parseCount_le base st v st' :
  parseCount base st = Done v st' -> cur_wf (cur st) ->
  st_le st st' /\ groupCounter st' = groupCounter st.
Proof.
  unfold parseCount. intros H Hwf.
  destruct (matchChar (cur st) "*") as [star c1] eqn:E1.
  apply matchChar_le in E1 as (L1 & _ & _); [|done].
  destruct star.
  { inversion H; subst. by apply with_cur_le. }
  destruct (negb (cur_end c1) && Ascii.eqb (current c1) "{").
  2:{ inversion H; subst. by apply with_cur_le. }
  destruct (parse_digits (advance c1)) as [digits c3] eqn:E3.
  pose proof (advance_le c1 (cur_le_wf _ _ L1)) as L2.
  apply parse_digits_le in E3 as L3; [|by eapply cur_le_wf].
  destruct (matchChar c3 "}") as [closed c4] eqn:E4.
  apply matchChar_le in E4 as (L4 & _ & _); [|by eapply cur_le_wf].
  assert (cur_le (cur st) c4) as L by eauto using cur_le_trans.
  destruct closed; simpl in H.
  - destruct digits; [|destruct (stoi _)]; inversion H; subst;
      by apply with_cur_le.
  - inversion H; subst. by apply with_cur_le.
Qed.

Lemma parseIgnoreCase_le base st v st' :
  parseIgnoreCase base st = Done v st' -> cur_wf (cur st) ->
  st_le st st' /\ groupCounter st' = groupCounter st.
Proof.
  unfold parseIgnoreCase. intros H Hwf.
  destruct (negb (cur_end (cur st)) && Ascii.eqb (current (cur st)) "\").
  2:{ inversion H; subst. split; [by apply st_le_refl|done]. }
  pose proof (advance_le _ Hwf) as L1.
  destruct (negb (cur_end (advance (cur st))) && _).
  - pose proof (advance_le _ (cur_le_wf _ _ L1)) as L2.
    inversion H; subst. apply with_cur_le. eauto using cur_le_trans.
  - inversion H; subst. apply with_cur_le.
    rewrite set_pos_same by apply L1. by apply cur_le_refl.
Qed.

Lemma parse_suffixes_le base st v st' :
  parse_suffixes base st = Done v st' -> cur_wf (cur st) ->
  st_le st st' /\ groupCounter st' = groupCounter st /\ is_Some v.
Proof.
  unfold parse_suffixes. intros H Hwf.
  destruct (parseCount base st) as [e1 st1| |] eqn:E1; try done.
  apply parseCount_le in E1 as (L1 & G1); [|done].
  destruct (parseIgnoreCase _ st1) as [e2 st2| |] eqn:E2; try done.
  apply parseIgnoreCase_le in E2 as (L2 & G2); [|eapply cur_le_wf, L1].
  inversion H; subst. split; [eauto using st_le_trans|].
  split; [congruence|]. destruct e2; eauto.
Qed.

Lemma parser_moves_all f :
  (forall st v st', parseExpr f st = Done v st' -> cur_wf (cur st) ->
     st_le st st' /\ (is_Some v -> st_lt st st')) /\
  (forall l st v st', parseExpr_loop f l st = Done v st' ->
     cur_wf (cur st) -> st_le st st') /\
  (forall st v st', parseTerm f st = Done v st' -> cur_wf (cur st) ->
     st_le st st' /\ (is_Some v -> st_lt st st')) /\
  (forall cs st v st', parseTerm_loop f cs st = Done v st' ->
     cur_wf (cur st) ->
     st_le st st' /\ (cs = [] -> is_Some v -> st_lt st st')) /\
  (forall st v st', parseFactor f st = Done v st' -> cur_wf (cur st) ->
     st_le st st' /\ (is_Some v -> st_lt st st')) /\
  (forall st v st', parseGroup f st = Done v st' -> cur_wf (cur st) ->
     st_le st st').
Proof.
  induction f as [|f (IHE & IHEL & IHT & IHTL & IHF & IHG)];
    [parser_fuel_zero|].
  unfold st_lt in *.
  split; [|split; [|split; [|split; [|split]]]]; intros;
    [split| |split|split|split| ].
  - simpl in H.
    destruct (parseTerm f st) as [[l|] st1| |] eqn:E; try done.
    + apply IHT in E as [L1 _]; [|done].
      apply IHEL in H; [|eapply cur_le_wf, L1]. eauto using st_le_trans.
    + inversion H; subst. by apply IHT in E as [L1 _].
  - simpl in H. intros Hv.
    destruct (parseTerm f st) as [[l|] st1| |] eqn:E; try done.
    + apply IHT in E as [L1 S1]; [|done]. specialize (S1 ltac:(eauto)).
      apply IHEL in H as [(_ & ? & _) _]; [|eapply cur_le_wf, L1]. lia.
    + inversion H; subst. by destruct Hv.
  - simpl in H.
    destruct (matchChar (cur st) "+") as [plus c1] eqn:E1.
    apply matchChar_le in E1 as (L1 & _ & _); [|done].
    apply with_cur_le in L1 as [L1 _].
    destruct plus; [|by inversion H; subst].
    destruct (parseTerm f _) as [[r|] st1| |] eqn:E; try done.
    + apply IHT in E as [L2 _]; [|eapply cur_le_wf, L1].
      apply IHEL in H; [|eapply cur_le_wf, L2]. eauto using st_le_trans.
    + inversion H; subst.
      apply IHT in E as [L2 _]; [|eapply cur_le_wf, L1].
      eauto using st_le_trans.
  - simpl in H. by apply IHTL in H as [? _].
  - simpl in H. intros Hv. apply IHTL in H as [_ ?]; auto.
  - simpl in H.
    destruct (parseFactor f st) as [[fc|] st1| |] eqn:E; try done.
    + apply IHF in E as [L1 _]; [|done].
      apply IHTL in H as [L2 _]; [|eapply cur_le_wf, L1].
      eauto using st_le_trans.
    + apply IHF in E as [L1 _]; [|done].
      destruct cs; inversion H; by subst.
  - simpl in H. intros -> Hv.
    destruct (parseFactor f st) as [[fc|] st1| |] eqn:E; try done.
    + apply IHF in E as [L1 S1]; [|done]. specialize (S1 ltac:(eauto)).
      apply IHTL in H as [[(_ & ? & _) _] _]; [|eapply cur_le_wf, L1]. lia.
    + inversion H; subst. by destruct Hv.
  - simpl in H.
    destruct (matchChar (cur st) "(") as [paren c1] eqn:E1.
    apply matchChar_le in E1 as (L1 & _ & Hc1); [|done].
    pose proof (with_cur_le _ _ L1) as [L1' _].
    destruct paren.
    { apply IHG in H; [|eapply cur_le_wf, L1]. eauto using st_le_trans. }
    assert (st_le st (with_cur st (advance c1))) as L2.
    { apply with_cur_le. eapply cur_le_trans; [exact L1|].
      apply advance_le. eapply cur_le_wf, L1. }
    destruct (negb (cur_end c1) && Ascii.eqb (current c1) ".").
    { apply parse_suffixes_le in H as (L3 & _); [|eapply cur_le_wf, L2].
      eauto using st_le_trans. }
    destruct (negb (cur_end c1) && negb (is_special (current c1))).
    { apply parse_suffixes_le in H as (L3 & _); [|eapply cur_le_wf, L2].
      eauto using st_le_trans. }
    by inversion H; subst.
  - simpl in H. intros Hv.
    destruct (matchChar (cur st) "(") as [paren c1] eqn:E1.
    apply matchChar_le in E1 as (L1 & Ht & Hc1); [|done].
    destruct paren.
    { specialize (Ht eq_refl).
      apply IHG in H as [(_ & ? & _) _]; [|eapply cur_le_wf, L1].
      simpl in *. lia. }
    specialize (Hc1 eq_refl). subst c1.
    assert (forall b, negb (cur_end (cur st)) && b = true ->
            pos (advance (cur st)) = S (pos (cur st))) as Hadv.
    { intros b Hb. apply andb_true_iff in Hb as [Hb _].
      apply negb_true_iff in Hb. by rewrite advance_not_end. }
    destruct (negb (cur_end (cur st)) && Ascii.eqb _ ".") eqn:Ed.
    { apply Hadv in Ed.
      apply parse_suffixes_le in H as ([(_ & ? & _) _] & _).
      - simpl in *. lia.
      - apply advance_le. done. }
    destruct (negb (cur_end (cur st)) && negb _) eqn:Ec.
    { apply Hadv in Ec.
      apply parse_suffixes_le in H as ([(_ & ? & _) _] & _).
      - simpl in *. lia.
      - apply advance_le. done. }
    inversion H; subst. by destruct Hv.
  - simpl in H.
    destruct (parseExpr f st) as [e st1| |] eqn:E; try done.
    apply IHE in E as [L1 _]; [|done].
    destruct (matchChar (cur st1) ")") as [closed c1] eqn:E1.
    apply matchChar_le in E1 as (L2 & _ & _); [|eapply cur_le_wf, L1].
    destruct closed; simpl in H.
    + apply parse_suffixes_le in H as (L3 & _); [|eapply cur_le_wf, L2].
      eapply st_le_trans; [exact L1|]. eapply st_le_trans; [|exact L3].
      split; simpl; [done|lia].
    + inversion H; subst. eapply st_le_trans; [exact L1|].
      by apply with_cur_le.
Qed.

(** *** The descent always returns *)

Lemma st_le_left st st' : st_le st st' -> chars_left st' <= chars_left st.
Proof. intros [(Ht & ? & ?) _]. unfold chars_left. rewrite Ht. lia. Qed.

Lemma st_lt_left st st' :
  st_le st st' -> st_lt st st' -> chars_left st' < chars_left st.
Proof.
  intros [(Ht & ? & Hwf) _] Hlt. unfold chars_left, st_lt, cur_wf in *.
  rewrite Ht in *. lia.
Qed.

Lemma parseCount_fuel base st : parseCount base st <> NoFuel.
Proof.
  unfold parseCount.
  destruct (matchChar (cur st) "*") as [[|] c1]; [done|].
  destruct (_ && _); [|done].
  destruct (parse_digits _) as [digits c3].
  destruct (matchChar c3 "}") as [[|] c4]; simpl; [|done].
  destruct digits; [done|]. destruct (stoi _); done.
Qed.

Lemma parseIgnoreCase_fuel base st : parseIgnoreCase base st <> NoFuel.
Proof.
  unfold parseIgnoreCase. destruct (_ && _); [|done]. destruct (_ && _); done.
Qed.

Lemma parse_suffixes_fuel base st : parse_suffixes base st <> NoFuel.
Proof.
  unfold parse_suffixes.
  destruct (parseCount base st) as [e1 st1| |] eqn:E1; try done.
  - destruct (parseIgnoreCase _ st1) as [e2 st2| |] eqn:E2; try done.
    by apply parseIgnoreCase_fuel in E2.
  - by apply parseCount_fuel in E1.
Qed.

Lemma parser_total_all f :
  (forall st, cur_wf (cur st) -> 5 * chars_left st + 4 <= f ->
     parseExpr f st <> NoFuel) /\
  (forall l st, cur_wf (cur st) -> 5 * chars_left st + 3 <= f ->
     parseExpr_loop f l st <> NoFuel) /\
  (forall st, cur_wf (cur st) -> 5 * chars_left st + 3 <= f ->
     parseTerm f st <> NoFuel) /\
  (forall cs st, cur_wf (cur st) -> 5 * chars_left st + 2 <= f ->
     parseTerm_loop f cs st <> NoFuel) /\
  (forall st, cur_wf (cur st) -> 5 * chars_left st + 1 <= f ->
     parseFactor f st <> NoFuel) /\
  (forall st, cur_wf (cur st) -> 5 * chars_left st + 5 <= f ->
     parseGroup f st <> NoFuel).
Proof.
  induction f as [|f (IHE & IHEL & IHT & IHTL & IHF & IHG)].
  { repeat split; intros; lia. }
  pose proof (parser_moves_all f) as (ME & MEL & MT & MTL & MF & MG).
  split; [|split; [|split; [|split; [|split]]]].
  - intros st Hwf Hf. simpl.
    destruct (parseTerm f st) as [[l|] st1| |] eqn:E; try done.
    + pose proof (MT _ _ _ E Hwf) as [L1 S1]. specialize (S1 ltac:(eauto)).
      pose proof (st_lt_left _ _ L1 S1).
      apply IHEL; [eapply cur_le_wf, L1|lia].
    + apply (IHT st) in E; [done|done|lia].
  - intros l st Hwf Hf. simpl.
    destruct (matchChar (cur st) "+") as [plus c1] eqn:E1.
    apply matchChar_le in E1 as (L1 & Ht & _); [|done].
    destruct plus; [|done]. specialize (Ht eq_refl).
    assert (chars_left (with_cur st c1) < chars_left st) as Hlt.
    { apply st_lt_left; [by apply with_cur_le|unfold st_lt; simpl; lia]. }
    destruct (parseTerm f _) as [[r|] st1| |] eqn:E; try done.
    + pose proof (MT _ _ _ E (cur_le_wf _ _ L1)) as [L2 S2].
      pose proof (st_le_left _ _ L2).
      apply IHEL; [eapply cur_le_wf, L2|lia].
    + apply IHT in E; [done|eapply cur_le_wf, L1|lia].
  - intros st Hwf Hf. simpl. apply IHTL; [done|lia].
  - intros cs st Hwf Hf. simpl.
    destruct (parseFactor f st) as [[fc|] st1| |] eqn:E; try done.
    + pose proof (MF _ _ _ E Hwf) as [L1 S1]. specialize (S1 ltac:(eauto)).
      pose proof (st_lt_left _ _ L1 S1).
      apply IHTL; [eapply cur_le_wf, L1|lia].
    + by destruct cs.
    + apply (IHF st) in E; [done|done|lia].
  - intros st Hwf Hf. simpl.
    destruct (matchChar (cur st) "(") as [paren c1] eqn:E1.
    apply matchChar_le in E1 as (L1 & Ht & _); [|done].
    destruct paren.
    + specialize (Ht eq_refl).
      assert (chars_left (with_cur st c1) < chars_left st) as Hlt.
      { apply st_lt_left; [by apply with_cur_le|unfold st_lt; simpl; lia]. }
      apply IHG; [eapply cur_le_wf, L1|lia].
    + destruct (_ && _); [apply parse_suffixes_fuel|].
      destruct (_ && _); [apply parse_suffixes_fuel|done].
  - intros st Hwf Hf. simpl.
    destruct (parseExpr f st) as [e st1| |] eqn:E; try done.
    + destruct (matchChar (cur st1) ")") as [[|] c1]; simpl; [|done].
      apply parse_suffixes_fuel.
    + apply (IHE st) in E; [done|done|lia].
Qed.

(** [parsePattern] returns or throws: the fuel it gives to the descent is
    never used up. *)
Lemma parsePattern_total pattern out gc :
  parsePattern pattern out gc <> NoFuel.
Proof.
  unfold parsePattern, parsePattern_fuel.
  pose proof (parser_total_all (parse_fuel pattern)) as (HE & _).
  specialize (HE (mkParserState (mkCursor pattern 0) gc)).
  destruct (parseExpr _ _) as [a st1| |] eqn:E; try done.
  - destruct (parse_output _ _) as [[o c]|]; done.
  - exfalso. apply HE; [unfold cur_wf; simpl; lia| |done].
    unfold chars_left, parse_fuel. simpl. lia.
Qed.

(** Any fuel that returns gives the result of [parsePattern]. *)
Lemma parsePattern_fuel_eq f pattern out gc :
  parsePattern_fuel f pattern out gc <> NoFuel ->
  parsePattern_fuel f pattern out gc = parsePattern pattern out gc.
Proof.
  unfold parsePattern, parsePattern_fuel. intros Hf.
  pose proof (parser_total_all (parse_fuel pattern)) as (HE & _).
  specialize (HE (mkParserState (mkCursor pattern 0) gc)
                 ltac:(unfold cur_wf; simpl; lia)
                 ltac:(unfold chars_left, parse_fuel; simpl; lia)).
  set (st0 := mkParserState (mkCursor pattern 0) gc) in *.
  assert (parseExpr f st0 <> NoFuel) as Hf'.
  { intros E. rewrite E in Hf. done. }
  pose proof (parseExpr_mono f (f + parse_fuel pattern) st0 _ eq_refl Hf'
                ltac:(lia)) as E1.
  pose proof (parseExpr_mono (parse_fuel pattern) (f + parse_fuel pattern)
                st0 _ eq_refl HE ltac:(lia)) as E2.
  rewrite <- E1, E2. done.
Qed.

(* ===================================================================== *)
(** ** The parser: group indices *)
(* ===================================================================== *)

Lemma ascending_le lo l hi : ascending lo l hi -> (lo <= hi)%Z.
Proof.
  revert lo; induction l as [|x l IH]; simpl; intros lo; [done|].
  intros [? H]. apply IH in H. lia.
Qed.

Lemma ascending_app a l1 b l2 c :
  ascending a l1 b -> ascending b l2 c -> ascending a (l1 ++ l2) c.
Proof.
  revert a; induction l1 as [|x l1 IH]; simpl; intros a.
  - intros Hab H. destruct l2; simpl in *; [lia|]. split; [lia|tauto].
  - intros [? H1] H2. split; [done|]. by apply IH.
Qed.

Lemma ascending_hi a l b c :
  ascending a l b -> (b <= c)%Z -> ascending a l c.
Proof.
  intros H Hbc. rewrite <- (app_nil_r l). eapply ascending_app; eauto.
Qed.

Lemma ascending_below a l b :
  ascending a l b -> forallb (fun j => (j <? b)%Z) l = true.
Proof.
  revert a; induction l as [|x l IH]; simpl; intros a; [done|].
  intros [? H]. apply andb_true_iff. split; [|by eapply IH].
  apply ascending_le in H. apply Z.ltb_lt. lia.
Qed.

Lemma ascending_from a' a l b :
  (a' <= a)%Z -> ascending a l b ->
  forallb (fun j => (a' <=? j)%Z) l = true.
Proof.
  revert a; induction l as [|x l IH]; simpl; intros a Ha; [done|].
  intros [? H]. apply andb_true_iff. split; [apply Z.leb_le; lia|].
  eapply IH; [|exact H]. lia.
Qed.

Lemma parseCount_indices base st v st' :
  parseCount base st = Done v st' ->
  groupCounter st' = groupCounter st /\
  forall e, v = Some e ->
    closing_indices e = closing_indices base /\
    inner_before_outer e = inner_before_outer base.
Proof.
  unfold parseCount.
  destruct (matchChar (cur st) "*") as [[|] c1].
  { intros [= <- <-]. split; [done|]. by intros e [= <-]. }
  destruct (_ && _); [|intros [= <- <-]; split; [done|]; by intros e].
  destruct (parse_digits _) as [digits c3].
  destruct (matchChar c3 "}") as [[|] c4]; simpl.
  - destruct digits; [intros [= <- <-]; split; [done|]; by intros e|].
    destruct (stoi _); [|done].
    intros [= <- <-]. split; [done|]. by intros e [= <-].
  - intros [= <- <-]; split; [done|]; by intros e.
Qed.

Lemma parseIgnoreCase_indices base st v st' :
  parseIgnoreCase base st = Done v st' ->
  groupCounter st' = groupCounter st /\
  forall e, v = Some e ->
    closing_indices e = closing_indices base /\
    inner_before_outer e = inner_before_outer base.
Proof.
  unfold parseIgnoreCase.
  destruct (_ && _); [|intros [= <- <-]; split; [done|]; by intros e].
  destruct (_ && _); intros [= <- <-]; split; try done.
  by intros e [= <-].
Qed.

Lemma parse_suffixes_indices base st v st' :
  parse_suffixes base st = Done v st' ->
  groupCounter st' = groupCounter st /\
  exists e, v = Some e /\
    closing_indices e = closing_indices base /\
    inner_before_outer e = inner_before_outer base.
Proof.
  unfold parse_suffixes.
  destruct (parseCount base st) as [e1 st1| |] eqn:E1; try done.
  apply parseCount_indices in E1 as [G1 H1].
  destruct (parseIgnoreCase _ st1) as [e2 st2| |] eqn:E2; try done.
  apply parseIgnoreCase_indices in E2 as [G2 H2].
  intros [= <- <-]. split; [congruence|]. eexists; split; [done|].
  assert (closing_indices (match e1 with Some e => e | None => base end)
          = closing_indices base /\
          inner_before_outer (match e1 with Some e => e | None => base end)
          = inner_before_outer base) as [Hc Hi].
  { destruct e1; [by apply H1|done]. }
  destruct e2 as [e|]; [|done].
  destruct (H2 e eq_refl) as [-> ->]. done.
Qed.

Lemma numbered_suffixes base st v st' g0 :
  parse_suffixes base st = Done v st' ->
  numbered g0 (Some base) (groupCounter st) ->
  numbered g0 v (groupCounter st').
Proof.
  intros H Hb. apply parse_suffixes_indices in H as (-> & e & -> & Hc & Hi).
  simpl in *. by rewrite Hc, Hi.
Qed.

Lemma parser_numbered_all f :
  (forall st v st', parseExpr f st = Done v st' ->
     numbered (groupCounter st) v (groupCounter st')) /\
  (forall l st v st' g0, parseExpr_loop f l st = Done v st' ->
     numbered g0 (Some l) (groupCounter st) ->
     numbered g0 v (groupCounter st')) /\
  (forall st v st', parseTerm f st = Done v st' ->
     numbered (groupCounter st) v (groupCounter st')) /\
  (forall cs st v st' g0, parseTerm_loop f cs st = Done v st' ->
     numbered g0 (Some (SequenceNode cs)) (groupCounter st) ->
     numbered g0 v (groupCounter st')) /\
  (forall st v st', parseFactor f st = Done v st' ->
     numbered (groupCounter st) v (groupCounter st')) /\
  (forall st v st', parseGroup f st = Done v st' ->
     numbered (groupCounter st) v (groupCounter st')).
Proof.
  induction f as [|f (IHE & IHEL & IHT & IHTL & IHF & IHG)];
    [parser_fuel_zero|].
  split; [|split; [|split; [|split; [|split]]]].
  - intros st v st' H. simpl in H.
    destruct (parseTerm f st) as [[l|] st1| |] eqn:E; try done.
    + apply IHT in E. eapply IHEL; eauto.
    + inversion H; subst. by apply IHT in E.
  - intros l st v st' g0 H [Hl Hli]. simpl in H.
    destruct (matchChar (cur st) "+") as [[|] c1].
    2:{ inversion H; subst. by split. }
    destruct (parseTerm f _) as [[r|] st1| |] eqn:E; try done.
    + apply IHT in E as [Hr Hri]. simpl in Hr.
      eapply IHEL; [exact H|]. split; simpl.
      * eapply ascending_app; eauto.
      * by rewrite Hli, Hri.
    + inversion H; subst. apply IHT in E. simpl in *.
      apply ascending_le in Hl. lia.
  - intros st v st' H. simpl in H. eapply IHTL; [exact H|].
    split; simpl; [lia|done].
  - intros cs st v st' g0 H [Hcs Hcsi]. simpl in H, Hcs, Hcsi.
    destruct (parseFactor f st) as [[fc|] st1| |] eqn:E; try done.
    + apply IHF in E as [Hfc Hfci].
      eapply IHTL; [exact H|]. split; simpl.
      * rewrite flat_map_app. simpl. rewrite app_nil_r.
        eapply ascending_app; eauto.
      * rewrite forallb_app. simpl. by rewrite Hcsi, Hfci.
    + apply IHF in E. simpl in E.
      destruct cs as [|c cs]; inversion H; subst; simpl.
      * apply ascending_le in Hcs. lia.
      * split; [|done]. eapply ascending_hi; eauto.
  - intros st v st' H. simpl in H.
    destruct (matchChar (cur st) "(") as [[|] c1].
    { by apply IHG in H. }
    destruct (_ && _).
    { eapply numbered_suffixes; [exact H|]. split; simpl; [lia|done]. }
    destruct (_ && _).
    { eapply numbered_suffixes; [exact H|]. split; simpl; [lia|done]. }
    inversion H; subst. simpl. lia.
  - intros st v st' H. simpl in H.
    destruct (parseExpr f st) as [e st1| |] eqn:E; try done.
    apply IHE in E.
    destruct (matchChar (cur st1) ")") as [[|] c1]; simpl in H.
    2:{ inversion H; subst. destruct e as [e|]; simpl in *; [|done].
        destruct E as [E _]. by apply ascending_le in E. }
    eapply numbered_suffixes; [exact H|]. simpl.
    destruct e as [e|]; simpl in *.
    + destruct E as [Ha Hi]. split.
      * eapply ascending_app; [exact Ha|]. simpl. lia.
      * rewrite Hi. rewrite (ascending_below _ _ _ Ha). done.
    + split; [lia|done].
Qed.

(** *** Compiling from another value of the counter *)

Lemma parseCount_shift d base st :
  parseCount (shift d base) (shift_state d st)
  = shift_outcome d (parseCount base st).
Proof.
  unfold parseCount. simpl.
  destruct (matchChar (cur st) "*") as [[|] c1]; [done|].
  destruct (_ && _); [|done].
  destruct (parse_digits _) as [digits c3].
  destruct (matchChar c3 "}") as [[|] c4]; simpl; [|done].
  destruct digits; [done|]. destruct (stoi _); done.
Qed.

Lemma parseIgnoreCase_shift d base st :
  parseIgnoreCase (shift d base) (shift_state d st)
  = shift_outcome d (parseIgnoreCase base st).
Proof.
  unfold parseIgnoreCase. simpl.
  destruct (_ && _); [|done]. destruct (_ && _); done.
Qed.

Lemma parse_suffixes_shift d base st :
  parse_suffixes (shift d base) (shift_state d st)
  = shift_outcome d (parse_suffixes base st).
Proof.
  unfold parse_suffixes. rewrite parseCount_shift.
  destruct (parseCount base st) as [e1 st1| |]; simpl; try done.
  replace (match shift_opt d e1 with Some e => e | None => shift d base end)
    with (shift d (match e1 with Some e => e | None => base end))
    by (by destruct e1).
  rewrite parseIgnoreCase_shift.
  destruct (parseIgnoreCase _ st1) as [e2 st2| |]; simpl; try done.
  by destruct e2.
Qed.

Lemma parser_shift_all d f :
  (forall st, parseExpr f (shift_state d st)
              = shift_outcome d (parseExpr f st)) /\
  (forall l st, parseExpr_loop f (shift d l) (shift_state d st)
                = shift_outcome d (parseExpr_loop f l st)) /\
  (forall st, parseTerm f (shift_state d st)
              = shift_outcome d (parseTerm f st)) /\
  (forall cs st, parseTerm_loop f (map (shift d) cs) (shift_state d st)
                 = shift_outcome d (parseTerm_loop f cs st)) /\
  (forall st, parseFactor f (shift_state d st)
              = shift_outcome d (parseFactor f st)) /\
  (forall st, parseGroup f (shift_state d st)
              = shift_outcome d (parseGroup f st)).
Proof.
  induction f as [|f (IHE & IHEL & IHT & IHTL & IHF & IHG)];
    [by repeat split|].
  split; [|split; [|split; [|split; [|split]]]].
  - intros st. simpl. rewrite IHT.
    destruct (parseTerm f st) as [[l|] st1| |]; simpl; try done;
      apply IHEL.
  - intros l st. simpl.
    destruct (matchChar (cur st) "+") as [[|] c1]; [|done].
    change (with_cur (shift_state d st) c1)
      with (shift_state d (with_cur st c1)).
    rewrite IHT.
    destruct (parseTerm f _) as [[r|] st1| |]; simpl; try done;
      apply (IHEL (OrNode l r)).
  - intros st. simpl. apply (IHTL []).
  - intros cs st. simpl. rewrite IHF.
    destruct (parseFactor f st) as [[fc|] st1| |]; simpl; try done.
    + rewrite <- IHTL. by rewrite map_app.
    + by destruct cs.
  - intros st. simpl.
    destruct (matchChar (cur st) "(") as [[|] c1].
    { apply (IHG (with_cur st c1)). }
    destruct (_ && _).
    { apply (parse_suffixes_shift d DotNode (with_cur st (advance c1))). }
    destruct (_ && _); [|done].
    apply (parse_suffixes_shift d (CharacterNode _)
             (with_cur st (advance c1))).
  - intros st. simpl. rewrite IHE.
    destruct (parseExpr f st) as [e st1| |]; simpl; try done.
    destruct (matchChar (cur st1) ")") as [[|] c1]; simpl; [|done].
    rewrite <- (parse_suffixes_shift d (GroupNode e (groupCounter st1))).
    unfold shift_state. simpl.
    replace (groupCounter st1 + d + 1)%Z with (groupCounter st1 + 1 + d)%Z
      by lia.
    by destruct e.
Qed.

(* ===================================================================== *)
(** ** The matcher and the group indices *)
(* ===================================================================== *)

Lemma ctx_sim_set_position c1 c2 p :
  ctx_sim c1 c2 -> ctx_sim (set_position c1 p) (set_position c2 p).
Proof. by intros (? & ? & ?). Qed.

Section LoopsShift.
  Variable d : Z.
  Variables m1 m2 : ASTNode -> MatchContext -> MatchResult.
  Hypothesis m_sim : forall c c1 c2,
    ctx_sim c1 c2 -> res_sim (m1 c c1) (m2 (shift d c) c2).

Lemma seq_loop_shift sp cs c1 c2 :
    ctx_sim c1 c2 ->
    res_sim (seq_loop m1 sp cs c1) (seq_loop m2 sp (map (shift d) cs) c2).
  Proof.
    revert c1 c2. induction cs as [|c cs IH]; intros c1 c2 Hs; simpl.
    { done. }
    pose proof (m_sim c c1 c2 Hs) as H.
    destruct (m1 c c1) as [[|] x1| |], (m2 (shift d c) c2) as [[|] x2| |];
      simpl in H; try done; destruct H as [? H]; try done.
    - by apply IH.
    - split; [done|]. by apply ctx_sim_set_position.
  Qed.

Lemma count_loop_shift sp n c c1 c2 :
    ctx_sim c1 c2 ->
    res_sim (count_loop (m1 c) sp n c1) (count_loop (m2 (shift d c)) sp n c2).
  Proof.
    revert c1 c2. induction n as [|n IH]; intros c1 c2 Hs; simpl.
    { done. }
    pose proof (m_sim c c1 c2 Hs) as H.
    destruct (m1 c c1) as [[|] x1| |], (m2 (shift d c) c2) as [[|] x2| |];
      simpl in H; try done; destruct H as [? H]; try done.
    - by apply IH.
    - split; [done|]. by apply ctx_sim_set_position.
  Qed.
End LoopsShift.

Lemma match_shift_both d f :
  (forall node c1 c2, ctx_sim c1 c2 ->
     res_sim (match_node f node c1) (match_node f (shift d node) c2)) /\
  (forall e c1 c2 count, ctx_sim c1 c2 ->
     res_sim (star_loop f e c1 count) (star_loop f (shift d e) c2 count)).
Proof.
  induction f as [|f [IHm IHs]]; [by split|].
  split.
  - intros node c1 c2 Hs. destruct node; simpl.
    + destruct c1, c2, Hs as (? & ? & ?); simpl in *; subst.
      unfold atEnd, currentChar, atEnd; simpl.
      destruct (_ <=? _); [done|].
      destruct ignoreCase1, (Ascii.eqb _ _); done.
    + destruct c1, c2, Hs as (? & ? & ?); simpl in *; subst.
      unfold atEnd; simpl. destruct (_ <=? _); done.
    + destruct (Hs) as (_ & <- & _). by apply seq_loop_shift.
    + destruct (Hs) as (_ & Hp & _).
      pose proof (IHm node1 c1 c2 Hs) as H.
      destruct (match_node f node1 c1) as [[|] x1| |],
               (match_node f (shift d node1) c2) as [[|] x2| |];
        simpl in H; try done; destruct H as [? H]; try done.
      rewrite <- Hp.
      pose proof (IHm node2 _ _ (ctx_sim_set_position _ _ (position c1) H))
        as H2.
      destruct (match_node f node2 _) as [[|] y1| |],
               (match_node f (shift d node2) _) as [[|] y2| |];
        simpl in H2; try done.
    + destruct expr as [e|]; [|done].
      destruct (Hs) as (_ & Hp & _).
      pose proof (IHm e c1 c2 Hs) as H.
      destruct (match_node f e c1) as [[|] x1| |],
               (match_node f (shift d e) c2) as [[|] x2| |];
        simpl in H; try done; destruct H as [? H]; try done.
      destruct (0 <=? groupIndex)%Z, (0 <=? groupIndex + d)%Z; done.
    + by apply IHs.
    + destruct (Hs) as (_ & <- & _). by apply count_loop_shift.
    + destruct (Hs) as (Hi & Hp & Hf).
      pose proof (IHm node (set_ignoreCase c1 true) (set_ignoreCase c2 true))
        as HH.
      specialize (HH ltac:(done)).
      destruct (match_node f node _) as [b1 x1| |],
               (match_node f (shift d node) _) as [b2 x2| |];
        simpl in HH; try done.
      destruct HH as (-> & ? & ? & ?). rewrite Hf. done.
    + done.
  - intros e c1 c2 count Hs. simpl.
    destruct (Hs) as (_ & Hp & _).
    pose proof (IHm e c1 c2 Hs) as H.
    destruct (match_node f e c1) as [[|] x1| |],
             (match_node f (shift d e) c2) as [[|] x2| |];
      simpl in H; try done; destruct H as [? H]; try done.
    + by apply IHs.
    + rewrite Hp. split; [done|]. by apply ctx_sim_set_position.
Qed.

Lemma store_capture_other caps gi cg k :
  Z.to_nat gi <> k -> k < length caps ->
  store_capture caps gi cg !! k = caps !! k.
Proof.
  intros Hne Hk. unfold store_capture.
  rewrite list_lookup_insert_ne by done.
  destruct (Z.leb_spec (Z.of_nat (length caps)) gi); [|done].
  apply lookup_resize; lia.
Qed.

Lemma match_untouched_both k f :
  (forall node ctx ok ctx', untouched k node = true ->
     k < length (captures ctx) ->
     match_node f node ctx = Returned ok ctx' ->
     captures ctx' !! k = captures ctx !! k) /\
  (forall e ctx count ok ctx', untouched k e = true ->
     k < length (captures ctx) ->
     star_loop f e ctx count = Returned ok ctx' ->
     captures ctx' !! k = captures ctx !! k).
Proof.
  unfold untouched.
  induction f as [|f [IHm IHs]]; [split; intros; simpl in *; congruence|].
  pose proof (match_frame_both f) as [Fm Fs].
  assert (forall node ctx ok ctx', match_node f node ctx = Returned ok ctx' ->
          length (captures ctx) <= length (captures ctx')) as Lm.
  { intros ???? H. by apply Fm in H as [_ _ _ _ _ [? _]]. }
  split.
  - intros node ctx ok ctx'. destruct node; simpl.
    + intros _ _. destruct (atEnd ctx); [by intros [= <- <-]|].
      destruct (ignoreCase ctx), (Ascii.eqb _ _); by intros [= <- <-].
    + intros _ _. destruct (atEnd ctx); by intros [= <- <-].
    + generalize (position ctx) as sp. intros sp. revert ctx.
      induction children as [|c cs IHcs]; intros ctx; simpl.
      { by intros _ _ [= <- <-]. }
      rewrite forallb_app. intros [Hc Hcs]%andb_true_iff Hk.
      destruct (match_node f c ctx) as [[|] ctx1| |] eqn:E1; try done.
      * intros H. apply IHcs in H; [|done|].
        -- rewrite H. eapply IHm; eauto.
        -- apply Lm in E1. lia.
      * intros [= <- <-]. simpl. eapply IHm; eauto.
    + rewrite forallb_app. intros [H1 H2]%andb_true_iff Hk.
      destruct (match_node f node1 ctx) as [[|] ctx1| |] eqn:E1; try done.
      { intros [= <- <-]. exact (IHm _ _ _ _ H1 Hk E1). }
      pose proof (Lm _ _ _ _ E1) as L1.
      destruct (match_node f node2 _) as [ok2 ctx2| |] eqn:E2; try done.
      intros H. assert (ctx' = ctx2) as -> by (destruct ok2; by inversion H).
      apply IHm in E2; [|done|simpl; lia]. rewrite E2. simpl.
      exact (IHm _ _ _ _ H1 Hk E1).
    + destruct expr as [e|]; [|done].
      rewrite forallb_app. intros [H1 H2]%andb_true_iff Hk.
      simpl in H2. rewrite andb_true_r in H2.
      apply negb_true_iff, Z.eqb_neq in H2.
      destruct (match_node f e ctx) as [[|] ctx1| |] eqn:E1; try done.
      * pose proof (Lm _ _ _ _ E1) as L1.
        destruct (Z.leb_spec 0 groupIndex); intros [= <- <-]; simpl.
        -- rewrite store_capture_other by lia. eapply IHm; eauto.
        -- eapply IHm; eauto.
      * intros [= <- <-]. eapply IHm; eauto.
    + intros Hu Hk H. eapply IHs; eauto.
    + generalize (position ctx) as sp. intros sp Hu. revert ctx.
      induction (Z.to_nat count) as [|n IHn]; intros ctx Hk; simpl.
      { by intros [= <- <-]. }
      destruct (match_node f node ctx) as [[|] ctx1| |] eqn:E1; try done.
      * intros H. apply IHn in H.
        -- rewrite H. eapply IHm; eauto.
        -- apply Lm in E1. lia.
      * intros [= <- <-]. simpl. eapply IHm; eauto.
    + intros Hu Hk.
      destruct (match_node f node _) as [ok1 ctx1| |] eqn:E1; try done.
      intros [= <- <-]. simpl. apply IHm in E1; done.
    + by intros _ _ [= <- <-].
  - intros e ctx count ok ctx' Hu Hk. simpl.
    destruct (match_node f e ctx) as [[|] ctx1| |] eqn:E1; try done.
    + intros H. apply IHs in H; [|done|].
      * rewrite H. eapply IHm; eauto.
      * apply Lm in E1. lia.
    + intros [= <- <-]. simpl. eapply IHm; eauto.
Qed.

(* ===================================================================== *)
(** ** Group numbering *)
(* ===================================================================== *)

Lemma parsePattern_numbered pattern out gc a o st :
  parsePattern pattern out gc = Done (mkCompiled a o) st ->
  numbered gc a (groupCounter st).
Proof.
  unfold parsePattern, parsePattern_fuel.
  destruct (parseExpr _ _) as [a1 st1| |] eqn:E; try done.
  apply (parser_numbered_all (parse_fuel pattern)) in E. simpl in E.
  destruct (parse_output _ _) as [[o1 c1]|]; [|done].
  by intros [= <- <- <-].
Qed.

(** C1. In a first compilation (counter at 1) the indices of the groups of
    the tree, read in the order of their closing parentheses, are strictly
    increasing from 1 on and below the value the counter is left at, so
    every group has a higher index than each group nested in it; and the
    pattern ((a)b) compiles to a tree whose inner group, around a, has
    index 1 and whose outer group has index 2: on the text ab, output
    group 1 is a and output group 2 is ab. *)
Theorem group_indices_closing_order :
  (forall (pattern : list ascii) (a : ASTNode) (o : Z) (st : ParserState),
     parsePattern pattern 0 1 = Done (mkCompiled (Some a) o) st ->
     ascending 1 (closing_indices a) (groupCounter st) /\
     inner_before_outer a = true) /\
  ast_of (compile_first "((a)b)") =
    Some (SequenceNode
            [GroupNode
               (Some (SequenceNode
                        [GroupNode (Some (SequenceNode [CharacterNode "a"])) 1;
                         CharacterNode "b"]))
               2]) /\
  run 10 "((a)b)\O{1}" "ab" = Exit EXIT_SUCCESS (Some ["a"%char]) /\
  run 10 "((a)b)\O{2}" "ab" = Exit EXIT_SUCCESS (Some ["a"; "b"]%char).
Proof.
  split; [|repeat split].
  intros pattern a o st H. by apply parsePattern_numbered in H.
Qed.

Lemma group_indices_closing_order_witness :
  ascending 1 [1; 2]%Z 3 /\
  inner_before_outer
    (SequenceNode
       [GroupNode
          (Some (SequenceNode
                   [GroupNode (Some (SequenceNode [CharacterNode "a"])) 1;
                    CharacterNode "b"]))
          2]) = true.
Proof.
  exact (proj1 group_indices_closing_order
           (list_ascii_of_string "((a)b)") _ _ _ eq_refl).
Defined.

(* ===================================================================== *)
(** ** Compiling the same pattern again *)
(* ===================================================================== *)

Lemma parsePattern_shift d pattern out gc :
  parsePattern pattern out (gc + d)
  = shift_compiled d (parsePattern pattern out gc).
Proof.
  unfold parsePattern, parsePattern_fuel.
  change (mkParserState (mkCursor pattern 0) (gc + d))
    with (shift_state d (mkParserState (mkCursor pattern 0) gc)).
  rewrite (proj1 (parser_shift_all d _)).
  destruct (parseExpr (parse_fuel pattern) _) as [a st1| |]; simpl; try done.
  destruct (parse_output (cur st1) out) as [[o c]|]; done.
Qed.

Lemma ascending_untouched0 g l g' :
  (1 <= g)%Z -> ascending g l g' ->
  forallb (fun j => negb (j =? Z.of_nat 0)%Z) l = true.
Proof.
  revert g; induction l as [|x l IH]; simpl; intros g Hg; [done|].
  intros [? H]. apply andb_true_iff. split.
  - apply negb_true_iff, Z.eqb_neq. lia.
  - eapply IH; [|exact H]. lia.
Qed.

Lemma attempt_ctx_length txt s caps :
  length (captures (attempt_ctx txt s caps)) = 1.
Proof. unfold attempt_ctx. apply length_resize. Qed.

Lemma attempt_ctx_slot0 txt s caps :
  has_value (captures (attempt_ctx txt s caps)) 0 = has_value caps 0.
Proof. by destruct caps. Qed.

Lemma finish_match_slot0 s fuel a txt caps ctx' :
  untouched 0 a = true ->
  match_node fuel a (attempt_ctx txt s caps) = Returned true ctx' ->
  has_value caps 0 = false ->
  finish_match s ctx' !! 0
  = Some (Some (mkCaptureGroup s (position ctx') true)).
Proof.
  intros Hu H Hcaps.
  pose proof (attempt_ctx_length txt s caps) as HL0.
  assert (0 < length (captures (attempt_ctx txt s caps))) as Hpos by lia.
  pose proof (proj1 (match_untouched_both 0 fuel) _ _ _ _ Hu Hpos H) as H0.
  pose proof (proj1 (match_frame_both fuel) _ _ _ _ H) as [_ _ _ _ _ [HL _]].
  unfold finish_match.
  assert (has_value (captures ctx') 0 = false) as ->.
  { rewrite <- Hcaps, <- (attempt_ctx_slot0 txt s caps).
    unfold has_value. by rewrite H0. }
  apply list_lookup_insert_eq. lia.
Qed.

Lemma findMatch_shift d fuel a txt :
  untouched 0 a = true -> untouched 0 (shift d a) = true ->
  search_sim (findMatch fuel a txt []) (findMatch fuel (shift d a) txt []).
Proof.
  intros Hu1 Hu2. unfold findMatch.
  generalize (S (length txt)) as n. generalize 0 as start.
  intros start n. revert start. induction n as [|n IH]; intros start; simpl.
  { done. }
  pose proof (proj1 (match_shift_both d fuel) a
                (attempt_ctx txt start []) (attempt_ctx txt start [])
                ltac:(done)) as Hsim.
  destruct (match_node fuel a _) as [[|] c1| |] eqn:E1,
           (match_node fuel (shift d a) _) as [[|] c2| |] eqn:E2;
    simpl in Hsim; try done; try (by destruct Hsim).
  destruct Hsim as (_ & _ & Hp & _). split; [done|].
  rewrite (finish_match_slot0 _ _ _ _ _ _ Hu1 E1 eq_refl).
  rewrite (finish_match_slot0 _ _ _ _ _ _ Hu2 E2 eq_refl).
  by rewrite Hp.
Qed.

(** C2, as the code has it.  Two successive compilations of one pattern
    (the counter at [gc >= 1] before the first) return the same tree up to
    the group indices, which the second compilation takes higher by the
    number of groups the first one closed, and the same output group index;
    on every text the two trees make the search end the same way, at the
    same start offset and with the same span in capture slot 0. *)
Theorem recompile_same_match :
  forall (pattern txt : list ascii) (fuel : nat) (gc out : Z)
         (a1 a2 : ASTNode) (o1 o2 : Z) (st1 st2 : ParserState),
    (1 <= gc)%Z ->
    parsePattern pattern out gc = Done (mkCompiled (Some a1) o1) st1 ->
    parsePattern pattern out (groupCounter st1)
      = Done (mkCompiled (Some a2) o2) st2 ->
    a2 = shift (groupCounter st1 - gc) a1 /\ o2 = o1 /\
    search_sim (findMatch fuel a1 txt []) (findMatch fuel a2 txt []).
Proof.
  intros pattern txt fuel gc out a1 a2 o1 o2 st1 st2 Hgc H1 H2.
  pose proof (parsePattern_numbered _ _ _ _ _ _ H1) as [N1 _].
  pose proof (parsePattern_numbered _ _ _ _ _ _ H2) as [N2 _].
  pose proof (ascending_le _ _ _ N1) as Hle.
  replace (groupCounter st1) with (gc + (groupCounter st1 - gc))%Z in H2
    at 1 by lia.
  rewrite parsePattern_shift, H1 in H2. simpl in H2.
  injection H2 as <- <- <-.
  split; [done|]. split; [done|].
  apply findMatch_shift.
  - eapply ascending_untouched0; eauto.
  - eapply ascending_untouched0; [|exact N2]. lia.
Qed.

Lemma recompile_same_match_witness :
  search_sim
    (findMatch 10
       (SequenceNode [GroupNode (Some (SequenceNode [CharacterNode "a"])) 1])
       (list_ascii_of_string "xa") [])
    (findMatch 10
       (SequenceNode [GroupNode (Some (SequenceNode [CharacterNode "a"])) 2])
       (list_ascii_of_string "xa") []).
Proof.
  refine (proj2 (proj2 (recompile_same_match
           (list_ascii_of_string "(a)") (list_ascii_of_string "xa") 10
           1 0 _ _ 0 0
           (mkParserState (mkCursor (list_ascii_of_string "(a)") 3) 2)
           (mkParserState (mkCursor (list_ascii_of_string "(a)") 3) 3)
           _ _ _))).
  - lia.
  - vm_compute. reflexivity.
  - vm_compute. reflexivity.
Defined.

(** C2 as stated fails: the first compilation of (a)\O{1} in a process
    numbers the group 1, the second one numbers it 2; on the text a the
    capture tables differ and only the first tree has the requested group. *)
Lemma recompile_differs :
  exists a1 a2 o st1 st2 caps1 caps2,
    parsePattern (list_ascii_of_string "(a)\O{1}") 0 1
      = Done (mkCompiled (Some a1) o) st1 /\
    parsePattern (list_ascii_of_string "(a)\O{1}") 0 (groupCounter st1)
      = Done (mkCompiled (Some a2) o) st2 /\
    findMatch 10 a1 (list_ascii_of_string "a") [] = Found 0 caps1 /\
    findMatch 10 a2 (list_ascii_of_string "a") [] = Found 0 caps2 /\
    caps1 <> caps2 /\
    select_output o caps1 (list_ascii_of_string "a")
      = Some (list_ascii_of_string "a") /\
    select_output o caps2 (list_ascii_of_string "a") = None.
Proof.
  exists (SequenceNode [GroupNode (Some (SequenceNode [CharacterNode "a"])) 1]),
         (SequenceNode [GroupNode (Some (SequenceNode [CharacterNode "a"])) 2]),
         1%Z,
         (mkParserState (mkCursor (list_ascii_of_string "(a)\O{1}") 8) 2),
         (mkParserState (mkCursor (list_ascii_of_string "(a)\O{1}") 8) 3),
         [Some (mkCaptureGroup 0 1 true); Some (mkCaptureGroup 0 1 true)],
         [Some (mkCaptureGroup 0 1 true); None;
          Some (mkCaptureGroup 0 1 true)].
  split; [vm_compute; reflexivity|].
  split; [vm_compute; reflexivity|].
  split; [vm_compute; reflexivity|].
  split; [vm_compute; reflexivity|].
  split; [discriminate|].
  split; vm_compute; reflexivity.
Qed.

(* ===================================================================== *)
(** ** The cursor as a view of what is left of the pattern *)
(* ===================================================================== *)

Lemma rest_nil c : rest c = [] -> cur_end c = true.
Proof.
  unfold rest, cur_end. intros H. apply Nat.leb_le.
  apply (f_equal length) in H. rewrite length_drop in H. simpl in H. lia.
Qed.

Lemma rest_cons c x r :
  rest c = x :: r ->
  cur_end c = false /\ current c = x /\
  advance c = mkCursor (text c) (S (pos c)) /\ rest (advance c) = r.
Proof.
  unfold rest. intros H.
  assert (text c !! pos c = Some x) as Hx.
  { rewrite <- (Nat.add_0_r (pos c)), <- lookup_drop, H. done. }
  assert (cur_end c = false) as He.
  { unfold cur_end. apply Nat.leb_gt. eapply lookup_lt_Some; eauto. }
  split; [done|]. split.
  { unfold current. by rewrite He, Hx. }
  rewrite advance_not_end by done. split; [done|]. simpl.
  rewrite (drop_S _ _ _ Hx) in H. by inversion H.
Qed.

Lemma matchChar_nil c y : rest c = [] -> matchChar c y = (false, c).
Proof. intros H%rest_nil. unfold matchChar. by rewrite H. Qed.

Lemma matchChar_cons c x r y :
  rest c = x :: r ->
  matchChar c y = if Ascii.eqb x y then (true, advance c) else (false, c).
Proof.
  intros (He & Hx & _)%rest_cons. unfold matchChar. by rewrite He, Hx.
Qed.

Lemma with_cur_same st : with_cur st (cur st) = st.
Proof. by destruct st. Qed.

Lemma span_digits_app s :
  s = fst (span_digits s) ++ snd (span_digits s).
Proof.
  induction s as [|c r IH]; simpl; [done|].
  destruct (isdigit c); [|done].
  destruct (span_digits r) as [ds r']. simpl in *. by rewrite IH at 1.
Qed.

Lemma digits_loop_span n digits c :
  length (rest c) <= n ->
  digits_loop n digits c
  = (digits ++ fst (span_digits (rest c)),
     mkCursor (text c) (pos c + length (fst (span_digits (rest c))))) /\
  rest (mkCursor (text c) (pos c + length (fst (span_digits (rest c)))))
  = snd (span_digits (rest c)).
Proof.
  revert digits c. induction n as [|n IH]; intros digits c Hn.
  - destruct (rest c) as [|x r] eqn:Hr; [|simpl in Hn; lia].
    simpl. rewrite app_nil_r, Nat.add_0_r. split; [by destruct c|].
    by destruct c.
  - simpl. destruct (rest c) as [|x r] eqn:Hr.
    + rewrite (rest_nil _ Hr). simpl.
      rewrite app_nil_r, Nat.add_0_r. split; [by destruct c|by destruct c].
    + destruct (rest_cons _ _ _ Hr) as (He & Hx & Ha & Hr').
      rewrite He, Hx. simpl. destruct (isdigit x) eqn:Hd.
      * destruct (IH (digits ++ [x]) (advance c)) as [E1 E2].
        { rewrite Hr'. simpl in Hn. lia. }
        rewrite E1, Hr'. rewrite Hr' in E2.
        destruct (span_digits r) as [ds r'] eqn:Hs. simpl in *.
        rewrite Ha in *. simpl in *.
        replace (pos c + S (length ds)) with (S (pos c + length ds)) by lia.
        rewrite <- app_assoc. simpl.
        replace (S (pos c) + length ds) with (S (pos c + length ds)) in *
          by lia.
        done.
      * simpl. rewrite app_nil_r, Nat.add_0_r.
        split; [by destruct c|]. by destruct c.
Qed.

Lemma parse_digits_span c :
  parse_digits c
  = (fst (span_digits (rest c)),
     mkCursor (text c) (pos c + length (fst (span_digits (rest c))))) /\
  rest (mkCursor (text c) (pos c + length (fst (span_digits (rest c)))))
  = snd (span_digits (rest c)).
Proof.
  unfold parse_digits.
  apply (digits_loop_span _ []). unfold rest. rewrite length_drop. lia.
Qed.

(* ===================================================================== *)
(** ** The output directive *)
(* ===================================================================== *)

(** What [parsePattern] does after [parseExpr], against the grammar: a
    directive sets the index (or [std::stoi] throws) and is consumed;
    anything else leaves the index and the cursor as they were. *)
Lemma parse_output_refines c out :
  parse_output c out =
  match OUTPUT_directive (rest c) with
  | Some ds =>
      match stoi ds with
      | Some n => Some (n, mkCursor (text c) (pos c + 4 + length ds))
      | None => None
      end
  | None => Some (out, c)
  end.
Proof.
  unfold parse_output.
  destruct (rest c) as [|c1 r1] eqn:R0.
  { by rewrite (rest_nil _ R0). }
  destruct (rest_cons _ _ _ R0) as (He0 & Hx0 & Ha0 & R1).
  rewrite He0, Hx0. simpl negb. rewrite andb_true_l.
  assert (text (advance c) = text c) as Ht1 by (by rewrite Ha0).
  destruct (Ascii.eqb c1 "\") eqn:E1.
  2:{ destruct r1 as [|o [|c3 r]]; simpl; rewrite ?E1; done. }
  destruct r1 as [|o r2].
  { rewrite (rest_nil _ R1). simpl. by rewrite set_pos_same. }
  destruct (rest_cons _ _ _ R1) as (He1 & Hx1 & Ha1 & R2).
  rewrite He1, Hx1. simpl negb. rewrite andb_true_l.
  assert (text (advance (advance c)) = text c) as Ht2
    by (by rewrite Ha1, Ht1).
  destruct (Ascii.eqb o "O" || Ascii.eqb o "o") eqn:E2.
  2:{ rewrite set_pos_same by done.
      destruct r2 as [|c3 r]; simpl; rewrite ?E1, ?E2; done. }
  destruct r2 as [|c3 r3].
  { rewrite (rest_nil _ R2). simpl. by rewrite set_pos_same. }
  destruct (rest_cons _ _ _ R2) as (He2 & Hx2 & Ha2 & R3).
  rewrite He2, Hx2. simpl negb. rewrite andb_true_l.
  simpl OUTPUT_directive. rewrite E1, E2. simpl andb.
  destruct (Ascii.eqb c3 "{") eqn:E3.
  2:{ by rewrite set_pos_same. }
  set (c3' := advance (advance (advance c))) in *.
  assert (text c3' = text c) as Ht3 by (by rewrite Ha2).
  assert (pos c3' = pos c + 3) as Hp3.
  { rewrite Ha2, Ha1, Ha0. simpl. lia. }
  destruct (parse_digits_span c3') as [Ed Rd].
  rewrite Ed, R3. rewrite R3 in Rd.
  destruct (span_digits r3) as [ds r4] eqn:Hs. simpl fst in *. simpl snd in *.
  destruct ds as [|d ds].
  { by rewrite set_pos_same. }
  destruct r4 as [|c4 r5].
  { rewrite (matchChar_nil _ _ Rd). by rewrite set_pos_same. }
  rewrite (matchChar_cons _ _ _ _ Rd).
  destruct (Ascii.eqb c4 "}") eqn:E4.
  2:{ by rewrite set_pos_same. }
  destruct (stoi (d :: ds)); [|done].
  destruct (rest_cons _ _ _ Rd) as (_ & _ & Ha4 & _).
  rewrite Ha4. simpl. rewrite Ht3, Hp3. do 3 f_equal. lia.
Qed.

Lemma parseExpr_any_fuel f pattern gc v st1 :
  parseExpr f (mkParserState (mkCursor pattern 0) gc) = Done v st1 ->
  parseExpr (parse_fuel pattern) (mkParserState (mkCursor pattern 0) gc)
  = Done v st1.
Proof.
  intros H. set (st0 := mkParserState (mkCursor pattern 0) gc) in *.
  pose proof (proj1 (parser_total_all (parse_fuel pattern)) st0
                ltac:(unfold cur_wf; simpl; lia)
                ltac:(unfold chars_left, parse_fuel; simpl; lia)) as HE.
  pose proof (parseExpr_mono f (f + parse_fuel pattern) st0 _ H
                ltac:(done) ltac:(lia)) as E1.
  pose proof (parseExpr_mono (parse_fuel pattern) (f + parse_fuel pattern)
                st0 _ eq_refl HE ltac:(lia)) as E2.
  congruence.
Qed.

(** C9. When the EXPR part of a pattern parses to a tree, leaving the
    cursor at [cur st1], the compilation returns that tree, and the output
    group index is the one [parsePattern] was given (0 in [main]) unless
    what follows the EXPR starts with a directive \O{digits} or \o{digits}
    with at least one digit: only then is the index overwritten, with the
    value of the digits, and the directive consumed (or [std::stoi] throws
    on a value above INT_MAX).  Anything else, such as \O{} or \O{3, leaves
    the cursor where the EXPR ended and the index as it was. *)
Theorem output_group_default :
  forall (pattern : list ascii) (out gc : Z) (f : nat)
         (a : ASTNode) (st1 : ParserState),
    parseExpr f (mkParserState (mkCursor pattern 0) gc) = Done (Some a) st1 ->
    match OUTPUT_directive (rest (cur st1)) with
    | None =>
        parsePattern pattern out gc = Done (mkCompiled (Some a) out) st1
    | Some ds =>
        match stoi ds with
        | Some n =>
            parsePattern pattern out gc
            = Done (mkCompiled (Some a) n)
                   (with_cur st1 (mkCursor (text (cur st1))
                                    (pos (cur st1) + 4 + length ds)))
        | None => parsePattern pattern out gc = Throw
        end
    end.
Proof.
  intros pattern out gc f a st1 H. apply parseExpr_any_fuel in H.
  unfold parsePattern, parsePattern_fuel. rewrite H.
  rewrite parse_output_refines.
  destruct (OUTPUT_directive _) as [ds|]; [destruct (stoi ds)|]; try done.
  by rewrite with_cur_same.
Qed.

Lemma output_group_default_witness :
  parsePattern (list_ascii_of_string "a\O{}") 0 1
  = Done (mkCompiled (Some (SequenceNode [CharacterNode "a"])) 0)
         (mkParserState (mkCursor (list_ascii_of_string "a\O{}") 1) 1).
Proof.
  exact (output_group_default (list_ascii_of_string "a\O{}") 0 1 10 _ _
           eq_refl).
Defined.

Example output_directive_examples :
  OUTPUT_directive (list_ascii_of_string "\O{12}x")
    = Some (list_ascii_of_string "12") /\
  OUTPUT_directive (list_ascii_of_string "\o{7}")
    = Some (list_ascii_of_string "7") /\
  OUTPUT_directive (list_ascii_of_string "\O{}") = None /\
  OUTPUT_directive (list_ascii_of_string "\O{3") = None /\
  OUTPUT_directive (list_ascii_of_string "\I") = None.
Proof. repeat split. Qed.

Example output_group_examples :
  compile_first "a\O{3"
    = Done (mkCompiled (Some (SequenceNode [CharacterNode "a"])) 0)
           (mkParserState (mkCursor (list_ascii_of_string "a\O{3") 1) 1) /\
  compile_first "(a)(b)\O{1}"
    = Done (mkCompiled
              (Some (SequenceNode
                       [GroupNode (Some (SequenceNode [CharacterNode "a"])) 1;
                        GroupNode (Some (SequenceNode [CharacterNode "b"])) 2]))
              1)
           (mkParserState
              (mkCursor (list_ascii_of_string "(a)(b)\O{1}") 11) 3) /\
  compile_first "a\O{99999999999}" = Throw.
Proof. repeat split. Qed.

(* ===================================================================== *)
(** ** Patterns that do not compile *)
(* ===================================================================== *)

Lemma ascii_eqb_true_eq (x y : ascii) : Ascii.eqb x y = true -> x = y.
Proof. apply Ascii.eqb_eq. Qed.


Lemma parseFactor_none f st :
  no_factor (rest (cur st)) = true -> parseFactor (S f) st = Done None st.
Proof.
  intros H. simpl. destruct (rest (cur st)) as [|y r] eqn:R.
  - rewrite (matchChar_nil _ _ R), (rest_nil _ R). simpl.
    by rewrite with_cur_same.
  - simpl in H.
    apply andb_true_iff in H as [[H1 H2]%andb_true_iff H3].
    apply negb_true_iff in H2, H3.
    rewrite (matchChar_cons _ _ _ _ R), H2.
    destruct (rest_cons _ _ _ R) as (He & Hc & _).
    rewrite He, Hc, H3, H1. simpl. by rewrite with_cur_same.
Qed.

(** One step of each function of the descent. *)
Lemma parseExpr_S f st :
  parseExpr (S f) st =
  match parseTerm f st with
  | Done (Some left_) st1 => parseExpr_loop f left_ st1
  | Done None st1 => Done None st1
  | r => r
  end.
Proof. reflexivity. Qed.

Lemma parseExpr_loop_S f left_ st :
  parseExpr_loop (S f) left_ st =
  let '(plus, c1) := matchChar (cur st) "+" in
  if plus then
    match parseTerm f (with_cur st c1) with
    | Done (Some right_) st1 => parseExpr_loop f (OrNode left_ right_) st1
    | Done None st1 => Done None st1
    | r => r
    end
  else Done (Some left_) (with_cur st c1).
Proof. reflexivity. Qed.

Lemma parseTerm_S f st : parseTerm (S f) st = parseTerm_loop f [] st.
Proof. reflexivity. Qed.

Lemma parseTerm_loop_S f children st :
  parseTerm_loop (S f) children st =
  match parseFactor f st with
  | Done (Some fct) st1 => parseTerm_loop f (children ++ [fct]) st1
  | Done None st1 =>
      match children with
      | [] => Done None st1
      | _ :: _ => Done (Some (SequenceNode children)) st1
      end
  | r => r
  end.
Proof. reflexivity. Qed.



(** *** Results of the descent, whatever the fuel *)







Lemma not_plus_matchChar c :
  not_plus (rest c) = true -> matchChar c "+" = (false, c).
Proof.
  destruct (rest c) as [|y r] eqn:R; intros H.
  - by apply matchChar_nil.
  - rewrite (matchChar_cons _ _ _ _ R). simpl in H.
    apply negb_true_iff in H. by rewrite H.
Qed.


(** The alternation loop ends where no operator follows. *)
Lemma parseExpr_loop_end f l st :
  not_plus (rest (cur st)) = true ->
  parseExpr_loop (S f) l st = Done (Some l) st.
Proof.
  intros H. rewrite parseExpr_loop_S, (not_plus_matchChar _ H).
  by rewrite with_cur_same.
Qed.




(** *** Quantifiers and case modifiers of the grammar are read *)






(** *** Every string of the grammar is read to its end *)




Lemma parseFactor_plain f st x r :
  rest (cur st) = x :: r -> plain x = true ->
  parseFactor (S f) st
  = parse_suffixes (CharacterNode x) (with_cur st (advance (cur st))).
Proof.
  intros R Hx. simpl.
  assert (Ascii.eqb x "(" = false /\ Ascii.eqb x "." = false) as [H1 H2].
  { unfold plain, is_special in Hx. simpl in Hx.
    apply negb_true_iff in Hx.
    repeat (apply orb_false_iff in Hx as [? Hx]). done. }
  rewrite (matchChar_cons _ _ _ _ R), H1.
  destruct (rest_cons _ _ _ R) as (He & Hc & _).
  rewrite He, Hc, H2. simpl. unfold plain in Hx. by rewrite Hx.
Qed.


(** *** Where the descent stops on a violation *)










Local Ltac atom_only a :=
  apply (d_factor a [] []); [|apply quant_none|apply casemod_none].
Local Ltac literal c :=
  atom_only [c]; apply d_literal; reflexivity.
Local Ltac term_of_literal c := apply d_term; literal c.
Local Ltac expr_of_literal c := apply d_expr; term_of_literal c.

(** Unmatched parentheses, dangling operators and empty terms, after
    alternations, wildcards, groups and quantifiers. *)
Example violations_stop :
  stops NoExpr (list_ascii_of_string "(a+b") [] /\
  stops NoExpr (list_ascii_of_string "(.") [] /\
  stops NoExpr (list_ascii_of_string "a.+") [] /\
  stops NoExpr (list_ascii_of_string "(a)+") [] /\
  stops NoExpr (list_ascii_of_string "a++b") (list_ascii_of_string "+b") /\
  stops NoExpr (list_ascii_of_string "((a)") [] /\
  stops NoExpr (list_ascii_of_string "(a(b") [] /\
  stops NoExpr (list_ascii_of_string "a{2}\I+(b*") [].
Proof.
  repeat split; simpl.
  - apply stops_first, stops_unmatched_some; [|reflexivity].
    apply (stops_whole (list_ascii_of_string "a+b") []); [|reflexivity].
    apply (d_alt ["a"%char] ["b"%char]);
      [term_of_literal "a"%char|expr_of_literal "b"%char].
  - apply stops_first, stops_unmatched_some; [|reflexivity].
    apply (stops_whole ["."%char] []); [|reflexivity].
    apply d_expr, d_term. atom_only ["."%char]. apply d_dot.
  - apply (stops_dangling (list_ascii_of_string "a.") [] []);
      [|by apply stops_empty].
    apply d_expr, (d_seq ["a"%char] ["."%char]); [literal "a"%char|].
    apply d_term. atom_only ["."%char]. apply d_dot.
  - apply (stops_dangling (list_ascii_of_string "(a)") [] []);
      [|by apply stops_empty].
    apply d_expr, d_term. atom_only (list_ascii_of_string "(a)").
    apply (d_group ["a"%char]). expr_of_literal "a"%char.
  - apply (stops_dangling ["a"%char] (list_ascii_of_string "+b")
             (list_ascii_of_string "+b")); [|by apply stops_empty].
    expr_of_literal "a"%char.
  - apply stops_first, stops_unmatched_some; [|reflexivity].
    apply (stops_whole (list_ascii_of_string "(a)") []); [|reflexivity].
    apply d_expr, d_term. atom_only (list_ascii_of_string "(a)").
    apply (d_group ["a"%char]). expr_of_literal "a"%char.
  - apply stops_first, stops_unmatched_some; [|reflexivity].
    apply (stops_trailing ["a"%char] ["b"%char] []); [| |reflexivity].
    + expr_of_literal "a"%char.
    + apply stops_unmatched_some; [|reflexivity].
      apply (stops_whole ["b"%char] []); [|reflexivity].
      expr_of_literal "b"%char.
  - apply (stops_dangling (list_ascii_of_string "a{2}\I")
             (list_ascii_of_string "(b*") []).
    + apply d_expr, d_term.
      apply (d_factor ["a"%char] (list_ascii_of_string "{2}")
               (list_ascii_of_string "\I")).
      * apply d_literal. reflexivity.
      * by apply (quant_count "2"%char [] 2%Z).
      * apply casemod_I.
    + apply stops_unmatched_some; [|reflexivity].
      apply (stops_whole (list_ascii_of_string "b*") []); [|reflexivity].
      apply d_expr, d_term.
      apply (d_factor ["b"%char] ["*"%char] []);
        [by apply d_literal|apply quant_star|apply casemod_none].
Qed.

(** Parse errors that do not fail the compilation.  [parseCount] returns
    the null pointer for "no quantifier" and also, without restoring the
    cursor, at its exit commented "parse error or no closing" brace and
    when there are no digits; [parseFactor] and [parseGroup] keep the base
    in every case: a{} and a{ compile to the tree of a.  [parseTerm] returns the factors read so far when a later factor
    fails: b(a compiles to the tree of b.  [parseGroup], unlike [parseExpr],
    does not test the pointer of its inner expression: () and (a+) compile
    to a group around a null expression, and the search through such a tree
    ends in a null dereference. *)
Example swallowed_parse_errors :
  compile_first "a{}"
    = Done (mkCompiled (Some (SequenceNode [CharacterNode "a"])) 0)
           (mkParserState (mkCursor (list_ascii_of_string "a{}") 3) 1) /\
  compile_first "a{"
    = Done (mkCompiled (Some (SequenceNode [CharacterNode "a"])) 0)
           (mkParserState (mkCursor (list_ascii_of_string "a{") 2) 1) /\
  compile_first "b(a"
    = Done (mkCompiled (Some (SequenceNode [CharacterNode "b"])) 0)
           (mkParserState (mkCursor (list_ascii_of_string "b(a") 3) 1) /\
  ast_of (compile_first "()") = Some (SequenceNode [GroupNode None 1]) /\
  ast_of (compile_first "(a+)") = Some (SequenceNode [GroupNode None 1]) /\
  run 50 "()" "a" = Aborted /\
  run 50 "(a+)" "a" = Aborted.
Proof. repeat split. Qed.

(* ===================================================================== *)
(** ** The contract of [match] *)
(* ===================================================================== *)

(** C4, as the code has it.  For every node and every context: (1) a call
    of [match] that returns leaves the text and the ignore-case flag as it
    found them, and either returns success with the position not before
    its value at entry, or returns failure with the position exactly at
    its value at entry; (2) a successful match of a node that is not
    nullable has moved the position forward; (3) the call has one result,
    whatever the fuel; (4) the call does return when no group of the node
    holds a null pointer and every StarNode repeats a node that is not
    nullable. *)
Theorem match_position_contract :
  forall (node : ASTNode) (ctx : MatchContext),
    (forall f ok ctx',
       match_node f node ctx = Returned ok ctx' ->
       input ctx' = input ctx /\ ignoreCase ctx' = ignoreCase ctx /\
       (ok = true -> position ctx <= position ctx') /\
       (ok = false -> position ctx' = position ctx)) /\
    (nullable node = false ->
     forall f ctx', match_node f node ctx = Returned true ctx' ->
                    position ctx < position ctx') /\
    (forall ok1 ctx1 ok2 ctx2,
       returns node ctx ok1 ctx1 -> returns node ctx ok2 ctx2 ->
       ok1 = ok2 /\ ctx1 = ctx2) /\
    (guarded node = true -> exists ok ctx', returns node ctx ok ctx').
Proof.
  intros node ctx. split; [|split; [|split]].
  - intros f ok ctx' H.
    apply (proj1 (match_frame_both f)) in H as [Hi Hf Hok Hfl _ _]. done.
  - intros Hn f ctx' H. eapply (proj1 (match_progress_both f)); eauto.
  - apply returns_det.
  - intros Hg. destruct (guarded_returns node ctx Hg) as (ok & ctx' & H).
    exists ok, ctx', (match_fuel node ctx). done.
Qed.

Lemma match_position_contract_witness :
  position (attempt_ctx (list_ascii_of_string "ab") 0 [])
  < position (set_position (attempt_ctx (list_ascii_of_string "ab") 0 []) 1).
Proof.
  exact (proj1 (proj2 (match_position_contract (CharacterNode "a")
                         (attempt_ctx (list_ascii_of_string "ab") 0 [])))
           eq_refl 1 _ eq_refl).
Defined.

(** C4 as stated fails: the tree of a{0} returns success on the text a
    without moving the position (and the tree of () returns neither
    success nor failure: its group holds a null pointer). *)
Lemma zero_count_succeeds_in_place :
  (ast_of (compile_first "a{0}")
     = Some (SequenceNode [CountNode (CharacterNode "a") 0]) /\
   match_node 3 (SequenceNode [CountNode (CharacterNode "a") 0])
              (attempt_ctx (list_ascii_of_string "a") 0 [])
     = Returned true (attempt_ctx (list_ascii_of_string "a") 0 [])) /\
  (ast_of (compile_first "()") = Some (SequenceNode [GroupNode None 1]) /\
   forall f ctx,
     match_node (S (S f)) (SequenceNode [GroupNode None 1]) ctx = NullDeref).
Proof. repeat split. Qed.

(* ===================================================================== *)
(** ** The search driver *)
(* ===================================================================== *)

Lemma findMatch_loop_found fuel a txt caps n : forall start s c,
  start <= s < start + n ->
  (forall s', start <= s' < s -> fails_at fuel a txt caps s') ->
  attempt fuel a txt caps s = Returned true c ->
  findMatch_loop fuel a txt caps start n = Found s (finish_match s c).
Proof.
  induction n as [|n IH]; intros start s c Hs Hbefore Hok; [lia|].
  simpl. destruct (decide (s = start)) as [->|Hne].
  - unfold attempt in Hok. by rewrite Hok.
  - destruct (Hbefore start ltac:(lia)) as [c0 Hc0].
    unfold attempt in Hc0. rewrite Hc0.
    apply IH; [lia| |done]. intros s' Hs'. apply Hbefore. lia.
Qed.

Lemma findMatch_loop_notfound fuel a txt caps n : forall start,
  (forall s', start <= s' < start + n -> fails_at fuel a txt caps s') ->
  findMatch_loop fuel a txt caps start n = NotFound.
Proof.
  induction n as [|n IH]; intros start Hall; [done|].
  simpl. destruct (Hall start ltac:(lia)) as [c0 Hc0].
  unfold attempt in Hc0. rewrite Hc0.
  apply IH. intros s' Hs'. apply Hall. lia.
Qed.

Lemma findMatch_loop_inv fuel a txt caps n : forall start,
  match findMatch_loop fuel a txt caps start n with
  | Found s caps' =>
      start <= s < start + n /\
      (forall s', start <= s' < s -> fails_at fuel a txt caps s') /\
      exists c, attempt fuel a txt caps s = Returned true c /\
                caps' = finish_match s c
  | NotFound =>
      forall s', start <= s' < start + n -> fails_at fuel a txt caps s'
  | SearchNullDeref =>
      exists s, start <= s < start + n /\
                (forall s', start <= s' < s -> fails_at fuel a txt caps s') /\
                attempt fuel a txt caps s = NullDeref
  | SearchOutOfFuel =>
      exists s, start <= s < start + n /\
                (forall s', start <= s' < s -> fails_at fuel a txt caps s') /\
                attempt fuel a txt caps s = OutOfFuel
  end.
Proof.
  induction n as [|n IH]; intros start; simpl; [intros; lia|].
  destruct (match_node fuel a (attempt_ctx txt start caps))
    as [[|] c| |] eqn:E.
  - split; [lia|]. split; [intros; lia|]. by exists c.
  - assert (forall s', start <= s' < S start -> fails_at fuel a txt caps s')
      as H0.
    { intros s' Hs'. assert (s' = start) as -> by lia. by exists c. }
    specialize (IH (S start)).
    destruct (findMatch_loop fuel a txt caps (S start) n) as [s caps'| | |].
    + destruct IH as (Hs & Hb & Hc). split; [lia|]. split; [|done].
      intros s' Hs'. destruct (decide (s' = start)) as [->|];
        [apply H0; lia|apply Hb; lia].
    + intros s' Hs'. destruct (decide (s' = start)) as [->|];
        [apply H0; lia|apply IH; lia].
    + destruct IH as (s & Hs & Hb & Hc). exists s.
      split; [lia|]. split; [|done].
      intros s' Hs'. destruct (decide (s' = start)) as [->|];
        [apply H0; lia|apply Hb; lia].
    + destruct IH as (s & Hs & Hb & Hc). exists s.
      split; [lia|]. split; [|done].
      intros s' Hs'. destruct (decide (s' = start)) as [->|];
        [apply H0; lia|apply Hb; lia].
  - exists start. split; [lia|]. split; [intros; lia|done].
  - exists start. split; [lia|]. split; [intros; lia|done].
Qed.

Lemma finish_match_absent s c :
  has_value (captures c) 0 = false -> 0 < length (captures c) ->
  finish_match s c !! 0 = Some (Some (mkCaptureGroup s (position c) true)) /\
  forall k, k <> 0 -> finish_match s c !! k = captures c !! k.
Proof.
  intros H Hl. unfold finish_match. rewrite H. split.
  - by apply list_lookup_insert_eq.
  - intros k Hk. apply list_lookup_insert_ne. lia.
Qed.

Lemma finish_match_present s c :
  has_value (captures c) 0 = true -> finish_match s c = captures c.
Proof. intros H. unfold finish_match. by rewrite H. Qed.

(** C5. The search tries the start offsets 0, 1, ..., length of the text in
    ascending order, each from a context built anew from the caller's table
    (position at the offset, ignore-case off, slot 0 present): it reports
    the offset [s] exactly when the root fails at every smaller offset and
    succeeds at [s], and it reports no match exactly when the root fails at
    every offset up to the length of the text; on success slot 0 is set to
    [s, final position) when it holds no value, all other slots are the
    ones of the successful attempt, and a slot 0 that holds a value is
    kept. *)
Theorem findMatch_leftmost :
  forall (fuel : nat) (a : ASTNode) (txt : list ascii)
         (caps : list (option CaptureGroup)),
    (forall s caps',
       findMatch fuel a txt caps = Found s caps' <->
       s <= length txt /\
       (forall s', s' < s -> fails_at fuel a txt caps s') /\
       exists c, attempt fuel a txt caps s = Returned true c /\
                 caps' = finish_match s c) /\
    (findMatch fuel a txt caps = NotFound <->
     forall s, s <= length txt -> fails_at fuel a txt caps s) /\
    (forall s c,
       attempt fuel a txt caps s = Returned true c ->
       (has_value (captures c) 0 = false ->
        finish_match s c !! 0
          = Some (Some (mkCaptureGroup s (position c) true)) /\
        forall k, k <> 0 -> finish_match s c !! k = captures c !! k) /\
       (has_value (captures c) 0 = true ->
        finish_match s c = captures c)).
Proof.
  intros fuel a txt caps. unfold findMatch.
  pose proof (findMatch_loop_inv fuel a txt caps (S (length txt)) 0) as Inv.
  split; [|split].
  - intros s caps'. split.
    + intros H. rewrite H in Inv. destruct Inv as (Hs & Hb & c & Hc & ->).
      split; [lia|]. split; [|by exists c].
      intros s' Hs'. apply Hb. lia.
    + intros (Hs & Hb & c & Hc & ->).
      apply findMatch_loop_found; [lia| |done].
      intros s' Hs'. apply Hb. lia.
  - split.
    + intros H. rewrite H in Inv. intros s Hs. apply Inv. lia.
    + intros H. apply findMatch_loop_notfound. intros s Hs. apply H. lia.
  - intros s c Hc. split.
    + intros H0. apply finish_match_absent; [done|].
      apply (proj1 (match_frame_both fuel)) in Hc as [_ _ _ _ _ [HL _]].
      rewrite attempt_ctx_length in HL. lia.
    + apply finish_match_present.
Qed.

Lemma findMatch_leftmost_witness :
  findMatch 5 (SequenceNode [CharacterNode "b"])
            (list_ascii_of_string "ab") []
  = Found 1 [Some (mkCaptureGroup 1 2 true)].
Proof.
  apply (proj1 (findMatch_leftmost 5 (SequenceNode [CharacterNode "b"])
                  (list_ascii_of_string "ab") [])).
  split; [simpl; lia|]. split.
  - intros s' Hs'. assert (s' = 0) as -> by lia. eexists. reflexivity.
  - eexists. split; reflexivity.
Defined.

(* ===================================================================== *)
(** ** Sequences: captures are not rolled back *)
(* ===================================================================== *)

Lemma seq_loop_app m sp pre post ctx :
  seq_loop m sp (pre ++ post) ctx =
  match seq_loop m sp pre ctx with
  | Returned true ctxk => seq_loop m sp post ctxk
  | r => r
  end.
Proof.
  revert ctx. induction pre as [|c pre IH]; intros ctx; simpl; [done|].
  destruct (m c ctx) as [[|] ctx1| |]; try done; apply IH.
Qed.

(** C6. When the children [pre] of a sequence have succeeded, leaving
    [ctxk], and the next child [c] fails, leaving [ctxf], the sequence
    returns failure with [ctxf] in which only the position is reset to the
    checkpoint: every capture slot that held a value after [pre] still holds
    one, and each slot that [c] has no group for holds exactly the value
    [pre] left in it.  Such a capture reaches the final table: (a)b+a on
    the text a matches through its right alternative, which has no group,
    and the table still holds the span that group 1 recorded before b
    failed. *)
Theorem sequence_failure_keeps_captures :
  (forall (f : nat) (pre : list ASTNode) (c : ASTNode) (post : list ASTNode)
          (ctx ctxk ctxf : MatchContext),
     seq_loop (match_node f) (position ctx) pre ctx = Returned true ctxk ->
     match_node f c ctxk = Returned false ctxf ->
     match_node (S f) (SequenceNode (pre ++ c :: post)) ctx
       = Returned false (set_position ctxf (position ctx)) /\
     capture_kept (captures ctxk) (captures ctxf) /\
     (forall k, untouched k c = true -> k < length (captures ctxk) ->
                captures ctxf !! k = captures ctxk !! k)) /\
  ast_of (compile_first "(a)b+a") = Some stale_example /\
  findMatch 10 stale_example (list_ascii_of_string "a") []
    = Found 0 [Some (mkCaptureGroup 0 1 true);
               Some (mkCaptureGroup 0 1 true)] /\
  findMatch 10 (SequenceNode [CharacterNode "a"])
            (list_ascii_of_string "a") []
    = Found 0 [Some (mkCaptureGroup 0 1 true)].
Proof.
  split; [|repeat split].
  intros f pre c post ctx ctxk ctxf Hpre Hc. split; [|split].
  - simpl. rewrite seq_loop_app, Hpre. simpl. by rewrite Hc.
  - by apply (proj1 (match_frame_both f)) in Hc as [_ _ _ _ _ ?].
  - intros k Hu Hk. eapply (proj1 (match_untouched_both k f)); eauto.
Qed.

Lemma sequence_failure_keeps_captures_witness :
  match_node 4
    (SequenceNode
       ([GroupNode (Some (SequenceNode [CharacterNode "a"])) 1]
        ++ CharacterNode "b" :: []))
    (attempt_ctx (list_ascii_of_string "a") 0 [])
  = Returned false
      (mkMatchContext (list_ascii_of_string "a") 0
         [None; Some (mkCaptureGroup 0 1 true)] false).
Proof.
  exact (proj1 (proj1 sequence_failure_keeps_captures 3
                  [GroupNode (Some (SequenceNode [CharacterNode "a"])) 1]
                  (CharacterNode "b") []
                  (attempt_ctx (list_ascii_of_string "a") 0 [])
                  _ _ eq_refl eq_refl)).
Defined.

(* ===================================================================== *)
(** ** Alternation *)
(* ===================================================================== *)

Lemma returns_mono node ctx ok ctx' f f' :
  match_node f node ctx = Returned ok ctx' -> f <= f' ->
  match_node f' node ctx = Returned ok ctx'.
Proof. intros H Hle. eapply match_node_mono; eauto. Qed.

(** C7. (1) When the left operand succeeds, the alternation returns that
    success, whatever the right operand is.  (2) When the left operand
    fails, the alternation returns what the right operand returns from the
    left operand's context with the position reset to the checkpoint.
    (3) When the left operand succeeds and the node that follows the
    alternation in a sequence fails, the sequence fails, whatever the right
    operand is: the choice is not revisited.  (4) a+b compiles to an
    alternation of a and b; on the text b its left operand fails at
    offset 0 and the search succeeds at offset 0 with the span [0, 1).
    (5) (a+ab)c finds no match in abc, although (ab)c matches it. *)
Theorem alternation_left_biased :
  (forall lhs rhs ctx ctx1,
     returns lhs ctx true ctx1 -> returns (OrNode lhs rhs) ctx true ctx1) /\
  (forall lhs rhs ctx ctx1 ok ctx2,
     returns lhs ctx false ctx1 ->
     returns rhs (set_position ctx1 (position ctx)) ok ctx2 ->
     returns (OrNode lhs rhs) ctx ok ctx2) /\
  (forall lhs rhs next ctx ctx1 ctx2,
     returns lhs ctx true ctx1 -> returns next ctx1 false ctx2 ->
     returns (SequenceNode [OrNode lhs rhs; next]) ctx false
             (set_position ctx2 (position ctx))) /\
  (ast_of (compile_first "a+b")
     = Some (OrNode (SequenceNode [CharacterNode "a"])
                    (SequenceNode [CharacterNode "b"])) /\
   returns (SequenceNode [CharacterNode "a"])
           (attempt_ctx (list_ascii_of_string "b") 0 []) false
           (attempt_ctx (list_ascii_of_string "b") 0 []) /\
   findMatch 10 (OrNode (SequenceNode [CharacterNode "a"])
                        (SequenceNode [CharacterNode "b"]))
             (list_ascii_of_string "b") []
     = Found 0 [Some (mkCaptureGroup 0 1 true)]) /\
  (ast_of (compile_first "(a+ab)c") = Some commit_example /\
   findMatch 10 commit_example (list_ascii_of_string "abc") [] = NotFound /\
   findMatch 10
     (SequenceNode
        [GroupNode (Some (SequenceNode [CharacterNode "a"; CharacterNode "b"]))
                   1;
         CharacterNode "c"])
     (list_ascii_of_string "abc") []
   = Found 0 [Some (mkCaptureGroup 0 3 true);
              Some (mkCaptureGroup 0 2 true)]).
Proof.
  split; [|split; [|split; [|split]]].
  - intros lhs rhs ctx ctx1 [f H]. exists (S f). simpl. by rewrite H.
  - intros lhs rhs ctx ctx1 ok ctx2 [f1 H1] [f2 H2].
    exists (S (f1 + f2)). simpl.
    rewrite (returns_mono _ _ _ _ _ (f1 + f2) H1) by lia.
    rewrite (returns_mono _ _ _ _ _ (f1 + f2) H2) by lia.
    by destruct ok.
  - intros lhs rhs next ctx ctx1 ctx2 [f1 H1] [f2 H2].
    exists (S (S (f1 + f2))).
    change (match_node (S (S (f1 + f2)))
              (SequenceNode [OrNode lhs rhs; next]) ctx)
      with (seq_loop (match_node (S (f1 + f2))) (position ctx)
              [OrNode lhs rhs; next] ctx).
    assert (match_node (S (f1 + f2)) (OrNode lhs rhs) ctx = Returned true ctx1)
      as E1.
    { simpl. by rewrite (returns_mono _ _ _ _ _ (f1 + f2) H1) by lia. }
    cbn [seq_loop]. rewrite E1.
    by rewrite (returns_mono _ _ _ _ _ (S (f1 + f2)) H2) by lia.
  - split; [reflexivity|]. split; [by exists 3|reflexivity].
  - repeat split.
Qed.

Lemma alternation_left_biased_witness :
  returns (OrNode (CharacterNode "a") (CharacterNode "b"))
          (attempt_ctx (list_ascii_of_string "b") 0 []) true
          (set_position (attempt_ctx (list_ascii_of_string "b") 0 []) 1).
Proof.
  apply (proj1 (proj2 alternation_left_biased)
           (CharacterNode "a") (CharacterNode "b")
           (attempt_ctx (list_ascii_of_string "b") 0 [])
           (attempt_ctx (list_ascii_of_string "b") 0 [])).
  - exists 1. reflexivity.
  - exists 1. reflexivity.
Defined.

(* ===================================================================== *)
(** ** One-or-more repetition *)
(* ===================================================================== *)

Lemma star_loop_reps e k : forall ctx ctxk ctxf count,
  reps e ctx k ctxk -> returns e ctxk false ctxf ->
  exists f, star_loop f e ctx count
            = Returned (1 <=? count + Z.of_nat k)%Z
                       (set_position ctxf (position ctxk)).
Proof.
  induction k as [|k IH]; intros ctx ctxk ctxf count Hr Hf.
  - inversion Hr; subst. destruct Hf as [f Hf]. exists (S f). simpl.
    rewrite Hf. by rewrite Z.add_0_r.
  - inversion Hr as [|? ctx1 ? ? [f1 H1] Hr']; subst.
    destruct (IH ctx1 ctxk ctxf (count + 1)%Z Hr' Hf) as [f2 H2].
    exists (S (f1 + f2)). simpl.
    rewrite (returns_mono _ _ _ _ _ (f1 + f2) H1) by lia.
    rewrite (star_loop_mono f2 (f1 + f2) _ _ _ _ H2) by (done || lia).
    do 2 f_equal. lia.
Qed.

Lemma star_loop_inv e f : forall ctx count ok ctx',
  star_loop f e ctx count = Returned ok ctx' ->
  exists k ctxk ctxf,
    reps e ctx k ctxk /\ returns e ctxk false ctxf /\
    ok = (1 <=? count + Z.of_nat k)%Z /\
    ctx' = set_position ctxf (position ctxk).
Proof.
  induction f as [|f IH]; intros ctx count ok ctx'; simpl; [done|].
  destruct (match_node f e ctx) as [[|] ctx1| |] eqn:E; try done.
  - intros H. apply IH in H as (k & ctxk & ctxf & Hr & Hf & -> & ->).
    exists (S k), ctxk, ctxf. split; [|split; [done|split; [|done]]].
    + econstructor; [by exists f|done].
    + f_equal. lia.
  - intros [= <- <-]. exists 0, ctx, ctx1.
    split; [constructor|]. split; [by exists f|].
    by rewrite Z.add_0_r.
Qed.

(** C8. A StarNode returns exactly when its inner node matches some number
    [k] of times in a row and then fails: it returns success iff [k] is at
    least 1, and leaves the position where the last successful repetition
    left it; since a call has one result, no smaller number of repetitions
    is ever tried.  a* finds aaa at offset 0 of aaab, and a*a finds nothing
    in aaa. *)
Theorem star_greedy :
  (forall e ctx ok ctx',
     returns (StarNode e) ctx ok ctx' <->
     exists k ctxk ctxf,
       reps e ctx k ctxk /\ returns e ctxk false ctxf /\
       ok = (1 <=? k) /\
       ctx' = set_position ctxf (position ctxk)) /\
  (forall e ctx ok1 ctx1 ok2 ctx2,
     returns (StarNode e) ctx ok1 ctx1 -> returns (StarNode e) ctx ok2 ctx2 ->
     ok1 = ok2 /\ ctx1 = ctx2) /\
  ast_of (compile_first "a*")
    = Some (SequenceNode [StarNode (CharacterNode "a")]) /\
  findMatch 10 (SequenceNode [StarNode (CharacterNode "a")])
            (list_ascii_of_string "aaab") []
    = Found 0 [Some (mkCaptureGroup 0 3 true)] /\
  ast_of (compile_first "a*a")
    = Some (SequenceNode [StarNode (CharacterNode "a"); CharacterNode "a"]) /\
  findMatch 10 (SequenceNode [StarNode (CharacterNode "a"); CharacterNode "a"])
            (list_ascii_of_string "aaa") []
    = NotFound.
Proof.
  split; [|split; [|repeat split]].
  - intros e ctx ok ctx'. split.
    + intros [[|f] H]; [done|]. simpl in H.
      apply star_loop_inv in H as (k & ctxk & ctxf & Hr & Hf & -> & ->).
      exists k, ctxk, ctxf. repeat split; try done.
      destruct k; simpl; [done|]. apply Z.leb_le. lia.
    + intros (k & ctxk & ctxf & Hr & Hf & -> & ->).
      destruct (star_loop_reps e k ctx ctxk ctxf 0%Z Hr Hf) as [f H].
      exists (S f). simpl. rewrite H. f_equal.
      destruct k; simpl; [done|]. apply Z.leb_le. lia.
  - intros e ctx. apply returns_det.
Qed.

Lemma star_greedy_witness :
  exists k ctxk ctxf,
    reps (CharacterNode "a")
         (attempt_ctx (list_ascii_of_string "aab") 0 []) k ctxk /\
    returns (CharacterNode "a") ctxk false ctxf /\
    true = (1 <=? k) /\
    set_position (attempt_ctx (list_ascii_of_string "aab") 0 []) 2
      = set_position ctxf (position ctxk).
Proof.
  apply (proj1 (proj1 star_greedy (CharacterNode "a")
                  (attempt_ctx (list_ascii_of_string "aab") 0 []) true
                  (set_position
                     (attempt_ctx (list_ascii_of_string "aab") 0 []) 2))).
  exists 5. reflexivity.
Defined.

(* ===================================================================== *)
(** ** A repetition that never ends *)
(* ===================================================================== *)

Lemma empty_group_succeeds f ctx :
  match_node f empty_group ctx = OutOfFuel \/
  exists ctx', match_node f empty_group ctx = Returned true ctx'.
Proof.
  destruct f as [|[|[|f]]]; simpl; eauto.
Qed.

Lemma empty_star_loop f : forall ctx count,
  star_loop f empty_group ctx count = OutOfFuel.
Proof.
  induction f as [|f IH]; intros ctx count; [done|].
  change (star_loop (S f) empty_group ctx count)
    with (match match_node f empty_group ctx with
          | Returned true ctx1 => star_loop f empty_group ctx1 (count + 1)%Z
          | Returned false ctx1 =>
              Returned (1 <=? count)%Z (set_position ctx1 (position ctx))
          | r => r
          end).
  destruct (empty_group_succeeds f ctx) as [->|[ctx' ->]]; [done|apply IH].
Qed.

(** C10 fails on the code: (a{0})* compiles, to a StarNode over a group
    that succeeds without consuming, and the match of that tree returns
    for no amount of fuel, from any context; the search and the program
    do not finish on any text. *)
Theorem empty_star_diverges :
  ast_of (compile_first "(a{0})*") = Some empty_star /\
  (forall ctx, diverges empty_star ctx) /\
  (forall fuel txt, findMatch fuel empty_star txt [] = SearchOutOfFuel) /\
  (forall fuel txt, run fuel "(a{0})*" txt = Unfinished).
Proof.
  assert (forall ctx, diverges empty_star ctx) as Hd.
  { intros ctx [|[|f]]; try done.
    change (match_node (S (S f)) empty_star ctx)
      with (match star_loop f empty_group ctx 0%Z with
            | Returned true ctx1 => Returned true ctx1
            | Returned false ctx1 =>
                Returned false (set_position ctx1 (position ctx))
            | r => r
            end).
    by rewrite empty_star_loop. }
  split; [reflexivity|]. split; [done|].
  assert (forall fuel txt, findMatch fuel empty_star txt [] = SearchOutOfFuel)
    as Hf.
  { intros fuel txt. unfold findMatch. simpl. by rewrite Hd. }
  split; [done|].
  intros fuel txt. unfold run, main.
  change (parsePattern (list_ascii_of_string "(a{0})*") 0 1)
    with (Done (mkCompiled (Some empty_star) 0)
            (mkParserState
               (mkCursor (list_ascii_of_string "(a{0})*") 7) 2)).
  cbv beta iota. by rewrite Hf.
Qed.

(* ===================================================================== *)
(** ** Capture spans lie inside the text *)
(* ===================================================================== *)

Lemma store_capture_ok len caps gi cg :
  Forall (span_ok len) caps -> span_ok len (Some cg) ->
  Forall (span_ok len) (store_capture caps gi cg).
Proof.
  intros Hc Hcg. unfold store_capture. apply Forall_insert; [|done].
  destruct (_ <=? _)%Z; [|done]. by apply Forall_resize.
Qed.

Lemma ctx_ok_set_position len ctx p :
  ctx_ok len ctx -> p <= len -> ctx_ok len (set_position ctx p).
Proof. intros (? & ? & ?) ?. by repeat split. Qed.

Lemma match_ok_both len f :
  (forall node ctx ok ctx', ctx_ok len ctx ->
     match_node f node ctx = Returned ok ctx' -> ctx_ok len ctx') /\
  (forall e ctx count ok ctx', ctx_ok len ctx ->
     star_loop f e ctx count = Returned ok ctx' -> ctx_ok len ctx').
Proof.
  induction f as [|f [IHm IHs]]; [split; intros; simpl in *; congruence|].
  pose proof (match_frame_both f) as [Fm _].
  split.
  - intros node ctx ok ctx' Hok. destruct node; simpl.
    + destruct (atEnd ctx) eqn:He; [by intros [= <- <-]|].
      assert (ctx_ok len (set_position ctx (S (position ctx)))) as Hn.
      { destruct Hok as (Hl & ? & ?). apply ctx_ok_set_position; [done|].
        unfold atEnd in He. apply Nat.leb_gt in He. lia. }
      destruct (ignoreCase ctx), (Ascii.eqb _ _); by intros [= <- <-].
    + destruct (atEnd ctx) eqn:He; [by intros [= <- <-]|].
      intros [= <- <-]. destruct Hok as (Hl & ? & ?).
      apply ctx_ok_set_position; [done|].
      unfold atEnd in He. apply Nat.leb_gt in He. lia.
    + assert (position ctx <= len) as Hsp by apply Hok.
      revert Hsp. generalize (position ctx) at 1 2 as sp. intros sp Hsp.
      revert ctx Hok. induction children as [|c cs IHcs]; intros ctx Hok.
      { by intros [= <- <-]. }
      simpl. destruct (match_node f c ctx) as [[|] ctx1| |] eqn:E1; try done.
      * apply IHcs. eapply IHm; eauto.
      * intros [= <- <-]. apply ctx_ok_set_position; [|done].
        eapply IHm; eauto.
    + destruct (match_node f node1 ctx) as [[|] ctx1| |] eqn:E1; try done.
      { intros [= <- <-]. eapply IHm; eauto. }
      apply IHm in E1; [|done].
      destruct (match_node f node2 _) as [ok2 ctx2| |] eqn:E2; try done.
      intros H. assert (ctx' = ctx2) as -> by (destruct ok2; by inversion H).
      eapply IHm; [|exact E2]. apply ctx_ok_set_position; [done|apply Hok].
    + destruct expr as [e|]; [|done].
      destruct (match_node f e ctx) as [[|] ctx1| |] eqn:E1; try done.
      * pose proof (Fm _ _ _ _ E1) as [_ _ Hmon _ _ _].
        specialize (Hmon eq_refl).
        apply IHm in E1 as (Hl & Hp & Hc); [|done].
        destruct (0 <=? groupIndex)%Z; intros [= <- <-]; [|done].
        split; [done|]. split; [done|]. simpl.
        apply store_capture_ok; [done|]. simpl. split; [lia|done].
      * intros [= <- <-]. eapply IHm; eauto.
    + by apply IHs.
    + assert (position ctx <= len) as Hsp by apply Hok.
      revert Hsp. generalize (position ctx) at 1 2 as sp. intros sp Hsp.
      revert ctx Hok. induction (Z.to_nat count) as [|n IHn]; intros ctx Hok.
      { by intros [= <- <-]. }
      simpl. destruct (match_node f node ctx) as [[|] ctx1| |] eqn:E1;
        try done.
      * apply IHn. eapply IHm; eauto.
      * intros [= <- <-]. apply ctx_ok_set_position; [|done].
        eapply IHm; eauto.
    + destruct (match_node f node _) as [ok1 ctx1| |] eqn:E1; try done.
      apply IHm in E1 as (? & ? & ?); [|by destruct Hok as (? & ? & ?)].
      by intros [= <- <-].
    + by intros [= <- <-].
  - intros e ctx count ok ctx' Hok. simpl.
    destruct (match_node f e ctx) as [[|] ctx1| |] eqn:E1; try done.
    + apply IHs. eapply IHm; eauto.
    + intros [= <- <-]. apply ctx_ok_set_position; [|apply Hok].
      eapply IHm; eauto.
Qed.

Lemma attempt_ctx_ok txt s caps :
  s <= length txt -> Forall (span_ok (length txt)) caps ->
  ctx_ok (length txt) (attempt_ctx txt s caps).
Proof.
  intros Hs Hc. split; [done|]. split; [done|]. simpl.
  change (Forall (span_ok (length txt)) (resize 1 None caps)).
  by apply Forall_resize.
Qed.

Lemma findMatch_loop_ok fuel a txt caps n : forall start s caps',
  start + n <= S (length txt) ->
  Forall (span_ok (length txt)) caps ->
  findMatch_loop fuel a txt caps start n = Found s caps' ->
  Forall (span_ok (length txt)) caps'.
Proof.
  induction n as [|n IH]; intros start s caps' Hn Hc; simpl; [done|].
  destruct (match_node fuel a (attempt_ctx txt start caps))
    as [[|] c| |] eqn:E; try done.
  - intros [= <- <-].
    pose proof (proj1 (match_frame_both fuel) _ _ _ _ E) as [_ _ Hmon _ _ _].
    specialize (Hmon eq_refl). simpl in Hmon.
    apply (proj1 (match_ok_both (length txt) fuel)) in E
      as (Hl & Hp & Hok); [|apply attempt_ctx_ok; [lia|done]].
    unfold finish_match. destruct (has_value _ _); [done|].
    apply Forall_insert; [done|]. simpl. split; [lia|done].
  - apply IH; [lia|done].
Qed.

(** X1. Every capture in the table that [findMatch] returns is a span
    [start, end) with start <= end <= length of the text, so the
    [input.substr(start, end - start)] of [main] is never out of range and
    the printed group has exactly end - start characters. *)
Theorem captures_inside_text :
  forall (fuel : nat) (a : ASTNode) (txt : list ascii)
         (caps : list (option CaptureGroup)) (s : nat)
         (caps' : list (option CaptureGroup)),
    Forall (span_ok (length txt)) caps ->
    findMatch fuel a txt caps = Found s caps' ->
    Forall (span_ok (length txt)) caps' /\
    forall o seg, select_output o caps' txt = Some seg ->
      exists cg, caps' !! Z.to_nat o = Some (Some cg) /\
                 startIndex cg <= endIndex cg <= length txt /\
                 seg = take (endIndex cg - startIndex cg)
                            (drop (startIndex cg) txt) /\
                 length seg = endIndex cg - startIndex cg.
Proof.
  intros fuel a txt caps s caps' Hc H.
  apply findMatch_loop_ok in H; [|simpl; lia|done].
  split; [done|]. intros o seg. unfold select_output.
  destruct (_ <=? _)%Z; [done|].
  destruct (caps' !! Z.to_nat o) as [[cg|]|] eqn:E; try done.
  intros [= <-]. exists cg. split; [done|].
  pose proof (Forall_lookup_1 _ _ _ _ H E) as [Hcg _].
  split; [done|]. split; [done|].
  unfold substr. rewrite length_take, length_drop. lia.
Qed.

Lemma captures_inside_text_witness :
  Forall (span_ok 2)
    [Some (mkCaptureGroup 0 2 true); Some (mkCaptureGroup 0 1 true);
     Some (mkCaptureGroup 0 2 true)].
Proof.
  exact (proj1 (captures_inside_text 10
           (SequenceNode
              [GroupNode
                 (Some (SequenceNode
                          [GroupNode (Some (SequenceNode [CharacterNode "a"]))
                                     1;
                           CharacterNode "b"]))
                 2])
           (list_ascii_of_string "ab") [] 0 _ (Forall_nil_2 _) eq_refl)).
Defined.

(* ===================================================================== *)
(** ** How nodes compose *)
(* ===================================================================== *)

Lemma count_loop_replicate m sp n e ctx :
  count_loop (m e) sp n ctx = seq_loop m sp (replicate n e) ctx.
Proof.
  revert ctx. induction n as [|n IH]; intros ctx; simpl; [done|].
  destruct (m e ctx) as [[|] ctx1| |]; try done; apply IH.
Qed.

(** X2. A CountNode with count n gives, on every context and with every
    fuel, the result of the sequence of n copies of its inner node: a{3}
    is matched as aaa, and a count of 0 or less as the empty sequence. *)
Theorem count_is_repeated_sequence :
  forall (f : nat) (e : ASTNode) (n : Z) (ctx : MatchContext),
    match_node f (CountNode e n) ctx
    = match_node f (SequenceNode (replicate (Z.to_nat n) e)) ctx.
Proof.
  intros [|f] e n ctx; [done|]. simpl. apply count_loop_replicate.
Qed.

Lemma returns_or node1 node2 ctx ok ctx' :
  returns (OrNode node1 node2) ctx ok ctx' <->
  (ok = true /\ returns node1 ctx true ctx') \/
  (exists ctx1, returns node1 ctx false ctx1 /\
                returns node2 (set_position ctx1 (position ctx)) ok ctx').
Proof.
  split.
  - intros [[|f] H]; [done|]. simpl in H.
    destruct (match_node f node1 ctx) as [[|] ctx1| |] eqn:E1; try done.
    + inversion H; subst. left. split; [done|by exists f].
    + right. exists ctx1. split; [by exists f|].
      destruct (match_node f node2 _) as [[|] ctx2| |] eqn:E2; try done;
        inversion H; subst; by exists f.
  - intros [[-> [f H]]|(ctx1 & [f1 H1] & [f2 H2])].
    + exists (S f). simpl. by rewrite H.
    + exists (S (f1 + f2)). simpl.
      rewrite (returns_mono _ _ _ _ _ (f1 + f2) H1) by lia.
      rewrite (returns_mono _ _ _ _ _ (f1 + f2) H2) by lia.
      by destruct ok.
Qed.

(** X3. Alternation is associative for the matcher: the tree that
    [parseExpr] builds for a+b+c, or(or(a,b),c), returns exactly what
    or(a,or(b,c)) returns, with the same context. *)
Theorem alternation_associative :
  forall (a b c : ASTNode) (ctx : MatchContext) (ok : bool)
         (ctx' : MatchContext),
    returns (OrNode (OrNode a b) c) ctx ok ctx' <->
    returns (OrNode a (OrNode b c)) ctx ok ctx'.
Proof.
  intros a b c ctx ok ctx'.
  rewrite (returns_or (OrNode a b) c), (returns_or a (OrNode b c)).
  rewrite (returns_or a b ctx true).
  split.
  - intros [[-> [[_ H]|(ctx1 & H1 & H2)]]|(ctx2 & H & H3)].
    + by left.
    + right. exists ctx1. split; [done|]. apply returns_or. by left.
    + apply returns_or in H as [[? _]|(ctx1 & H1 & H2)]; [done|].
      right. exists ctx1. split; [done|]. apply returns_or. right.
      by exists ctx2.
  - intros [[-> H]|(ctx1 & H1 & H)].
    + left. split; [done|]. by left.
    + apply returns_or in H as [[-> H2]|(ctx2 & H2 & H3)].
      * left. split; [done|]. right. by exists ctx1.
      * right. exists ctx2. split; [|done]. apply returns_or. right.
        by exists ctx1.
Qed.

Lemma alternation_associative_witness :
  returns (OrNode (CharacterNode "a")
                  (OrNode (CharacterNode "b") (CharacterNode "c")))
          (attempt_ctx (list_ascii_of_string "c") 0 []) true
          (set_position (attempt_ctx (list_ascii_of_string "c") 0 []) 1).
Proof.
  apply (proj1 (alternation_associative _ _ _ _ _ _)).
  exists 3. reflexivity.
Defined.

(* ===================================================================== *)
(** ** The capture table and the result of a match *)
(* ===================================================================== *)

Lemma shift_zero : forall node : ASTNode, shift 0 node = node.
Proof.
  fix shift_zero 1. intros node.
  destruct node as [| |cs| |e i| | | |]; simpl; try reflexivity.
  - f_equal. induction cs as [|c cs IH]; simpl; [reflexivity|].
    rewrite (shift_zero c), IH. reflexivity.
  - rewrite (shift_zero node1), (shift_zero node2). reflexivity.
  - rewrite Z.add_0_r. destruct e as [e|]; [|reflexivity].
    rewrite (shift_zero e). reflexivity.
  - rewrite (shift_zero node). reflexivity.
  - rewrite (shift_zero node). reflexivity.
  - rewrite (shift_zero node). reflexivity.
Qed.

(** X4. The matcher never reads the capture table: from two contexts with
    the same text, position and ignore-case flag, a node returns the same
    verdict and leaves the same position and flag, or fails to return in
    the same way, whatever the two tables hold. *)
Theorem match_ignores_captures :
  forall (f : nat) (node : ASTNode) (c1 c2 : MatchContext),
    ctx_sim c1 c2 ->
    res_sim (match_node f node c1) (match_node f node c2).
Proof.
  intros f node c1 c2 H.
  pose proof (proj1 (match_shift_both 0 f) node c1 c2 H) as Hs.
  by rewrite shift_zero in Hs.
Qed.

Lemma match_ignores_captures_witness :
  res_sim
    (match_node 3 (StarNode (CharacterNode "a"))
       (mkMatchContext (list_ascii_of_string "aab") 0 [] false))
    (match_node 3 (StarNode (CharacterNode "a"))
       (mkMatchContext (list_ascii_of_string "aab") 0
          [None; Some (mkCaptureGroup 0 1 true)] false)).
Proof.
  apply match_ignores_captures. by repeat split.
Defined.

Lemma has_value_resize caps n k :
  length caps <= n ->
  has_value (resize n None caps) k = has_value caps k.
Proof.
  intros Hn. unfold has_value.
  destruct (decide (k < length caps)) as [Hk|Hk].
  - by rewrite lookup_resize by lia.
  - rewrite (lookup_ge_None_2 caps k) by lia.
    destruct (decide (k < n)) as [Hkn|Hkn].
    + by rewrite lookup_resize_new by lia.
    + by rewrite lookup_resize_old by lia.
Qed.

Lemma has_value_store_other caps gi cg k :
  Z.to_nat gi <> k ->
  has_value (store_capture caps gi cg) k = has_value caps k.
Proof.
  intros Hne. unfold store_capture, has_value at 1.
  rewrite list_lookup_insert_ne by done.
  destruct (Z.leb_spec (Z.of_nat (length caps)) gi); [|done].
  apply has_value_resize. lia.
Qed.

Lemma match_no_value_both k f :
  (forall node ctx ok ctx', untouched k node = true ->
     match_node f node ctx = Returned ok ctx' ->
     has_value (captures ctx') k = has_value (captures ctx) k) /\
  (forall e ctx count ok ctx', untouched k e = true ->
     star_loop f e ctx count = Returned ok ctx' ->
     has_value (captures ctx') k = has_value (captures ctx) k).
Proof.
  unfold untouched.
  induction f as [|f [IHm IHs]]; [split; intros; simpl in *; congruence|].
  split.
  - intros node ctx ok ctx'. destruct node; simpl.
    + intros _. destruct (atEnd ctx); [by intros [= <- <-]|].
      destruct (ignoreCase ctx), (Ascii.eqb _ _); by intros [= <- <-].
    + intros _. destruct (atEnd ctx); by intros [= <- <-].
    + generalize (position ctx) as sp. intros sp. revert ctx.
      induction children as [|c cs IHcs]; intros ctx; simpl.
      { by intros _ [= <- <-]. }
      rewrite forallb_app. intros [Hc Hcs]%andb_true_iff.
      destruct (match_node f c ctx) as [[|] ctx1| |] eqn:E1; try done.
      * intros H. apply IHcs in H; [|done]. rewrite H.
        exact (IHm _ _ _ _ Hc E1).
      * intros [= <- <-]. simpl. exact (IHm _ _ _ _ Hc E1).
    + rewrite forallb_app. intros [H1 H2]%andb_true_iff.
      destruct (match_node f node1 ctx) as [[|] ctx1| |] eqn:E1; try done.
      { intros [= <- <-]. exact (IHm _ _ _ _ H1 E1). }
      destruct (match_node f node2 _) as [ok2 ctx2| |] eqn:E2; try done.
      intros H. assert (ctx' = ctx2) as -> by (destruct ok2; by inversion H).
      rewrite (IHm _ _ _ _ H2 E2). simpl. exact (IHm _ _ _ _ H1 E1).
    + destruct expr as [e|]; [|done].
      rewrite forallb_app. intros [H1 H2]%andb_true_iff.
      simpl in H2. rewrite andb_true_r in H2.
      apply negb_true_iff, Z.eqb_neq in H2.
      destruct (match_node f e ctx) as [[|] ctx1| |] eqn:E1; try done.
      * destruct (Z.leb_spec 0 groupIndex); intros [= <- <-]; simpl.
        -- rewrite has_value_store_other by lia. exact (IHm _ _ _ _ H1 E1).
        -- exact (IHm _ _ _ _ H1 E1).
      * intros [= <- <-]. exact (IHm _ _ _ _ H1 E1).
    + intros Hu H. exact (IHs _ _ _ _ _ Hu H).
    + generalize (position ctx) as sp. intros sp Hu. revert ctx.
      induction (Z.to_nat count) as [|n IHn]; intros ctx; simpl.
      { by intros [= <- <-]. }
      destruct (match_node f node ctx) as [[|] ctx1| |] eqn:E1; try done.
      * intros H. apply IHn in H. rewrite H. exact (IHm _ _ _ _ Hu E1).
      * intros [= <- <-]. simpl. exact (IHm _ _ _ _ Hu E1).
    + intros Hu.
      destruct (match_node f node _) as [ok1 ctx1| |] eqn:E1; try done.
      intros [= <- <-]. simpl. exact (IHm _ _ _ _ Hu E1).
    + by intros _ [= <- <-].
  - intros e ctx count ok ctx' Hu. simpl.
    destruct (match_node f e ctx) as [[|] ctx1| |] eqn:E1; try done.
    + intros H. apply IHs in H; [|done]. rewrite H.
      exact (IHm _ _ _ _ Hu E1).
    + intros [= <- <-]. simpl. exact (IHm _ _ _ _ Hu E1).
Qed.

(** X5. A capture slot changes only through a group that carries its
    index: for a node with no group of index [k], a returning call leaves
    slot [k] with the value it had (if the slot exists), and a slot [k]
    without a value stays without one; in no case does a call shrink the
    table or take a value out of a slot. *)
Theorem captures_change_only_through_groups :
  forall (f : nat) (node : ASTNode) (ctx : MatchContext) (ok : bool)
         (ctx' : MatchContext),
    match_node f node ctx = Returned ok ctx' ->
    length (captures ctx) <= length (captures ctx') /\
    (forall i, has_value (captures ctx) i = true ->
               has_value (captures ctx') i = true) /\
    (forall k, untouched k node = true ->
               has_value (captures ctx') k = has_value (captures ctx) k /\
               (k < length (captures ctx) ->
                captures ctx' !! k = captures ctx !! k)).
Proof.
  intros f node ctx ok ctx' H.
  pose proof (proj1 (match_frame_both f) _ _ _ _ H) as [_ _ _ _ _ [HL HV]].
  split; [done|]. split; [done|]. intros k Hu. split.
  - exact (proj1 (match_no_value_both k f) _ _ _ _ Hu H).
  - intros Hk. exact (proj1 (match_untouched_both k f) _ _ _ _ Hu Hk H).
Qed.

Lemma captures_change_only_through_groups_witness :
  length [Some (mkCaptureGroup 5 6 true); None]
  <= length [Some (mkCaptureGroup 5 6 true); None;
             Some (mkCaptureGroup 0 1 true)].
Proof.
  exact (proj1 (captures_change_only_through_groups 3
           (GroupNode (Some (CharacterNode "a")) 2)
           (mkMatchContext (list_ascii_of_string "a") 0
              [Some (mkCaptureGroup 5 6 true); None] false)
           true _ eq_refl)).
Defined.

(* ===================================================================== *)
(** ** What the program prints *)
(* ===================================================================== *)

Lemma found_attempt fuel a txt caps s caps' :
  findMatch fuel a txt caps = Found s caps' ->
  s <= length txt /\
  exists c, match_node fuel a (attempt_ctx txt s caps) = Returned true c /\
            caps' = finish_match s c.
Proof.
  intros H. unfold findMatch in H.
  pose proof (findMatch_loop_inv fuel a txt caps (S (length txt)) 0) as Inv.
  rewrite H in Inv. destruct Inv as (Hs & _ & c & Hc & ->).
  split; [lia|]. by exists c.
Qed.

Lemma numbered_untouched gc a gc' k :
  numbered gc (Some a) gc' ->
  (Z.of_nat k < gc)%Z \/ (gc' <= Z.of_nat k)%Z ->
  untouched k a = true.
Proof.
  intros [Ha _] Hk. unfold untouched.
  pose proof (ascending_below _ _ _ Ha) as Hb.
  pose proof (ascending_from gc gc _ _ (Z.le_refl gc) Ha) as Hf.
  revert Hb Hf. generalize (closing_indices a) as l.
  induction l as [|x l IH]; simpl; [done|].
  intros [H1 H2]%andb_true_iff [H3 H4]%andb_true_iff.
  apply andb_true_iff. split; [|by apply IH].
  apply Z.ltb_lt in H1. apply Z.leb_le in H3.
  apply negb_true_iff, Z.eqb_neq. lia.
Qed.



(** X7. When the directive asks for a group index that the compilation did
    not hand out (an index at or above the value the counter is left at),
    a run that finds a match prints nothing and still exits with success:
    no slot gets a value without a group of its index. *)
Theorem unassigned_group_prints_nothing :
  forall (fuel : nat) (gc o : Z) (pattern inp : list ascii) (a : ASTNode)
         (st : ParserState) (s : nat) (caps : list (option CaptureGroup)),
    (1 <= gc)%Z -> (groupCounter st <= o)%Z ->
    parsePattern pattern 0 gc = Done (mkCompiled (Some a) o) st ->
    findMatch fuel a inp [] = Found s caps ->
    select_output o caps inp = None /\
    main fuel gc pattern inp = Exit EXIT_SUCCESS None.
Proof.
  intros fuel gc o pattern inp a st s caps Hgc Ho Hp Hf.
  pose proof (parsePattern_numbered _ _ _ _ _ _ Hp) as Hn.
  assert (gc <= groupCounter st)%Z as Hle.
  { destruct Hn as [Ha _]. by apply ascending_le in Ha. }
  pose proof (numbered_untouched _ _ _ (Z.to_nat o) Hn ltac:(lia)) as Hu.
  destruct (found_attempt _ _ _ _ _ _ Hf) as (Hs & c & Hc & ->).
  pose proof (proj1 (match_no_value_both (Z.to_nat o) fuel) _ _ _ _ Hu Hc)
    as Hv.
  assert (has_value (finish_match s c) (Z.to_nat o) = false) as Hnone.
  { unfold finish_match. destruct (has_value (captures c) 0) eqn:E0.
    - rewrite Hv. unfold has_value, attempt_ctx. simpl.
      by destruct (Z.to_nat o) as [|[|k]].
    - unfold has_value. rewrite list_lookup_insert_ne by lia.
      fold (has_value (captures c) (Z.to_nat o)). rewrite Hv.
      unfold has_value, attempt_ctx. simpl.
      by destruct (Z.to_nat o) as [|[|k]]. }
  assert (select_output o (finish_match s c) inp = None) as Hsel.
  { unfold select_output. destruct (_ <=? _)%Z; [done|].
    unfold has_value in Hnone.
    by destruct (finish_match s c !! Z.to_nat o) as [[cg|]|]. }
  split; [done|]. unfold main. by rewrite Hp, Hf, Hsel.
Qed.

Lemma unassigned_group_prints_nothing_witness :
  select_output 2 [Some (mkCaptureGroup 0 1 true);
                   Some (mkCaptureGroup 0 1 true)]
                (list_ascii_of_string "a") = None /\
  main 10 1 (list_ascii_of_string "(a)\O{2}") (list_ascii_of_string "a")
  = Exit EXIT_SUCCESS None.
Proof.
  refine (unassigned_group_prints_nothing 10 1 2
            (list_ascii_of_string "(a)\O{2}") (list_ascii_of_string "a")
            (SequenceNode
               [GroupNode (Some (SequenceNode [CharacterNode "a"])) 1])
            (mkParserState
               (mkCursor (list_ascii_of_string "(a)\O{2}") 8) 2)
            0 _ _ _ _ _).
  - lia.
  - simpl. lia.
  - vm_compute. reflexivity.
  - vm_compute. reflexivity.
Defined.

(* ===================================================================== *)
(** ** The descent: termination, cursor and counter *)
(* ===================================================================== *)

(** X8. The recursive descent returns (or lets the exception of
    [std::stoi] escape) on every pattern: the fuel [parsePattern] gives it
    is never used up, and any other amount of fuel, when it is enough,
    yields the same result. *)
Theorem descent_terminates :
  forall (pattern : list ascii) (out gc : Z),
    parsePattern pattern out gc <> NoFuel /\
    (forall f, 5 * length pattern + 4 <= f ->
               parsePattern_fuel f pattern out gc
               = parsePattern pattern out gc) /\
    (forall f, parsePattern_fuel f pattern out gc <> NoFuel ->
               parsePattern_fuel f pattern out gc
               = parsePattern pattern out gc).
Proof.
  intros pattern out gc. split; [apply parsePattern_total|].
  split; [|intros f; apply parsePattern_fuel_eq].
  intros f Hf. apply parsePattern_fuel_eq.
  unfold parsePattern_fuel.
  pose proof (proj1 (parser_total_all f)
                (mkParserState (mkCursor pattern 0) gc)
                ltac:(unfold cur_wf; simpl; lia)
                ltac:(unfold chars_left; simpl; lia)) as HE.
  destruct (parseExpr f _) as [a st1| |]; try done.
  destruct (parse_output _ _) as [[o c]|]; done.
Qed.

Lemma descent_terminates_witness :
  parsePattern_fuel 100 (list_ascii_of_string "(a+b)*c") 0 1
  = parsePattern (list_ascii_of_string "(a+b)*c") 0 1.
Proof.
  apply (proj1 (proj2 (descent_terminates
                         (list_ascii_of_string "(a+b)*c") 0 1))).
  simpl. lia.
Defined.

Lemma groups_paid_suffixes base st v st' st0 slack :
  parse_suffixes base st = Done v st' -> cur_wf (cur st) ->
  groups_paid slack st0 st -> groups_paid slack st0 st'.
Proof.
  intros H Hwf Hp. apply parse_suffixes_le in H as ([(_ & Hpos & _) _] & Hg & _);
    [|done].
  unfold groups_paid in *. rewrite Hg. lia.
Qed.

Lemma parser_groups_all f :
  (forall st v st', parseExpr f st = Done v st' -> cur_wf (cur st) ->
     groups_paid 0 st st') /\
  (forall l st v st', parseExpr_loop f l st = Done v st' ->
     cur_wf (cur st) -> groups_paid 0 st st') /\
  (forall st v st', parseTerm f st = Done v st' -> cur_wf (cur st) ->
     groups_paid 0 st st') /\
  (forall cs st v st', parseTerm_loop f cs st = Done v st' ->
     cur_wf (cur st) -> groups_paid 0 st st') /\
  (forall st v st', parseFactor f st = Done v st' -> cur_wf (cur st) ->
     groups_paid 0 st st') /\
  (forall st v st', parseGroup f st = Done v st' -> cur_wf (cur st) ->
     groups_paid 1 st st').
Proof.
  induction f as [|f (IHE & IHEL & IHT & IHTL & IHF & IHG)];
    [parser_fuel_zero|].
  pose proof (parser_moves_all f) as (ME & MEL & MT & MTL & MF & MG).
  unfold groups_paid in *.
  split; [|split; [|split; [|split; [|split]]]].
  - intros st v st' H Hwf. simpl in H.
    destruct (parseTerm f st) as [[l|] st1| |] eqn:E; try done.
    + pose proof (MT _ _ _ E Hwf) as [L1 _].
      apply IHT in E; [|done].
      apply IHEL in H; [|eapply cur_le_wf, L1]. lia.
    + inversion H; subst. by apply IHT in E.
  - intros l st v st' H Hwf. simpl in H.
    destruct (matchChar (cur st) "+") as [plus c1] eqn:E1.
    apply matchChar_le in E1 as (L1 & _ & _); [|done].
    destruct L1 as (Ht1 & Hp1 & Hw1).
    destruct plus; [|inversion H; subst; simpl; lia].
    destruct (parseTerm f _) as [[r|] st1| |] eqn:E; try done.
    + pose proof (MT _ _ _ E Hw1) as [L2 _].
      apply IHT in E; [|done]. simpl in E.
      apply IHEL in H; [|eapply cur_le_wf, L2]. lia.
    + inversion H; subst. apply IHT in E; [|done]. simpl in E. lia.
  - intros st v st' H Hwf. simpl in H. by apply IHTL in H.
  - intros cs st v st' H Hwf. simpl in H.
    destruct (parseFactor f st) as [[fc|] st1| |] eqn:E; try done.
    + pose proof (MF _ _ _ E Hwf) as [L1 _].
      apply IHF in E; [|done].
      apply IHTL in H; [|eapply cur_le_wf, L1]. lia.
    + apply IHF in E; [|done]. destruct cs; inversion H; by subst.
  - intros st v st' H Hwf. simpl in H.
    destruct (matchChar (cur st) "(") as [paren c1] eqn:E1.
    apply matchChar_le in E1 as (L1 & Ht & Hc1); [|done].
    destruct (L1) as (Ht1 & Hp1 & Hw1).
    destruct paren.
    { specialize (Ht eq_refl). apply IHG in H; [|done]. simpl in H. lia. }
    assert (cur_le (cur st) (advance c1)) as L2.
    { eapply cur_le_trans; [exact L1|]. by apply advance_le. }
    destruct (negb (cur_end c1) && Ascii.eqb (current c1) ".").
    { eapply (groups_paid_suffixes _ _ _ _ st 0) in H.
      - exact H.
      - eapply cur_le_wf, L2.
      - unfold groups_paid. simpl. destruct L2 as (_ & ? & _). lia. }
    destruct (negb (cur_end c1) && negb (is_special (current c1))).
    { eapply (groups_paid_suffixes _ _ _ _ st 0) in H.
      - exact H.
      - eapply cur_le_wf, L2.
      - unfold groups_paid. simpl. destruct L2 as (_ & ? & _). lia. }
    inversion H; subst. simpl. lia.
  - intros st v st' H Hwf. simpl in H.
    destruct (parseExpr f st) as [e st1| |] eqn:E; try done.
    pose proof (ME _ _ _ E Hwf) as [L1 _].
    apply IHE in E; [|done].
    destruct (matchChar (cur st1) ")") as [closed c1] eqn:E1.
    apply matchChar_le in E1 as (L2 & Ht & _); [|eapply cur_le_wf, L1].
    destruct (L2) as (Ht2 & Hp2 & Hw2).
    destruct closed; simpl in H.
    + specialize (Ht eq_refl).
      eapply (groups_paid_suffixes _ _ _ _ st 1) in H.
      * exact H.
      * done.
      * unfold groups_paid. simpl. lia.
    + inversion H; subst. simpl. lia.
Qed.

(** X9. A compilation that returns leaves the cursor on the pattern it was
    given, at a position inside it, and after the first character when it
    returns a tree; the counter never decreases, and every group it
    numbered has used up two characters of the pattern read so far, so at
    most half as many groups are numbered as the cursor has passed
    characters. *)
Theorem descent_cursor_and_counter :
  forall (pattern : list ascii) (out gc : Z) (c : Compiled)
         (st : ParserState),
    parsePattern pattern out gc = Done c st ->
    text (cur st) = pattern /\
    pos (cur st) <= length pattern /\
    (ast c <> None -> 0 < pos (cur st)) /\
    (gc <= groupCounter st)%Z /\
    (2 * (groupCounter st - gc) <= Z.of_nat (pos (cur st)))%Z.
Proof.
  intros pattern out gc c st. unfold parsePattern, parsePattern_fuel.
  set (st0 := mkParserState (mkCursor pattern 0) gc).
  assert (cur_wf (cur st0)) as Hwf by (unfold cur_wf; simpl; lia).
  destruct (parseExpr _ st0) as [a st1| |] eqn:E; try done.
  pose proof (proj1 (parser_moves_all _) _ _ _ E Hwf)
    as [[(Ht & Hp & Hw) Hg] Hlt].
  pose proof (proj1 (parser_groups_all _) _ _ _ E Hwf) as Hpaid.
  unfold groups_paid, st_lt in *. simpl in Ht, Hp, Hg, Hlt, Hpaid.
  rewrite parse_output_refines.
  destruct (OUTPUT_directive (rest (cur st1))) as [ds|] eqn:Ed.
  - destruct (stoi ds); [|done]. intros [= <- <-]. simpl.
    assert (pos (cur st1) + 4 + length ds <= length pattern) as Hin.
    { unfold OUTPUT_directive in Ed.
      destruct (rest (cur st1)) as [|c1 [|o [|c3 r]]] eqn:R; try done.
      destruct (_ && _); [|done].
      pose proof (span_digits_app r) as Hr.
      destruct (span_digits r) as [[|d ds'] [|c4 r4]]; try done.
      destruct (Ascii.eqb c4 "}"); [|done]. inversion Ed; subst ds.
      simpl in Hr.
      apply (f_equal length) in R. unfold rest in R.
      rewrite length_drop, Ht in R. simpl in R.
      rewrite Hr in R. simpl in R. rewrite length_app in R. simpl in R.
      simpl. lia. }
    repeat split; try done; try lia.
  - intros [= <- <-]. rewrite with_cur_same.
    unfold cur_wf in Hw. rewrite Ht in Hw.
    repeat split; try done; try lia.
    simpl. intros Ha. apply Hlt. by destruct a.
Qed.

Lemma descent_cursor_and_counter_witness :
  text (mkCursor (list_ascii_of_string "((a)b)") 6)
  = list_ascii_of_string "((a)b)".
Proof.
  exact (proj1 (descent_cursor_and_counter
                  (list_ascii_of_string "((a)b)") 0 1 _
                  (mkParserState
                     (mkCursor (list_ascii_of_string "((a)b)") 6) 3)
                  eq_refl)).
Defined.

(* ===================================================================== *)
(** ** The descent: the exception of std::stoi *)
(* ===================================================================== *)

Lemma span_digits_digits s : forallb isdigit (fst (span_digits s)) = true.
Proof.
  induction s as [|c r IH]; simpl; [done|].
  destruct (isdigit c) eqn:E; [|done].
  destruct (span_digits r) as [ds r']. simpl in *. by rewrite E.
Qed.

Lemma digit_value_range c : isdigit c = true -> (0 <= digit_value c <= 9)%Z.
Proof.
  unfold isdigit, digit_value.
  intros [H1 H2]%andb_true_iff.
  apply Nat.leb_le in H1, H2. lia.
Qed.

Lemma decimal_fold_bound ds : forall acc,
  forallb isdigit ds = true -> (0 <= acc)%Z ->
  (0 <= fold_left (fun a c => 10 * a + digit_value c) ds acc
   < (acc + 1) * 10 ^ Z.of_nat (length ds))%Z.
Proof.
  induction ds as [|d ds IH]; intros acc Hd Hacc; simpl fold_left.
  { simpl. lia. }
  simpl in Hd. apply andb_true_iff in Hd as [Hd Hds].
  apply digit_value_range in Hd.
  specialize (IH (10 * acc + digit_value d)%Z Hds ltac:(lia)).
  replace (Z.of_nat (length (d :: ds))) with (Z.succ (Z.of_nat (length ds)))
    by (simpl length; lia).
  rewrite Z.pow_succ_r by lia.
  assert (0 < 10 ^ Z.of_nat (length ds))%Z by (apply Z.pow_pos_nonneg; lia).
  nia.
Qed.

Lemma decimal_range ds :
  forallb isdigit ds = true ->
  (0 <= decimal ds < 10 ^ Z.of_nat (length ds))%Z.
Proof.
  intros Hd. pose proof (decimal_fold_bound ds 0%Z Hd ltac:(lia)) as H.
  unfold decimal. lia.
Qed.


Lemma stoi_short ds :
  forallb isdigit ds = true -> length ds <= 9 -> stoi ds <> None.
Proof.
  unfold stoi. intros Hd Hl. pose proof (decimal_range ds Hd) as [_ H1].
  assert (10 ^ Z.of_nat (length ds) <= 10 ^ 9)%Z.
  { apply Z.pow_le_mono_r; lia. }
  destruct (Z.leb_spec (decimal ds) INT_MAX); [done|].
  unfold INT_MAX in *. lia.
Qed.

Lemma short_runs_at t p :
  short_runs t = true -> length (fst (span_digits (drop p t))) <= 9.
Proof.
  intros H. destruct (decide (p < length t)) as [Hp|Hp].
  - unfold short_runs in H. rewrite forallb_forall in H.
    apply Nat.leb_le, H. apply in_seq. lia.
  - rewrite drop_ge by lia. simpl. lia.
Qed.

Lemma text_advance c : text (advance c) = text c.
Proof. unfold advance. by destruct (cur_end c). Qed.

Lemma text_matchChar c x ok c' : matchChar c x = (ok, c') -> text c' = text c.
Proof.
  unfold matchChar. destruct (_ && _); intros [= <- <-]; [|done].
  apply text_advance.
Qed.

Lemma parse_digits_short c digits c' :
  short_runs (text c) = true -> parse_digits c = (digits, c') ->
  forallb isdigit digits = true /\ length digits <= 9.
Proof.
  intros Hs H. rewrite (proj1 (parse_digits_span c)) in H.
  inversion H; subst. split; [apply span_digits_digits|].
  by apply short_runs_at.
Qed.

Lemma parseCount_no_throw base st :
  short_runs (text (cur st)) = true -> parseCount base st <> Throw.
Proof.
  intros Hs. unfold parseCount.
  destruct (matchChar (cur st) "*") as [[|] c1] eqn:E1; [done|].
  apply text_matchChar in E1.
  destruct (_ && _); [|done].
  destruct (parse_digits (advance c1)) as [digits c3] eqn:E3.
  apply parse_digits_short in E3 as [Hd Hl];
    [|by rewrite text_advance, E1].
  destruct (matchChar c3 "}") as [[|] c4]; simpl; [|done].
  destruct digits as [|d ds]; [done|].
  destruct (stoi (d :: ds)) eqn:Es; [done|].
  by apply stoi_short in Es.
Qed.

Lemma parse_suffixes_no_throw base st :
  short_runs (text (cur st)) = true -> parse_suffixes base st <> Throw.
Proof.
  intros Hs. unfold parse_suffixes.
  destruct (parseCount base st) as [e1 st1| |] eqn:E1.
  - destruct (parseIgnoreCase _ st1) as [e2 st2| |] eqn:E2; try done.
    unfold parseIgnoreCase in E2.
    destruct (_ && _); [destruct (_ && _)|]; done.
  - by apply parseCount_no_throw in E1.
  - done.
Qed.

Lemma parser_no_throw_all f :
  (forall st, cur_wf (cur st) -> short_runs (text (cur st)) = true ->
     parseExpr f st <> Throw) /\
  (forall l st, cur_wf (cur st) -> short_runs (text (cur st)) = true ->
     parseExpr_loop f l st <> Throw) /\
  (forall st, cur_wf (cur st) -> short_runs (text (cur st)) = true ->
     parseTerm f st <> Throw) /\
  (forall cs st, cur_wf (cur st) -> short_runs (text (cur st)) = true ->
     parseTerm_loop f cs st <> Throw) /\
  (forall st, cur_wf (cur st) -> short_runs (text (cur st)) = true ->
     parseFactor f st <> Throw) /\
  (forall st, cur_wf (cur st) -> short_runs (text (cur st)) = true ->
     parseGroup f st <> Throw).
Proof.
  induction f as [|f (IHE & IHEL & IHT & IHTL & IHF & IHG)];
    [parser_fuel_zero|].
  pose proof (parser_moves_all f) as (ME & MEL & MT & MTL & MF & MG).
  split; [|split; [|split; [|split; [|split]]]].
  - intros st Hwf Hs. simpl.
    destruct (parseTerm f st) as [[l|] st1| |] eqn:E; try done.
    + pose proof (MT _ _ _ E Hwf) as [[(Ht & _ & Hw) _] _].
      apply IHEL; [done|by rewrite Ht].
    + by apply IHT in E.
  - intros l st Hwf Hs. simpl.
    destruct (matchChar (cur st) "+") as [plus c1] eqn:E1.
    apply matchChar_le in E1 as ((Ht1 & _ & Hw1) & _ & _); [|done].
    destruct plus; [|done].
    destruct (parseTerm f _) as [[r|] st1| |] eqn:E; try done.
    + pose proof (MT _ _ _ E Hw1) as [[(Ht & _ & Hw) _] _].
      apply IHEL; [done|]. simpl in Ht. by rewrite Ht, Ht1.
    + apply IHT in E; [done|done|]. simpl. by rewrite Ht1.
  - intros st Hwf Hs. simpl. by apply IHTL.
  - intros cs st Hwf Hs. simpl.
    destruct (parseFactor f st) as [[fc|] st1| |] eqn:E; try done.
    + pose proof (MF _ _ _ E Hwf) as [[(Ht & _ & Hw) _] _].
      apply IHTL; [done|by rewrite Ht].
    + by destruct cs.
    + by apply IHF in E.
  - intros st Hwf Hs. simpl.
    destruct (matchChar (cur st) "(") as [paren c1] eqn:E1.
    apply matchChar_le in E1 as ((Ht1 & _ & Hw1) & _ & _); [|done].
    destruct paren.
    { apply IHG; [done|]. simpl. by rewrite Ht1. }
    destruct (_ && _).
    { apply parse_suffixes_no_throw. simpl. by rewrite text_advance, Ht1. }
    destruct (_ && _); [|done].
    apply parse_suffixes_no_throw. simpl. by rewrite text_advance, Ht1.
  - intros st Hwf Hs. simpl.
    destruct (parseExpr f st) as [e st1| |] eqn:E; try done.
    + pose proof (ME _ _ _ E Hwf) as [[(Ht & _ & Hw) _] _].
      destruct (matchChar (cur st1) ")") as [closed c1] eqn:E1.
      apply text_matchChar in E1.
      destruct closed; simpl; [|done].
      apply parse_suffixes_no_throw. simpl. by rewrite E1, Ht.
    + by apply IHE in E.
Qed.

(** X10. [parsePattern] lets the exception of [std::stoi] escape only for
    a run of ten or more digits: on a pattern in which no run of digits is
    longer than nine characters the compilation returns, with a tree or
    with a null pointer. *)
Theorem short_digit_runs_never_throw :
  forall (pattern : list ascii) (out gc : Z),
    short_runs pattern = true ->
    exists c st, parsePattern pattern out gc = Done c st.
Proof.
  intros pattern out gc Hs.
  pose proof (parsePattern_total pattern out gc) as Hf.
  unfold parsePattern, parsePattern_fuel in *.
  set (st0 := mkParserState (mkCursor pattern 0) gc) in *.
  assert (cur_wf (cur st0)) as Hwf by (unfold cur_wf; simpl; lia).
  pose proof (proj1 (parser_no_throw_all (parse_fuel pattern)) st0 Hwf Hs)
    as Hn.
  destruct (parseExpr _ st0) as [a st1| |] eqn:E; try done.
  pose proof (proj1 (parser_moves_all _) _ _ _ E Hwf)
    as [[(Ht & _ & _) _] _].
  simpl in Ht.
  rewrite parse_output_refines.
  destruct (OUTPUT_directive (rest (cur st1))) as [ds|] eqn:Ed; [|eauto].
  destruct (stoi ds) eqn:Es; [eauto|]. exfalso.
  unfold OUTPUT_directive in Ed.
  destruct (rest (cur st1)) as [|c1 [|o [|c3 r]]] eqn:R; try done.
  destruct (_ && _); [|done].
  assert (r = drop (pos (cur st1) + 3) pattern) as Hr.
  { unfold rest in R. rewrite Ht in R.
    rewrite <- (drop_drop pattern 3 (pos (cur st1))), R. done. }
  pose proof (span_digits_digits r) as Hd.
  pose proof (short_runs_at pattern (pos (cur st1) + 3) Hs) as Hl.
  rewrite <- Hr in Hl.
  destruct (span_digits r) as [[|d ds'] [|c4 r4]]; try done.
  destruct (Ascii.eqb c4 "}"); [|done]. inversion Ed; subst ds.
  by apply stoi_short in Es.
Qed.

Lemma short_digit_runs_never_throw_witness :
  exists c st,
    parsePattern (list_ascii_of_string "a{123456789}\O{7}") 0 1 = Done c st.
Proof.
  apply short_digit_runs_never_throw. vm_compute. reflexivity.
Defined.

(* ===================================================================== *)
(** ** The descent: the trees it builds *)
(* ===================================================================== *)











(* ===================================================================== *)
(** ** The descent reads the whole grammar *)
(* ===================================================================== *)





(* ===================================================================== *)
(** ** Patterns without groups *)
(* ===================================================================== *)

Lemma matchChar_no_paren c :
  no_paren (text c) = true -> matchChar c "(" = (false, c).
Proof.
  intros H. unfold matchChar, current.
  destruct (cur_end c) eqn:He; [done|]. simpl.
  destruct (text c !! pos c) as [x|] eqn:Hx; [|done]. simpl.
  destruct (Ascii.eqb x "(") eqn:E; [|done].
  unfold no_paren in H. rewrite forallb_forall in H.
  apply list_elem_of_lookup_2, list_elem_of_In, H in Hx. by rewrite E in Hx.
Qed.

Lemma parse_suffixes_guarded base st v st' :
  parse_suffixes base st = Done v st' ->
  guarded base = true -> nullable base = false ->
  exists e, v = Some e /\ guarded e = true.
Proof.
  intros H Hg Hn. unfold parse_suffixes in H.
  destruct (parseCount base st) as [x st1| |] eqn:E1; try done.
  assert (guarded (match x with Some e => e | None => base end) = true)
    as Hg1.
  { unfold parseCount in E1.
    destruct (matchChar (cur st) "*") as [[|] c1].
    { inversion E1; subst. simpl. by rewrite Hg, Hn. }
    destruct (negb (cur_end c1) && Ascii.eqb (current c1) "{").
    2:{ by inversion E1; subst. }
    destruct (parse_digits (advance c1)) as [digits c3].
    destruct (matchChar c3 "}") as [[|] c4]; simpl in E1;
      [|by inversion E1; subst].
    destruct digits as [|d ds]; [by inversion E1; subst|].
    destruct (stoi (d :: ds)); [|done]. by inversion E1; subst. }
  set (base1 := match x with Some e => e | None => base end) in *.
  destruct (parseIgnoreCase base1 st1) as [y st2| |] eqn:E2; try done.
  inversion H; subst. eexists. split; [done|].
  unfold parseIgnoreCase in E2.
  destruct (negb (cur_end (cur st1)) && Ascii.eqb (current (cur st1)) "\");
    [|by inversion E2; subst].
  destruct (negb (cur_end (advance (cur st1))) && _);
    by inversion E2; subst.
Qed.

Lemma flat_state_le st st' : flat_state st -> st_le st st' -> flat_state st'.
Proof.
  intros [H1 H2] [(Ht & _ & Hw) _]. split; [by rewrite Ht|done].
Qed.

Lemma parser_guarded_all f :
  (forall st v st', parseExpr f st = Done (Some v) st' -> flat_state st ->
     guarded v = true) /\
  (forall l st v st', parseExpr_loop f l st = Done (Some v) st' ->
     flat_state st -> guarded l = true -> guarded v = true) /\
  (forall st v st', parseTerm f st = Done (Some v) st' -> flat_state st ->
     guarded v = true) /\
  (forall cs st v st', parseTerm_loop f cs st = Done (Some v) st' ->
     flat_state st -> forallb guarded cs = true -> guarded v = true) /\
  (forall st v st', parseFactor f st = Done (Some v) st' -> flat_state st ->
     guarded v = true).
Proof.
  induction f as [|f (IHE & IHEL & IHT & IHTL & IHF)];
    [repeat split; intros; simpl in *; congruence|].
  destruct (parser_moves_all f) as (ME & MEL & MT & MTL & MF & MG).
  split; [|split; [|split; [|split]]].
  - intros st v st' H Hst. rewrite parseExpr_S in H.
    destruct (parseTerm f st) as [[l|] st1| |] eqn:E; try done.
    apply (IHEL _ _ _ _ H).
    + apply (flat_state_le st); [done|]. by apply (MT _ _ _ E), Hst.
    + by apply (IHT _ _ _ E).
  - intros l st v st' H Hst Hl. rewrite parseExpr_loop_S in H.
    destruct (matchChar (cur st) "+") as [[|] c1] eqn:Em.
    + destruct (parseTerm f (with_cur st c1)) as [[r|] st1| |] eqn:E;
        try done.
      assert (flat_state (with_cur st c1)) as Hst1.
      { apply (flat_state_le st); [done|].
        split; [|simpl; lia]. apply (matchChar_le _ _ _ _ Em), Hst. }
      apply (IHEL _ _ _ _ H).
      * apply (flat_state_le (with_cur st c1)); [done|].
        by apply (MT _ _ _ E), Hst1.
      * simpl. by rewrite Hl, (IHT _ _ _ E Hst1).
    + by inversion H; subst.
  - intros st v st' H Hst. rewrite parseTerm_S in H.
    by apply (IHTL _ _ _ _ H).
  - intros cs st v st' H Hst Hcs. rewrite parseTerm_loop_S in H.
    destruct (parseFactor f st) as [[fc|] st1| |] eqn:E; try done.
    + apply (IHTL _ _ _ _ H).
      * apply (flat_state_le st); [done|]. by apply (MF _ _ _ E), Hst.
      * rewrite forallb_app, Hcs. simpl. by rewrite (IHF _ _ _ E Hst).
    + destruct cs as [|c cs]; [done|]. by inversion H; subst.
  - intros st v st' H Hst. simpl in H.
    rewrite (matchChar_no_paren _ (proj1 Hst)) in H.
    destruct (negb (cur_end (cur st)) && Ascii.eqb (current (cur st)) ".").
    { by destruct (parse_suffixes_guarded _ _ _ _ H eq_refl eq_refl)
        as (e & [= ->] & He). }
    destruct (negb (cur_end (cur st)) && negb (is_special (current (cur st))));
      [|done].
    by destruct (parse_suffixes_guarded _ _ _ _ H eq_refl eq_refl)
      as (e & [= ->] & He).
Qed.

Lemma findMatch_loop_guarded a txt caps fuel :
  guarded a = true -> size a * (length txt + 2) <= fuel ->
  forall n start,
    findMatch_loop fuel a txt caps start n
    = findMatch_loop (size a * (length txt + 2)) a txt caps start n /\
    (findMatch_loop fuel a txt caps start n = NotFound \/
     exists s c, findMatch_loop fuel a txt caps start n = Found s c).
Proof.
  intros Hg Hf. induction n as [|n IH]; intros start; simpl; [auto|].
  destruct (proj1 (match_returns_both (size a * (length txt + 2))) a
              (attempt_ctx txt start caps) Hg) as (ok & ctx' & E).
  { unfold match_fuel, remaining. simpl. nia. }
  rewrite E. rewrite (match_node_mono _ fuel _ _ _ E) by done.
  destruct ok; [eauto|]. apply IH.
Qed.

(** X13. A pattern without an opening parenthesis cannot crash or hang the
    program: unless the compilation lets the exception of [std::stoi]
    escape, the tree it returns has no null group and no repetition of a
    node that can succeed without consuming, and on every text the run ends
    by itself, with a status and an output that do not depend on the
    fuel. *)
Theorem flat_patterns_always_exit :
  forall (pattern inp : list ascii) (gc : Z),
    no_paren pattern = true ->
    parsePattern pattern 0 gc = Throw \/
    ((forall a o st,
        parsePattern pattern 0 gc = Done (mkCompiled (Some a) o) st ->
        guarded a = true) /\
     exists fuel0 status printed,
       forall fuel, fuel0 <= fuel ->
         main fuel gc pattern inp = Exit status printed).
Proof.
  intros pattern inp gc Hp.
  assert (forall a o st,
            parsePattern pattern 0 gc = Done (mkCompiled (Some a) o) st ->
            guarded a = true) as Hguard.
  { intros a o st H. unfold parsePattern, parsePattern_fuel in H.
    destruct (parseExpr _ _) as [v st1| |] eqn:E; try done.
    destruct (parse_output _ _) as [[o' c]|]; [|done].
    inversion H; subst.
    apply (proj1 (parser_guarded_all _) _ _ _ E).
    split; [done|]. unfold cur_wf. simpl. lia. }
  unfold main.
  destruct (parsePattern pattern 0 gc) as [[[a|] o] st| |] eqn:E.
  - right. split; [done|].
    specialize (Hguard a o st eq_refl).
    exists (size a * (length inp + 2)).
    destruct (findMatch_loop_guarded a inp [] _ Hguard (Nat.le_refl _)
                (S (length inp)) 0) as [_ [H0|(s & c & H0)]].
    + exists EXIT_FAILURE, None. intros fuel Hf. unfold findMatch.
      by rewrite (proj1 (findMatch_loop_guarded a inp [] fuel Hguard Hf
                           (S (length inp)) 0)), H0.
    + exists EXIT_SUCCESS, (select_output o c inp). intros fuel Hf.
      unfold findMatch.
      by rewrite (proj1 (findMatch_loop_guarded a inp [] fuel Hguard Hf
                           (S (length inp)) 0)), H0.
  - right. split; [done|]. by exists 0, EXIT_FAILURE, None.
  - by left.
  - by destruct (parsePattern_total pattern 0 gc).
Qed.

Lemma flat_patterns_always_exit_witness :
  parsePattern (list_ascii_of_string "a*.{2}b\I+c") 0 1 = Throw \/
  ((forall a o st,
      parsePattern (list_ascii_of_string "a*.{2}b\I+c") 0 1
      = Done (mkCompiled (Some a) o) st ->
      guarded a = true) /\
   exists fuel0 status printed,
     forall fuel, fuel0 <= fuel ->
       main fuel 1 (list_ascii_of_string "a*.{2}b\I+c")
            (list_ascii_of_string "xaaxyBz")
       = Exit status printed).
Proof.
  apply (flat_patterns_always_exit (list_ascii_of_string "a*.{2}b\I+c")
           (list_ascii_of_string "xaaxyBz") 1).
  reflexivity.
Defined.

(* ===================================================================== *)
(** ** Literal patterns: the program is a substring search *)
(* ===================================================================== *)

Lemma parse_suffixes_plain base st :
  match rest (cur st) with
  | [] => True
  | y :: _ => plain y = true
  end ->
  parse_suffixes base st = Done (Some base) st.
Proof.
  intros H. unfold parse_suffixes, parseCount, parseIgnoreCase.
  destruct (rest (cur st)) as [|y r] eqn:R.
  - rewrite (matchChar_nil _ _ R). rewrite (rest_nil _ R). simpl.
    rewrite with_cur_same. simpl. rewrite (rest_nil _ R). done.
  - unfold plain, is_special in H. simpl in H.
    apply negb_true_iff in H.
    repeat (apply orb_false_iff in H as [? H]).
    rewrite (matchChar_cons _ _ _ _ R).
    destruct (rest_cons _ _ _ R) as (He & Hx & _).
    replace (Ascii.eqb y "*") with false by done.
    rewrite He, Hx. simpl negb. rewrite andb_true_l.
    replace (Ascii.eqb y "{") with false by done.
    rewrite with_cur_same. simpl.
    rewrite He, Hx. simpl negb. rewrite andb_true_l.
    by replace (Ascii.eqb y "\") with false by done.
Qed.

Lemma parseTerm_loop_plain lits :
  forall f cs st,
    rest (cur st) = lits -> forallb plain lits = true ->
    length lits + 2 <= f ->
    parseTerm_loop f cs st
    = Done (sequence_of (cs ++ map CharacterNode lits))
           (with_cur st (mkCursor (text (cur st))
                                  (pos (cur st) + length lits))).
Proof.
  induction lits as [|x lits IH]; intros f cs st R Hp Hf.
  - destruct f as [|[|f]]; try (simpl in Hf; lia).
    rewrite parseTerm_loop_S, parseFactor_none by (by rewrite R).
    simpl. rewrite app_nil_r, Nat.add_0_r.
    destruct st as [[t p] g]. by destruct cs.
  - destruct f as [|[|f]]; try (simpl in Hf; lia).
    simpl in Hp. apply andb_true_iff in Hp as [Hx Hp].
    rewrite parseTerm_loop_S, (parseFactor_plain _ _ _ _ R Hx).
    destruct (rest_cons _ _ _ R) as (_ & _ & Ha & R').
    rewrite parse_suffixes_plain.
    2:{ simpl. rewrite R'. destruct lits as [|y lits]; [done|].
        simpl in Hp. by apply andb_true_iff in Hp as [Hy _]. }
    rewrite (IH (S f)); simpl; try done; [|simpl in Hf; lia].
    rewrite Ha. simpl. rewrite <- app_assoc. simpl.
    do 3 f_equal. lia.
Qed.

Lemma parsePattern_plain lits out gc :
  forallb plain lits = true -> lits <> [] ->
  parsePattern lits out gc
  = Done (mkCompiled (Some (literal_tree lits)) out)
         (mkParserState (mkCursor lits (length lits)) gc).
Proof.
  intros Hp Hne.
  assert (parseExpr (length lits + 4) (mkParserState (mkCursor lits 0) gc)
          = Done (Some (literal_tree lits))
                 (mkParserState (mkCursor lits (length lits)) gc)) as E.
  { replace (length lits + 4) with (S (S (S (length lits + 1)))) by lia.
    rewrite parseExpr_S, parseTerm_S.
    rewrite (parseTerm_loop_plain lits _ [] (mkParserState (mkCursor lits 0) gc)
               eq_refl Hp) by lia.
    simpl app. destruct (map CharacterNode lits) as [|c0 cs0] eqn:Hm.
    { by destruct lits. }
    simpl sequence_of. cbv beta iota.
    replace (S (length lits + 1)) with (S (S (length lits))) by lia.
    rewrite parseExpr_loop_end.
    - unfold literal_tree. by rewrite Hm.
    - simpl. unfold rest. simpl. by rewrite drop_all. }
  apply parseExpr_any_fuel in E.
  unfold parsePattern, parsePattern_fuel. rewrite E.
  rewrite parse_output_refines. simpl cur.
  unfold rest. simpl. by rewrite drop_all.
Qed.

Lemma set_position_same ctx : set_position ctx (position ctx) = ctx.
Proof. by destruct ctx. Qed.

Lemma literal_run lits :
  forall ctx sp f,
    ignoreCase ctx = false ->
    seq_loop (match_node (S f)) sp (map CharacterNode lits) ctx
    = if starts_with lits (drop (position ctx) (input ctx))
      then Returned true (set_position ctx (position ctx + length lits))
      else Returned false (set_position ctx sp).
Proof.
  induction lits as [|x lits IH]; intros ctx sp f Hi.
  - simpl. by rewrite Nat.add_0_r, set_position_same.
  - cbn [map seq_loop]. simpl match_node. rewrite Hi.
    unfold atEnd, currentChar, atEnd.
    destruct (length (input ctx) <=? position ctx) eqn:He.
    + apply Nat.leb_le in He. by rewrite drop_ge.
    + apply Nat.leb_gt in He.
      destruct (lookup_lt_is_Some_2 (input ctx) (position ctx) He)
        as [c Hc].
      rewrite (drop_S _ _ _ Hc), Hc. simpl.
      destruct (Ascii.eqb c x); [|done]. simpl.
      rewrite (IH _ sp f) by done. simpl.
      replace (position ctx + S (length lits))
        with (S (position ctx + length lits)) by lia.
      by destruct (starts_with lits _).
Qed.

Lemma literal_attempt lits txt caps s f :
  attempt (S (S f)) (literal_tree lits) txt caps s
  = if starts_with lits (drop s txt)
    then Returned true
           (set_position (attempt_ctx txt s caps) (s + length lits))
    else Returned false (attempt_ctx txt s caps).
Proof.
  unfold attempt, literal_tree.
  change (match_node (S (S f)) (SequenceNode (map CharacterNode lits))
            (attempt_ctx txt s caps))
    with (seq_loop (match_node (S f)) s (map CharacterNode lits)
            (attempt_ctx txt s caps)).
  rewrite literal_run by done. simpl.
  by destruct (starts_with lits (drop s txt)).
Qed.

Lemma starts_with_take lits r :
  starts_with lits r = true -> take (length lits) r = lits.
Proof.
  revert r. induction lits as [|x lits IH]; intros [|c r]; simpl; try done.
  intros [Hc Hr]%andb_true_iff. apply ascii_eqb_true_eq in Hc. subst c.
  by rewrite (IH _ Hr).
Qed.

(** X14. A pattern of literal characters makes the program a substring
    search.  It compiles to the sequence of its characters; the search
    reports the least offset at which the text continues with the pattern,
    with slot 0 holding the span from that offset over the length of the
    pattern, and reports no match exactly when the pattern stands at no
    offset; the run prints the pattern itself in the first case and prints
    nothing, with a failure status, in the second. *)
Theorem literal_pattern_is_substring_search :
  forall (lits txt : list ascii) (gc : Z) (f : nat),
    forallb plain lits = true -> lits <> [] ->
    parsePattern lits 0 gc
    = Done (mkCompiled (Some (literal_tree lits)) 0)
           (mkParserState (mkCursor lits (length lits)) gc) /\
    match findMatch (S (S f)) (literal_tree lits) txt [] with
    | Found s caps =>
        s <= length txt /\
        starts_with lits (drop s txt) = true /\
        (forall s', s' < s -> starts_with lits (drop s' txt) = false) /\
        caps = [Some (mkCaptureGroup s (s + length lits) true)] /\
        main (S (S f)) gc lits txt = Exit EXIT_SUCCESS (Some lits)
    | NotFound =>
        (forall s', starts_with lits (drop s' txt) = false) /\
        main (S (S f)) gc lits txt = Exit EXIT_FAILURE None
    | _ => False
    end.
Proof.
  intros lits txt gc f Hp Hne. split; [by apply parsePattern_plain|].
  unfold main. rewrite (parsePattern_plain lits 0 gc Hp Hne).
  unfold findMatch.
  pose proof (findMatch_loop_inv (S (S f)) (literal_tree lits) txt []
                (S (length txt)) 0) as Hinv.
  destruct (findMatch_loop _ _ _ _ _ _) as [s caps| | |].
  - destruct Hinv as (Hs & Hb & c & Hc & ->).
    rewrite literal_attempt in Hc.
    destruct (starts_with lits (drop s txt)) eqn:E; [|done].
    inversion Hc; subst c. clear Hc.
    assert (finish_match s
              (set_position (attempt_ctx txt s []) (s + length lits))
            = [Some (mkCaptureGroup s (s + length lits) true)]) as ->
      by done.
    split; [lia|]. split; [done|]. split.
    { intros s' Hs'. destruct (Hb s' ltac:(lia)) as [c0 Hc0].
      rewrite literal_attempt in Hc0.
      by destruct (starts_with lits (drop s' txt)). }
    split; [done|].
    unfold select_output, substr. simpl.
    replace (s + length lits - s) with (length lits) by lia.
    by rewrite (starts_with_take _ _ E).
  - split; [|done]. intros s'.
    destruct (decide (s' <= length txt)) as [Hs'|Hs'].
    + destruct (Hinv s' ltac:(lia)) as [c0 Hc0].
      rewrite literal_attempt in Hc0.
      by destruct (starts_with lits (drop s' txt)).
    + rewrite drop_ge by lia. by destruct lits.
  - destruct Hinv as (s & _ & _ & Hc). rewrite literal_attempt in Hc.
    by destruct (starts_with lits (drop s txt)).
  - destruct Hinv as (s & _ & _ & Hc). rewrite literal_attempt in Hc.
    by destruct (starts_with lits (drop s txt)).
Qed.

Lemma literal_pattern_is_substring_search_witness :
  parsePattern (list_ascii_of_string "ab") 0 1
  = Done (mkCompiled (Some (literal_tree (list_ascii_of_string "ab"))) 0)
         (mkParserState (mkCursor (list_ascii_of_string "ab") 2) 1) /\
  match findMatch 2 (literal_tree (list_ascii_of_string "ab"))
          (list_ascii_of_string "aabab") [] with
  | Found s caps =>
      s <= 5 /\
      starts_with (list_ascii_of_string "ab")
        (drop s (list_ascii_of_string "aabab")) = true /\
      (forall s', s' < s ->
         starts_with (list_ascii_of_string "ab")
           (drop s' (list_ascii_of_string "aabab")) = false) /\
      caps = [Some (mkCaptureGroup s (s + 2) true)] /\
      main 2 1 (list_ascii_of_string "ab") (list_ascii_of_string "aabab")
      = Exit EXIT_SUCCESS (Some (list_ascii_of_string "ab"))
  | NotFound =>
      (forall s',
         starts_with (list_ascii_of_string "ab")
           (drop s' (list_ascii_of_string "aabab")) = false) /\
      main 2 1 (list_ascii_of_string "ab") (list_ascii_of_string "aabab")
      = Exit EXIT_FAILURE None
  | _ => False
  end.
Proof.
  apply (literal_pattern_is_substring_search (list_ascii_of_string "ab")
           (list_ascii_of_string "aabab") 1 0); [reflexivity|done].
Defined.
